(** * RemoteIndices: the distributed index exchange layer of dune-istl

    A shallow embedding of [istl/remoteindices.hh]: the remote index record,
    the registry with its discovery protocol (seen from one process), the
    list modifier and the collective iterator, followed by the properties
    checked against it.

    Conventions of the embedding.
    - Objects that the C++ code reaches through pointers live in stores:
      the parallel index sets in a [Store] (address -> object), the remote
      index lists in the [heap] of the [World].  A pointer is an address,
      a nullable pointer an [option].
    - Every operation runs in the monad [M]: it either completes ([Ok]),
      throws a C++ exception ([Raise], with the world as it was at the
      throw), or has no defined behaviour ([Undefined]: a null pointer or an
      end iterator is dereferenced, an array is read out of range, ...).
    - Calls to [delete] and to MPI are recorded in the [trace] of the world.
    - Loops walking a linked list or an array recurse on what is left of
      it; the merge loop of the one-list [unpackIndices] and the client loop
      over a collective iterator carry a step budget, set by their callers
      to a bound of the loop and proved never to run out. *)

From Stdlib Require Import ZArith List Bool Lia Sorted.
From stdpp Require Import base gmap list.

Local Open Scope Z_scope.

(** ** Index pairs and parallel index sets *)

(** The type of the global index ([TG]); only its order is used. *)
Definition GlobalIndex := Z.

(** The attribute enumeration ([TA]), e.g. OwnerOverlapCopyAttributes. *)
Inductive Attribute := owner | overlap | copy.

#[global] Instance Attribute_eq_dec : EqDecision Attribute.
Proof. solve_decision. Defined.

(** Modelled from the spec: [plocalindex.hh] (ParallelLocalIndex) is not among
    the sources; a local id is a process-local index carrying an attribute and
    a public flag. *)
Record ParallelLocalIndex := {
  local_ : Z;
  attribute : Attribute;
  isPublic : bool }.

(** Modelled from the spec: [indexset.hh] (IndexPair) is not among the
    sources; an index record is the pair (G, L). *)
Record IndexPair := {
  global : GlobalIndex;
  local : ParallelLocalIndex }.

Inductive ParallelIndexSetState := GROUND | RESIZE.

(** Modelled from the spec: [indexset.hh] (ParallelIndexSet) is not among the
    sources; an index set is an ordered sequence of records, iterated in
    ascending G, with a sequence number and a ground/resize state. *)
Record ParallelIndexSet := {
  records : list IndexPair;
  seqNo : Z;
  state : ParallelIndexSetState }.

(** The index set objects of the process, by address. *)
Abbreviation Store := (gmap positive ParallelIndexSet).

(** [const ParallelIndexSet*]: [None] is the null pointer. *)
Abbreviation SetPtr := (option positive).

(** [const PairType*]: the address of a record inside an index set, that is
    the set and the slot of the record in it; [nullptr] is [0]. *)
Inductive PairPtr :=
| nullptr
| slot_of (set : positive) (i : nat).

#[global] Instance PairPtr_eq_dec : EqDecision PairPtr.
Proof. solve_decision. Defined.

(** ** Remote index records and lists *)

Record RemoteIndex := {
  localIndex_ : PairPtr;
  attribute_ : Attribute }.

(** [SLList<RemoteIndex>]: the nodes from the head on. *)
Abbreviation RemoteIndexList := (list RemoteIndex).

(** [RemoteIndexList*]: lists are allocated with [new], never null here. *)
Abbreviation ListPtr := positive.

(** ** Packed MPI buffers *)

Inductive Packed :=
| PackedChar (c : Z)
| PackedInt (n : Z)
| PackedPair (p : IndexPair).

Abbreviation Buffer := (list Packed).

(** ** Worlds, faults and the monad *)

Inductive Event :=
| Delete (p : ListPtr)
| MPI_Allreduce (publish : Z)
| MPI_Sendrecv (dest : Z) (payload : Buffer)
| MPI_Ssend (dest : Z) (payload : Buffer)
| MPI_Recv (src : Z)
| MPI_Barrier.

Record World := {
  heap : gmap positive RemoteIndexList;
  trace : list Event }.

Inductive Fault :=
| NullDereference
| EndDereference
| DanglingPointer
| OutOfBounds
| DoubleDelete
| AssertionFailed
| MPIError
| StepBudget.

Inductive Exception :=
| InvalidPosition
| InvalidIndexSetState
| ISTLError.

Inductive Res (A : Type) :=
| Ok (a : A) (w : World)
| Raise (e : Exception) (w : World)
| Undefined (f : Fault).

Arguments Ok {A} a w.
Arguments Raise {A} e w.
Arguments Undefined {A} f.

Definition M (A : Type) := World -> Res A.

Definition ret {A} (a : A) : M A := fun w => Ok a w.

Definition bind {A B} (m : M A) (k : A -> M B) : M B :=
  fun w => match m w with
           | Ok a w' => k a w'
           | Raise e w' => Raise e w'
           | Undefined f => Undefined f
           end.

Definition fault {A} (f : Fault) : M A := fun _ => Undefined f.

Definition throw {A} (e : Exception) : M A := fun w => Raise e w.

Declare Scope m_scope.
Delimit Scope m_scope with M.
Notation "x <- c1 ;; c2" := (bind c1 (fun x => c2))
  (at level 100, c1 at next level, right associativity) : m_scope.
Notation "c1 ;;; c2" := (bind c1 (fun _ => c2))
  (at level 100, right associativity) : m_scope.

Local Open Scope m_scope.

(** Lift a lookup: a missing value is the given fault. *)
Definition from_option {A} (f : Fault) (o : option A) : M A :=
  match o with Some a => ret a | None => fault f end.

Definition emit (e : Event) : M unit :=
  fun w => Ok tt {| heap := heap w; trace := trace w ++ [e] |}.

(** [assert(c)]: compiled out under NDEBUG. *)
Definition assert (NDEBUG : bool) (c : M bool) : M unit :=
  if NDEBUG then ret tt
  else b <- c ;; if b then ret tt else fault AssertionFailed.

(** Compile-time configuration of the translation unit. *)
Record Config := {
  DUNE_ISTL_WITH_CHECKING : bool;
  NDEBUG : bool }.

(** ** Dereferencing *)

(** The record a pair pointer refers to, if it refers to one. *)
Definition pair_at (σ : Store) (p : PairPtr) : option IndexPair :=
  match p with
  | nullptr => None
  | slot_of a i => s ← σ !! a; records s !! i
  end.

(** [*p] for [const PairType* p]. *)
Definition deref_pair (σ : Store) (p : PairPtr) : M IndexPair :=
  match p with
  | nullptr => fault NullDereference
  | slot_of _ _ => from_option DanglingPointer (pair_at σ p)
  end.

(** [*p] for [const ParallelIndexSet* p]. *)
Definition deref_set (σ : Store) (p : SetPtr) : M ParallelIndexSet :=
  match p with
  | None => fault NullDereference
  | Some a => from_option DanglingPointer (σ !! a)
  end.

(** [*p] for [RemoteIndexList* p]. *)
Definition read_list (p : ListPtr) : M RemoteIndexList :=
  fun w => from_option DanglingPointer (heap w !! p) w.

Definition write_list (p : ListPtr) (l : RemoteIndexList) : M unit :=
  fun w => match heap w !! p with
           | Some _ => Ok tt {| heap := <[p := l]> (heap w); trace := trace w |}
           | None => Undefined DanglingPointer
           end.

(** [new RemoteIndexList()]. *)
Definition new_list : M ListPtr :=
  fun w => let p := fresh (dom (heap w)) in
           Ok p {| heap := <[p := []]> (heap w); trace := trace w |}.

(** [delete p]. *)
Definition delete_list (p : ListPtr) : M unit :=
  fun w => match heap w !! p with
           | Some _ => Ok tt {| heap := delete p (heap w);
                               trace := trace w ++ [Delete p] |}
           | None => Undefined DoubleDelete
           end.

(** ** RemoteIndex (lines 772-797) *)

(** [RemoteIndex(const T2& attribute, const PairType* local)]. *)
Definition RemoteIndex_ctor (attribute : Attribute) (local : PairPtr) : RemoteIndex :=
  {| localIndex_ := local; attribute_ := attribute |}.

(** [RemoteIndex(const T2& attribute)]. *)
Definition RemoteIndex_ctor_attribute (attribute : Attribute) : RemoteIndex :=
  {| localIndex_ := nullptr; attribute_ := attribute |}.

(** [RemoteIndex()]: [attribute_()] is the zero value of the enumeration. *)
Definition RemoteIndex_ctor_default : RemoteIndex :=
  {| localIndex_ := nullptr; attribute_ := owner |}.

(** [attribute()]. *)
Definition RemoteIndex_attribute (r : RemoteIndex) : Attribute := attribute_ r.

(** [localIndexPair()]: [return *localIndex_;]. *)
Definition localIndexPair (σ : Store) (r : RemoteIndex) : M IndexPair :=
  deref_pair σ (localIndex_ r).

(** The global id behind the back-reference of [r]. *)
Definition global_of (σ : Store) (r : RemoteIndex) : M GlobalIndex :=
  p <- localIndexPair σ r ;; ret (global p).

(** ** std::map<int, V>

    Modelled from the spec: the standard container is not among the sources;
    a [std::map] is kept as the list of its entries in ascending key order,
    which is the order of iteration.  [insert] leaves the map as it is when
    the key is present. *)
Module StdMap.
Section WithValue.
Context {V : Type}.

Fixpoint find (k : Z) (m : list (Z * V)) : option V :=
  match m with
  | [] => None
  | (k', v) :: m' => if k =? k' then Some v else find k m'
  end.

Fixpoint insert (k : Z) (v : V) (m : list (Z * V)) : list (Z * V) :=
  match m with
  | [] => [(k, v)]
  | (k', v') :: m' =>
      if k <? k' then (k, v) :: m
      else if k =? k' then m
      else (k', v') :: insert k v m'
  end.

Definition size (m : list (Z * V)) : Z := Z.of_nat (length m).

Definition empty (m : list (Z * V)) : bool :=
  match m with [] => true | _ => false end.

End WithValue.
End StdMap.

(** ** SLList modify iterators

    A modify iterator is kept as the number of nodes in front of it; the end
    iterator is the position behind the last node. *)

(** Modelled from the spec: [dune/common/sllist.hh] (SLList and its modify
    iterator, of dune-common) is not among the sources; the modifier is a
    cursor-style editor over a singly linked list.  By the contract of
    [SLListModifyIterator::insert], [iter.insert(v)] links [v] in front of
    the node the cursor is at, and the cursor stays at that node, one
    position further from the head. *)
Definition SLList_insert {A} (v : A) (l : list A) (i : nat) : list A * nat :=
  (take i l ++ v :: drop i l, S i).

(** Modelled from the spec: [dune/common/sllist.hh] is not among the sources.
    By the contract of [SLListModifyIterator::remove], [iter.remove()]
    unlinks the node the cursor is at and leaves the cursor at the node
    behind it; there is no node to unlink at the end. *)
Definition SLList_remove {A} (l : list A) (i : nat) : M (list A) :=
  match l !! i with
  | Some _ => ret (take i l ++ drop (S i) l)
  | None => fault EndDereference
  end.

(** [*iter] *)
Definition SLList_deref {A} (l : list A) (i : nat) : M A :=
  from_option EndDereference (l !! i).

(** ** RemoteIndexListModifier (lines 1264-1399) *)
Module RemoteIndexListModifier.

(** [end_] is the end iterator of the list and [remoteIndices_] is never
    set; neither needs a field.  [last_] is not initialised by the
    constructor and is read only once [first_] is false. *)
Record t := {
  rList_ : ListPtr;
  indexSet_ : positive;
  glist_ : list GlobalIndex;
  iter_ : nat;
  giter_ : nat;
  first_ : bool;
  last_ : GlobalIndex }.

(** [glist_->push_back(iter->localIndexPair().global())] for every node. *)
Fixpoint globals (σ : Store) (l : RemoteIndexList) : M (list GlobalIndex) :=
  match l with
  | [] => ret []
  | r :: l' => g <- global_of σ r ;; gs <- globals σ l' ;; ret (g :: gs)
  end.

(** The private constructor; [mode] is MODIFYINDEXSET. *)
Definition ctor (mode : bool) (σ : Store) (indexSet : positive) (rList : ListPtr) : M t :=
  l <- read_list rList ;;
  gl <- (if mode then globals σ l else ret []) ;;
  ret {| rList_ := rList; indexSet_ := indexSet; glist_ := gl;
         iter_ := 0; giter_ := 0; first_ := true; last_ := 0 |}.

(** The ascending-order check, present with DUNE_ISTL_WITH_CHECKING only:
    [if(!first_ && g < last_) DUNE_THROW(InvalidPosition, ...)]. *)
Definition check_position (cfg : Config) (m : t) (g : M GlobalIndex) : M unit :=
  if DUNE_ISTL_WITH_CHECKING cfg then
    if first_ m then ret tt
    else x <- g ;; if x <? last_ m then throw InvalidPosition else ret tt
  else ret tt.

(** [while(iter_ != end_ && iter_->localIndexPair().global() < g) ++iter_;]
    over the nodes [rest] from the cursor on; [g] is evaluated in every
    round.  Returns the new position. *)
Fixpoint seek (σ : Store) (g : M GlobalIndex) (rest : RemoteIndexList) (i : nat) : M nat :=
  match rest with
  | [] => ret i
  | r :: rest' =>
      a <- global_of σ r ;;
      b <- g ;;
      if a <? b then seek σ g rest' (S i) else ret i
  end.

(** [while(iter_ != end_ && *giter_ < global) { ++giter_; ++iter_; }]:
    the number of rounds.  [grest] are the shadow nodes from [giter_] on. *)
Fixpoint seek_shadow (global : GlobalIndex) (rest : RemoteIndexList)
    (grest : list GlobalIndex) : M nat :=
  match rest with
  | [] => ret 0%nat
  | _ :: rest' =>
      match grest with
      | [] => fault EndDereference
      | g :: grest' =>
          if g <? global
          then n <- seek_shadow global rest' grest' ;; ret (S n)
          else ret 0%nat
      end
  end.

(** [insert(const RemoteIndex& index)], MODIFYINDEXSET false. *)
Definition insert (cfg : Config) (σ : Store) (index : RemoteIndex) (m : t) : M t :=
  let g := global_of σ index in
  check_position cfg m g ;;;
  l <- read_list (rList_ m) ;;
  i <- seek σ g (drop (iter_ m) l) (iter_ m) ;;
  assert (NDEBUG cfg)
    (match l !! i with
     | None => ret true
     | Some r => a <- global_of σ r ;; b <- g ;; ret (negb (a =? b))
     end) ;;;
  let '(l', i') := SLList_insert index l i in
  write_list (rList_ m) l' ;;;
  last <- g ;;
  ret {| rList_ := rList_ m; indexSet_ := indexSet_ m; glist_ := glist_ m;
         iter_ := i'; giter_ := giter_ m; first_ := false; last_ := last |}.

(** [insert(const RemoteIndex& index, const GlobalIndex& global)],
    MODIFYINDEXSET true. *)
Definition insert_global (cfg : Config) (σ : Store) (index : RemoteIndex)
    (global : GlobalIndex) (m : t) : M t :=
  check_position cfg m (ret global) ;;;
  l <- read_list (rList_ m) ;;
  n <- seek_shadow global (drop (iter_ m) l) (drop (giter_ m) (glist_ m)) ;;
  let i := (iter_ m + n)%nat in
  let gi := (giter_ m + n)%nat in
  assert (NDEBUG cfg)
    (r <- SLList_deref l i ;; a <- global_of σ r ;; ret (negb (a =? global))) ;;;
  let '(l', i') := SLList_insert index l i in
  let '(gl', gi') := SLList_insert global (glist_ m) gi in
  write_list (rList_ m) l' ;;;
  ret {| rList_ := rList_ m; indexSet_ := indexSet_ m; glist_ := gl';
         iter_ := i'; giter_ := gi'; first_ := false; last_ := global |}.

(** [remove(const GlobalIndex& global)]; [mode] is MODIFYINDEXSET. *)
Definition remove (mode : bool) (cfg : Config) (σ : Store)
    (global : GlobalIndex) (m : t) : M (t * bool) :=
  check_position cfg m (ret global) ;;;
  l <- read_list (rList_ m) ;;
  if mode then
    n <- seek_shadow global (drop (iter_ m) l) (drop (giter_ m) (glist_ m)) ;;
    let i := (iter_ m + n)%nat in
    let gi := (giter_ m + n)%nat in
    g <- SLList_deref (glist_ m) gi ;;
    if g =? global then
      gl' <- SLList_remove (glist_ m) gi ;;
      l' <- SLList_remove l i ;;
      write_list (rList_ m) l' ;;;
      ret ({| rList_ := rList_ m; indexSet_ := indexSet_ m; glist_ := gl';
              iter_ := i; giter_ := gi; first_ := false; last_ := global |}, true)
    else
      ret ({| rList_ := rList_ m; indexSet_ := indexSet_ m; glist_ := glist_ m;
              iter_ := i; giter_ := gi; first_ := false; last_ := global |}, false)
  else
    i <- seek σ (ret global) (drop (iter_ m) l) (iter_ m) ;;
    r <- SLList_deref l i ;;
    a <- global_of σ r ;;
    if a =? global then
      l' <- SLList_remove l i ;;
      write_list (rList_ m) l' ;;;
      ret ({| rList_ := rList_ m; indexSet_ := indexSet_ m; glist_ := glist_ m;
              iter_ := i; giter_ := giter_ m; first_ := false; last_ := global |}, true)
    else
      ret ({| rList_ := rList_ m; indexSet_ := indexSet_ m; glist_ := glist_ m;
              iter_ := i; giter_ := giter_ m; first_ := false; last_ := global |}, false).

End RemoteIndexListModifier.

(** ** RemoteIndices: the registry (lines 799-829, 1157-1262) *)

(** What [MPI_Comm_rank] and [MPI_Comm_size] report for a communicator. *)
Record Comm := {
  rank : Z;
  procs : Z }.

(** [RemoteIndexMap]: in each entry the first list is the one for sending,
    the second the one for receiving (see [getModifier] and [buildRemote]). *)
Abbreviation RemoteIndexMap := (list (Z * (ListPtr * ListPtr))).

Record RemoteIndices := {
  source_ : SetPtr;
  target_ : SetPtr;
  comm_ : option Comm;
  sourceSeqNo_ : Z;
  destSeqNo_ : Z;
  publicIgnored : bool;
  firstBuild : bool;
  remoteIndices_ : RemoteIndexMap }.

Definition set_remoteIndices_ (m : RemoteIndexMap) (r : RemoteIndices) : RemoteIndices :=
  {| source_ := source_ r; target_ := target_ r; comm_ := comm_ r;
     sourceSeqNo_ := sourceSeqNo_ r; destSeqNo_ := destSeqNo_ r;
     publicIgnored := publicIgnored r; firstBuild := firstBuild r;
     remoteIndices_ := m |}.

Definition set_firstBuild (b : bool) (r : RemoteIndices) : RemoteIndices :=
  {| source_ := source_ r; target_ := target_ r; comm_ := comm_ r;
     sourceSeqNo_ := sourceSeqNo_ r; destSeqNo_ := destSeqNo_ r;
     publicIgnored := publicIgnored r; firstBuild := b;
     remoteIndices_ := remoteIndices_ r |}.

Definition set_seqNos (s d : Z) (r : RemoteIndices) : RemoteIndices :=
  {| source_ := source_ r; target_ := target_ r; comm_ := comm_ r;
     sourceSeqNo_ := s; destSeqNo_ := d;
     publicIgnored := publicIgnored r; firstBuild := firstBuild r;
     remoteIndices_ := remoteIndices_ r |}.

Definition set_publicIgnored (b : bool) (r : RemoteIndices) : RemoteIndices :=
  {| source_ := source_ r; target_ := target_ r; comm_ := comm_ r;
     sourceSeqNo_ := sourceSeqNo_ r; destSeqNo_ := destSeqNo_ r;
     publicIgnored := b; firstBuild := firstBuild r;
     remoteIndices_ := remoteIndices_ r |}.

(** [RemoteIndices(source, destination, comm)]. *)
Definition RemoteIndices_ctor (source destination : positive) (comm : Comm) : RemoteIndices :=
  {| source_ := Some source; target_ := Some destination; comm_ := Some comm;
     sourceSeqNo_ := -1; destSeqNo_ := -1;
     publicIgnored := false; firstBuild := true; remoteIndices_ := [] |}.

(** [RemoteIndices()]; [comm_] is left unset. *)
Definition RemoteIndices_ctor_default : RemoteIndices :=
  {| source_ := None; target_ := None; comm_ := None;
     sourceSeqNo_ := -1; destSeqNo_ := -1;
     publicIgnored := false; firstBuild := true; remoteIndices_ := [] |}.

(** The loop of [free()] over the entries of the map. *)
Fixpoint free_lists (m : RemoteIndexMap) : M unit :=
  match m with
  | [] => ret tt
  | (_, (first, second)) :: m' =>
      (if decide (first = second)
       then delete_list first
       else (delete_list first ;;; delete_list second)) ;;;
      free_lists m'
  end.

(** [free()]. *)
Definition free (r : RemoteIndices) : M RemoteIndices :=
  free_lists (remoteIndices_ r) ;;;
  ret (set_firstBuild true (set_remoteIndices_ [] r)).

(** [setIndexSets(source, destination, comm)]. *)
Definition setIndexSets (source destination : positive) (comm : Comm)
    (r : RemoteIndices) : M RemoteIndices :=
  r' <- free r ;;
  ret {| source_ := Some source; target_ := Some destination; comm_ := Some comm;
         sourceSeqNo_ := sourceSeqNo_ r'; destSeqNo_ := destSeqNo_ r';
         publicIgnored := publicIgnored r'; firstBuild := true;
         remoteIndices_ := remoteIndices_ r' |}.

(** [~RemoteIndices()]. *)
Definition RemoteIndices_dtor (r : RemoteIndices) : M RemoteIndices := free r.

(** [neighbours()]. *)
Definition neighbours (r : RemoteIndices) : Z := StdMap.size (remoteIndices_ r).

(** [isSynced()]:
    [sourceSeqNo_==source_->seqNo() && destSeqNo_ ==target_->seqNo()]. *)
Definition isSynced (σ : Store) (r : RemoteIndices) : M bool :=
  s <- deref_set σ (source_ r) ;;
  if sourceSeqNo_ r =? seqNo s
  then t <- deref_set σ (target_ r) ;; ret (destSeqNo_ r =? seqNo t)
  else ret false.

(** [getModifier<mode,send>(process)] up to its return statement (lines
    1216-1236): the registry as it then is, and the map iterator [found],
    [None] being [remoteIndices_.end()].  When the two index sets differ and
    the process is new, the entry is inserted but [found] is not set again;
    the two [new] of that entry are taken in the order written. *)
Definition getModifier_find (process : Z) (σ : Store) (r : RemoteIndices)
    : M (RemoteIndices * option (ListPtr * ListPtr)) :=
  s <- deref_set σ (source_ r) ;;
  t <- deref_set σ (target_ r) ;;
  let r := set_seqNos (seqNo s) (seqNo t) r in
  let found := StdMap.find process (remoteIndices_ r) in
  x <- match found with
       | Some _ => ret (r, found)
       | None =>
           if decide (source_ r ≠ target_ r) then
             first <- new_list ;;
             second <- new_list ;;
             ret (set_remoteIndices_
                    (StdMap.insert process (first, second) (remoteIndices_ r)) r,
                  found)
           else
             rlist <- new_list ;;
             let m := StdMap.insert process (rlist, rlist) (remoteIndices_ r) in
             ret (set_remoteIndices_ m r, StdMap.find process m)
       end ;;
  ret (set_firstBuild false (fst x), snd x).

(** [getModifier<mode,send>(process)]: the return statement dereferences
    [found]. *)
Definition getModifier (mode send : bool) (process : Z) (σ : Store) (r : RemoteIndices)
    : M (RemoteIndices * RemoteIndexListModifier.t) :=
  x <- getModifier_find process σ r ;;
  lists <- from_option EndDereference (snd x) ;;
  m <- (if send
        then a <- from_option NullDereference (source_ (fst x)) ;;
             RemoteIndexListModifier.ctor mode σ a (fst lists)
        else a <- from_option NullDereference (target_ (fst x)) ;;
             RemoteIndexListModifier.ctor mode σ a (snd lists)) ;;
  ret (fst x, m).

(** [begin()] .. [end()]: the entries in key order. *)
Definition RemoteIndices_entries (r : RemoteIndices) : RemoteIndexMap := remoteIndices_ r.

(** ** CollectiveIterator (lines 1415-1476, 667-735) *)
Module CollectiveIterator.

(** [Map]: per process the current list iterator, kept as the nodes from it
    on; the second iterator of each pair is the end of that list. *)
Record t := {
  map_ : list (Z * RemoteIndexList);
  index_ : GlobalIndex }.

(** The loop of the constructor over [pmap], [m] being [map_] so far. *)
Fixpoint ctor_map (pmap : RemoteIndexMap) (send : bool) (m : list (Z * RemoteIndexList))
    : M (list (Z * RemoteIndexList)) :=
  match pmap with
  | [] => ret m
  | (process, (first, second)) :: pmap' =>
      list <- read_list (if send then first else second) ;;
      ctor_map pmap' send (StdMap.insert process list m)
  end.

(** [CollectiveIterator(pmap, send)]; [index_] is not initialised. *)
Definition ctor (pmap : RemoteIndexMap) (send : bool) : M t :=
  m <- ctor_map pmap send [] ;;
  ret {| map_ := m; index_ := 0 |}.

(** [while(first != second && first->localIndexPair().global() < index)
    ++first;] *)
Fixpoint forward (σ : Store) (index : GlobalIndex) (cur : RemoteIndexList) : M RemoteIndexList :=
  match cur with
  | [] => ret []
  | r :: rest =>
      g <- global_of σ r ;;
      if g <? index then forward σ index rest else ret cur
  end.

(** The loop of [advance] over [map_]; the copy of the current record into
    the local [remoteIndex] has no effect and is left out. *)
Fixpoint advance_map (σ : Store) (index : GlobalIndex) (m : list (Z * RemoteIndexList))
    : M (list (Z * RemoteIndexList)) :=
  match m with
  | [] => ret []
  | (process, cur) :: m' =>
      cur' <- forward σ index cur ;;
      rest <- advance_map σ index m' ;;
      ret (match cur' with
           | [] => rest
           | _ => (process, cur') :: rest
           end)
  end.

(** [advance(index)]. *)
Definition advance (σ : Store) (index : GlobalIndex) (c : t) : M t :=
  m <- advance_map σ index (map_ c) ;;
  ret {| map_ := m; index_ := index |}.

(** [empty()]. *)
Definition empty (c : t) : bool := StdMap.empty (map_ c).

(** [CollectiveIterator::iterator]: [iter_] is kept as the map entries from
    it on, [end_] is the end of the map. *)
Record iterator := {
  iter_ : list (Z * RemoteIndexList);
  iter_index_ : GlobalIndex }.

(** [while(iter_!=end_ && iter_->second.first->localIndexPair().global()!=index_)
    ++iter_;] *)
Fixpoint move_to_valid (σ : Store) (index : GlobalIndex) (it : list (Z * RemoteIndexList))
    : M (list (Z * RemoteIndexList)) :=
  match it with
  | [] => ret []
  | (_, cur) :: it' =>
      r <- SLList_deref cur 0 ;;
      g <- global_of σ r ;;
      if negb (g =? index) then move_to_valid σ index it' else ret it
  end.

(** The constructor of [iterator]. *)
Definition iterator_ctor (σ : Store) (iter : list (Z * RemoteIndexList))
    (index : GlobalIndex) : M iterator :=
  it <- move_to_valid σ index iter ;;
  ret {| iter_ := it; iter_index_ := index |}.

(** [begin()]. *)
Definition begin (σ : Store) (c : t) : M iterator := iterator_ctor σ (map_ c) (index_ c).

(** [end()]. *)
Definition end_ (σ : Store) (c : t) : M iterator := iterator_ctor σ [] (index_ c).

(** [operator++]. *)
Definition incr (σ : Store) (i : iterator) : M iterator :=
  match iter_ i with
  | [] => fault EndDereference
  | _ :: it' =>
      it <- move_to_valid σ (iter_index_ i) it' ;;
      ret {| iter_ := it; iter_index_ := iter_index_ i |}
  end.

(** [operator*] and [process()]. *)
Definition deref (i : iterator) : M RemoteIndex :=
  match iter_ i with
  | [] => fault EndDereference
  | (_, cur) :: _ => SLList_deref cur 0
  end.

Definition process (i : iterator) : M Z :=
  match iter_ i with
  | [] => fault EndDereference
  | (p, _) :: _ => ret p
  end.

(** [operator!=]: the positions in the map differ. *)
Definition neq (a b : iterator) : bool :=
  negb (length (iter_ a) =? length (iter_ b))%nat.

(** The client loop
    [for(it = c.begin(); it != c.end(); ++it) visit(it.process(), *it)];
    [n] bounds the number of rounds. *)
Fixpoint visit (n : nat) (σ : Store) (it e : iterator) : M (list (Z * RemoteIndex)) :=
  if neq it e then
    match n with
    | O => fault StepBudget
    | S n' =>
        p <- process it ;;
        r <- deref it ;;
        it' <- incr σ it ;;
        rest <- visit n' σ it' e ;;
        ret ((p, r) :: rest)
    end
  else ret [].

Definition iterate (σ : Store) (c : t) : M (list (Z * RemoteIndex)) :=
  b <- begin σ c ;;
  e <- end_ σ c ;;
  visit (length (map_ c)) σ b e.

End CollectiveIterator.

(** [iterator<send>()]. *)
Definition RemoteIndices_iterator (send : bool) (r : RemoteIndices) : M CollectiveIterator.t :=
  CollectiveIterator.ctor (remoteIndices_ r) send.

(** ** The discovery protocol (lines 831-1155)

    The protocol is modelled as one process sees it.  A buffer is the
    sequence of the items packed into it and a position counts items; a
    receive replaces the content of the buffer by the arriving message, and
    unpacking behind its end (or an item of another type) is an MPI error.
    The buffer size, equal on all ranks, is not modelled.  The message that
    [MPI_Recv] delivers in hop [proc] is given by [recv proc]. *)

(** [MPI_Pack] of one item at [position]. *)
Definition MPI_Pack (x : Packed) (buf : Buffer) (position : nat) : Buffer * nat :=
  (take position buf ++ [x], S position).

Definition MPI_Unpack_char (p_in : Buffer) (position : nat) : M (Z * nat) :=
  match p_in !! position with
  | Some (PackedChar c) => ret (c, S position)
  | _ => fault MPIError
  end.

Definition MPI_Unpack_int (p_in : Buffer) (position : nat) : M (Z * nat) :=
  match p_in !! position with
  | Some (PackedInt n) => ret (n, S position)
  | _ => fault MPIError
  end.

Definition MPI_Unpack_pair (p_in : Buffer) (position : nat) : M (IndexPair * nat) :=
  match p_in !! position with
  | Some (PackedPair p) => ret (p, S position)
  | _ => fault MPIError
  end.

(** [noPublic(indexSet)]. *)
Fixpoint noPublic (indexSet : list IndexPair) : nat :=
  match indexSet with
  | [] => 0%nat
  | index :: rest =>
      if isPublic (local index) then S (noPublic rest) else noPublic rest
  end.

(** The number of indices to publish:
    [ignorePublic ? set->size() : noPublic(set)]. *)
Definition publish_count (ignorePublic : bool) (s : ParallelIndexSet) : nat :=
  if ignorePublic then length (records s) else noPublic (records s).

(** [packEntries<ignorePublic>]: the loop over the index set, [slot] being
    the slot of the first record of [indexSet] in the set at [a].  The
    pointer array [pairs] is filled front to back and is returned with the
    entries written so far. *)
Fixpoint packEntries (ignorePublic : bool) (a : positive) (slot : nat)
    (indexSet : list IndexPair) (pairs : list PairPtr) (p_out : Buffer) (position : nat)
    : list PairPtr * Buffer * nat :=
  match indexSet with
  | [] => (pairs, p_out, position)
  | index :: rest =>
      if ignorePublic || isPublic (local index) then
        let '(p_out', position') := MPI_Pack (PackedPair index) p_out position in
        packEntries ignorePublic a (S slot) rest (pairs ++ [slot_of a slot]) p_out' position'
      else
        packEntries ignorePublic a (S slot) rest pairs p_out position
  end.

(** [a[i]] for a pointer array [a]. *)
Definition array_read (locals : list PairPtr) (i : nat) : M PairPtr :=
  from_option OutOfBounds (locals !! i).

(** [while(++n_in < remoteEntries) MPI_Unpack(...)], as the [k] rounds it
    makes. *)
Fixpoint unpack_rest (k : nat) (p_in : Buffer) (position : nat) : M nat :=
  match k with
  | O => ret position
  | S k' =>
      x <- MPI_Unpack_pair p_in position ;;
      unpack_rest k' p_in (snd x)
  end.

(** The merge loop of the one-list [unpackIndices]
    ([while(localIndex<localEntries)], lines 1082-1106).  Returns the list,
    [n_in] and the position at the exit of the loop. *)
Fixpoint unpackIndices_loop (budget : nat) (σ : Store)
    (locals : list PairPtr) (localEntries : nat) (remoteEntries : Z) (p_in : Buffer)
    (index : IndexPair) (n_in : Z) (localIndex : nat) (position : nat)
    (remote : RemoteIndexList) : M (RemoteIndexList * Z * nat) :=
  match budget with
  | O => fault StepBudget
  | S budget' =>
      if (localIndex <? localEntries)%nat then
        lp <- array_read locals localIndex ;;
        le <- deref_pair σ lp ;;
        if global le =? global index then
          let remote' := remote ++ [RemoteIndex_ctor (attribute (local index)) lp] in
          if n_in + 1 <? remoteEntries then
            x <- MPI_Unpack_pair p_in position ;;
            unpackIndices_loop budget' σ locals localEntries remoteEntries p_in
              (fst x) (n_in + 1) (S localIndex) (snd x) remote'
          else ret (remote', n_in + 1, position)
        else if global le <? global index then
          unpackIndices_loop budget' σ locals localEntries remoteEntries p_in
            index n_in (S localIndex) position remote
        else
          if n_in + 1 <? remoteEntries then
            x <- MPI_Unpack_pair p_in position ;;
            unpackIndices_loop budget' σ locals localEntries remoteEntries p_in
              (fst x) (n_in + 1) localIndex (snd x) remote
          else ret (remote, n_in + 1, position)
      else ret (remote, n_in, position)
  end.

(** [unpackIndices(remote, remoteEntries, local, localEntries, p_in, ...,
    position, ...)], the array [local] being [locals]: returns the new
    position. *)
Definition unpackIndices (σ : Store) (remote : ListPtr) (remoteEntries : Z)
    (locals : list PairPtr) (localEntries : nat) (p_in : Buffer) (position : nat) : M nat :=
  if remoteEntries =? 0 then ret position
  else
    x <- MPI_Unpack_pair p_in position ;;
    l <- read_list remote ;;
    y <- unpackIndices_loop (localEntries + Z.to_nat remoteEntries + 1) σ
           locals localEntries remoteEntries p_in (fst x) 0 0%nat (snd x) l ;;
    write_list remote (fst (fst y)) ;;;
    unpack_rest (Z.to_nat (remoteEntries - snd (fst y) - 1)) p_in (snd y).

(** [while(i<entries && local[i]->global()<g) i++;], [steps] being
    [entries - i]. *)
Fixpoint advance_while_less (σ : Store) (locals : list PairPtr) (g : GlobalIndex)
    (steps : nat) (i : nat) : M nat :=
  match steps with
  | O => ret i
  | S steps' =>
      lp <- array_read locals i ;;
      le <- deref_pair σ lp ;;
      if global le <? g then advance_while_less σ locals g steps' (S i) else ret i
  end.

(** [i<entries && local[i]->global()==g]. *)
Definition found_at (σ : Store) (locals : list PairPtr) (entries : nat)
    (g : GlobalIndex) (i : nat) : M bool :=
  if (i <? entries)%nat then
    lp <- array_read locals i ;;
    le <- deref_pair σ lp ;;
    ret (global le =? g)
  else ret false.

(** The loop of the two-list [unpackIndices] (lines 1131-1153); [k] is
    [remoteEntries - n_in], the number of rounds left by the first
    condition. *)
Fixpoint unpackIndices_two_loop (k : nat) (σ : Store)
    (localSource : list PairPtr) (localSourceEntries : nat)
    (localDest : list PairPtr) (localDestEntries : nat) (p_in : Buffer)
    (sourceIndex destIndex : nat) (position : nat)
    (send receive : RemoteIndexList) : M (RemoteIndexList * RemoteIndexList * nat) :=
  match k with
  | O => ret (send, receive, position)
  | S k' =>
      if (sourceIndex <? localSourceEntries)%nat || (destIndex <? localDestEntries)%nat then
        x <- MPI_Unpack_pair p_in position ;;
        let index := fst x in
        sourceIndex <- advance_while_less σ localSource (global index)
                         (localSourceEntries - sourceIndex) sourceIndex ;;
        destIndex <- advance_while_less σ localDest (global index)
                       (localDestEntries - destIndex) destIndex ;;
        inSource <- found_at σ localSource localSourceEntries (global index) sourceIndex ;;
        send <- (if inSource
                 then lp <- array_read localSource sourceIndex ;;
                      ret (send ++ [RemoteIndex_ctor (attribute (local index)) lp])
                 else ret send) ;;
        inDest <- found_at σ localDest localDestEntries (global index) destIndex ;;
        receive <- (if inDest
                    then lp <- array_read localDest sourceIndex ;;
                         ret (receive ++ [RemoteIndex_ctor (attribute (local index)) lp])
                    else ret receive) ;;
        unpackIndices_two_loop k' σ localSource localSourceEntries
          localDest localDestEntries p_in sourceIndex destIndex (snd x) send receive
      else ret (send, receive, position)
  end.

(** [unpackIndices(send, receive, remoteEntries, localSource,
    localSourceEntries, localDest, localDestEntries, p_in, ..., position, ...)]. *)
Definition unpackIndices_two (σ : Store) (send receive : ListPtr) (remoteEntries : Z)
    (localSource : list PairPtr) (localSourceEntries : nat)
    (localDest : list PairPtr) (localDestEntries : nat)
    (p_in : Buffer) (position : nat) : M nat :=
  s <- read_list send ;;
  r <- read_list receive ;;
  y <- unpackIndices_two_loop (Z.to_nat remoteEntries) σ localSource localSourceEntries
         localDest localDestEntries p_in 0 0 position s r ;;
  write_list send (fst (fst y)) ;;;
  write_list receive (snd (fst y)) ;;;
  ret (snd y).

(** The variables of [buildRemote] that live across the hops of the ring. *)
Record Ring := {
  buffer0 : Buffer;
  buffer1 : Buffer;
  position : nat;
  sourcePairs : list PairPtr;
  destPairs : list PairPtr;
  lists : RemoteIndexMap }.

Definition buffer (st : Ring) (i : Z) : Buffer :=
  if i =? 0 then buffer0 st else buffer1 st.

Definition set_buffer (i : Z) (b : Buffer) (st : Ring) : Ring :=
  {| buffer0 := if i =? 0 then b else buffer0 st;
     buffer1 := if i =? 0 then buffer1 st else b;
     position := position st; sourcePairs := sourcePairs st;
     destPairs := destPairs st; lists := lists st |}.

Definition set_position (p : nat) (st : Ring) : Ring :=
  {| buffer0 := buffer0 st; buffer1 := buffer1 st; position := p;
     sourcePairs := sourcePairs st; destPairs := destPairs st; lists := lists st |}.

Definition set_pairs (s d : list PairPtr) (st : Ring) : Ring :=
  {| buffer0 := buffer0 st; buffer1 := buffer1 st; position := position st;
     sourcePairs := s; destPairs := d; lists := lists st |}.

Definition set_lists (m : RemoteIndexMap) (st : Ring) : Ring :=
  {| buffer0 := buffer0 st; buffer1 := buffer1 st; position := position st;
     sourcePairs := sourcePairs st; destPairs := destPairs st; lists := m |}.

(** What [buildRemote] fixes before the ring starts. *)
Record Setup := {
  the_rank : Z;
  the_procs : Z;
  sendTwo : bool;
  source_addr : positive;
  source_set : ParallelIndexSet;
  target_addr : positive;
  target_set : ParallelIndexSet;
  sourcePublish : nat;
  destPublish : nat }.

(** Lines 946-970: pack the own message into buffer [out]. *)
Definition pack_own (ignorePublic : bool) (su : Setup) (out : Z) (st : Ring) : Ring :=
  let p_out := buffer st out in
  let '(p_out, position) :=
    MPI_Pack (PackedChar (if sendTwo su then 1 else 0)) p_out (position st) in
  let '(p_out, position) := MPI_Pack (PackedInt (Z.of_nat (sourcePublish su))) p_out position in
  let '(p_out, position) := MPI_Pack (PackedInt (Z.of_nat (destPublish su))) p_out position in
  let '(sourcePairs, p_out, position) :=
    packEntries ignorePublic (source_addr su) 0 (records (source_set su)) [] p_out position in
  if sendTwo su then
    let '(destPairs, p_out, position) :=
      packEntries ignorePublic (target_addr su) 0 (records (target_set su)) [] p_out position in
    set_pairs sourcePairs destPairs (set_position position (set_buffer out p_out st))
  else
    set_pairs sourcePairs sourcePairs (set_position position (set_buffer out p_out st)).

(** Lines 992-1048: unpack the message in buffer [inb] and file the lists. *)
Definition process_message (σ : Store) (su : Setup) (proc : Z) (inb : Z) (st : Ring) : M Ring :=
  let p_in := buffer st inb in
  x <- MPI_Unpack_char p_in 0 ;;
  let twoIndexSets := fst x in
  x <- MPI_Unpack_int p_in (snd x) ;;
  let noRemoteSource := fst x in
  x <- MPI_Unpack_int p_in (snd x) ;;
  let noRemoteDest := fst x in
  let position := snd x in
  let remoteProc := Z.rem (the_rank su + the_procs su - proc) (the_procs su) in
  receive <- new_list ;;
  x <- (if twoIndexSets =? 0 then
          if sendTwo su then
            send <- new_list ;;
            position <- unpackIndices_two σ send receive noRemoteSource
                          (sourcePairs st) (sourcePublish su)
                          (destPairs st) (destPublish su) p_in position ;;
            ret (send, position)
          else
            position <- unpackIndices σ receive noRemoteSource
                          (sourcePairs st) (sourcePublish su) p_in position ;;
            ret (receive, position)
        else
          position <- (if sendTwo su
                       then unpackIndices σ receive noRemoteSource
                              (destPairs st) (destPublish su) p_in position
                       else unpackIndices σ receive noRemoteSource
                              (sourcePairs st) (sourcePublish su) p_in position) ;;
          send <- new_list ;;
          position <- unpackIndices σ send noRemoteDest
                        (sourcePairs st) (sourcePublish su) p_in position ;;
          ret (send, position)) ;;
  let send := fst x in
  let st := set_position (snd x) st in
  r <- read_list receive ;;
  s <- read_list send ;;
  match r, s with
  | [], [] =>
      (if decide (send = receive)
       then delete_list send
       else (delete_list send ;;; delete_list receive)) ;;;
      ret st
  | _, _ =>
      ret (set_lists (StdMap.insert remoteProc (send, receive) (lists st)) st)
  end.

(** One round of the loop [for(int proc=0; proc<procs; proc++)]. *)
Definition hop (ignorePublic : bool) (σ : Store) (recv : Z -> Buffer) (su : Setup)
    (proc : Z) (st : Ring) : M Ring :=
  let out := 1 - Z.rem proc 2 in
  let inb := Z.rem proc 2 in
  let packs := (proc =? 0) && ((0 <? the_procs su) || sendTwo su) in
  let out := if packs && negb (sendTwo su) then 0 else out in
  let st := if packs then pack_own ignorePublic su out st else st in
  if proc =? 0 then
    if sendTwo su then
      let payload := take (position st) (buffer st out) in
      emit (MPI_Sendrecv (the_rank su) payload) ;;;
      process_message σ su proc inb (set_buffer inb payload st)
    else ret st
  else
    let dest := Z.rem (the_rank su + 1) (the_procs su) in
    let src := Z.rem (the_rank su + the_procs su - 1) (the_procs su) in
    let payload := take (position st) (buffer st out) in
    (if Z.rem (the_rank su) 2 =? 0
     then (emit (MPI_Ssend dest payload) ;;; emit (MPI_Recv src))
     else (emit (MPI_Recv src) ;;; emit (MPI_Ssend dest payload))) ;;;
    process_message σ su proc inb (set_buffer inb (recv proc) st).

(** The rounds [proc, proc+1, ...] of the ring, [n] of them. *)
Fixpoint ring (n : nat) (ignorePublic : bool) (σ : Store) (recv : Z -> Buffer) (su : Setup)
    (proc : Z) (st : Ring) : M Ring :=
  match n with
  | O => ret st
  | S n' =>
      st' <- hop ignorePublic σ recv su proc st ;;
      ring n' ignorePublic σ recv su (proc + 1) st'
  end.

(** [buildRemote<ignorePublic>()]. *)
Definition buildRemote (ignorePublic : bool) (σ : Store) (recv : Z -> Buffer)
    (r : RemoteIndices) : M RemoteIndices :=
  comm <- from_option MPIError (comm_ r) ;;
  let sendTwo := bool_decide (source_ r ≠ target_ r) in
  sa <- from_option NullDereference (source_ r) ;;
  s <- deref_set σ (source_ r) ;;
  let sourcePublish := publish_count ignorePublic s in
  ta <- (if sendTwo then from_option NullDereference (target_ r) else ret sa) ;;
  t <- (if sendTwo then deref_set σ (target_ r) else ret s) ;;
  let destPublish := if sendTwo then publish_count ignorePublic t else 0%nat in
  emit (MPI_Allreduce (Z.of_nat (sourcePublish + destPublish))) ;;;
  let su := {| the_rank := rank comm; the_procs := procs comm; sendTwo := sendTwo;
               source_addr := sa; source_set := s; target_addr := ta; target_set := t;
               sourcePublish := sourcePublish; destPublish := destPublish |} in
  st <- ring (Z.to_nat (procs comm)) ignorePublic σ recv su 0
          {| buffer0 := []; buffer1 := []; position := 0;
             sourcePairs := []; destPairs := []; lists := remoteIndices_ r |} ;;
  emit MPI_Barrier ;;;
  ret (set_remoteIndices_ (lists st) r).

(** [rebuild<ignorePublic>()]. *)
Definition rebuild (ignorePublic : bool) (σ : Store) (recv : Z -> Buffer)
    (r : RemoteIndices) : M RemoteIndices :=
  needed <- (if firstBuild r then ret true
             else if negb (eqb ignorePublic (publicIgnored r)) then ret true
             else s <- isSynced σ r ;; ret (negb s)) ;;
  if needed : bool then
    r <- free r ;;
    r <- buildRemote ignorePublic σ recv r ;;
    s <- deref_set σ (source_ r) ;;
    t <- deref_set σ (target_ r) ;;
    ret (set_publicIgnored ignorePublic
           (set_firstBuild false (set_seqNos (seqNo s) (seqNo t) r)))
  else ret r.

(** ** Notions used to state the properties *)

(** The list storage blocks that [free] hands to [delete], entry by entry:
    one block for an entry whose two lists are the same object, both blocks
    otherwise. *)
Definition blocks_of (m : RemoteIndexMap) : list ListPtr :=
  flat_map (fun e => if decide (fst (snd e) = snd (snd e))
                     then [fst (snd e)]
                     else [fst (snd e); snd (snd e)]) m.

(** The registry owns its lists: the blocks of its entries are allocated and
    no block belongs to two entries. *)
Definition owns (w : World) (m : RemoteIndexMap) : Prop :=
  NoDup (blocks_of m) /\ forall p, p ∈ blocks_of m -> is_Some (heap w !! p).

(** Every record of the list refers to a record of an index set. *)
Definition valid_list (σ : Store) (l : RemoteIndexList) : Prop :=
  Forall (fun r => is_Some (pair_at σ (localIndex_ r))) l.

(** The global id of the record that [r] refers to ([0] if it refers to
    none). *)
Definition gid (σ : Store) (r : RemoteIndex) : GlobalIndex :=
  match pair_at σ (localIndex_ r) with
  | Some p => global p
  | None => 0
  end.

(** The two lists that [getModifier] allocates for a new process when the
    index sets differ. *)
Definition first_new (w : World) : ListPtr := fresh (dom (heap w)).
Definition second_new (w : World) : ListPtr :=
  fresh (dom (<[first_new w := []]> (heap w) : gmap positive RemoteIndexList)).

(** The number of leading records of [rest] whose global id is below [g]. *)
Fixpoint below (σ : Store) (g : GlobalIndex) (rest : RemoteIndexList) : nat :=
  match rest with
  | [] => 0%nat
  | r :: rest' => if gid σ r <? g then S (below σ g rest') else 0%nat
  end.

(** Example data: an index set with the global ids 1, 2, 3, 5, 7 at address
    1, every record public and owned, and remote records referring to it. *)
Definition example_pair (g : Z) : IndexPair :=
  {| global := g; local := {| local_ := g; attribute := owner; isPublic := true |} |}.

Definition example_set : ParallelIndexSet :=
  {| records := map example_pair [1; 2; 3; 5; 7]; seqNo := 0; state := GROUND |}.

Definition example_store : Store := <[1%positive := example_set]> ∅.

(** The remote record for the record in slot [i] of the example set. *)
Definition example_remote (i : nat) : RemoteIndex :=
  RemoteIndex_ctor copy (slot_of 1 i).

Definition checked : Config := {| DUNE_ISTL_WITH_CHECKING := true; NDEBUG := false |}.
Definition unchecked : Config := {| DUNE_ISTL_WITH_CHECKING := false; NDEBUG := false |}.

(** A world with one list, at address 1. *)
Definition world_with (l : RemoteIndexList) : World :=
  {| heap := <[1%positive := l]> ∅; trace := [] |}.

(** A stable-mode modifier over the list at address 1. *)
Definition modifier_at (i : nat) (first : bool) (last : GlobalIndex) : RemoteIndexListModifier.t :=
  {| RemoteIndexListModifier.rList_ := 1%positive;
     RemoteIndexListModifier.indexSet_ := 1%positive;
     RemoteIndexListModifier.glist_ := [];
     RemoteIndexListModifier.iter_ := i;
     RemoteIndexListModifier.giter_ := 0;
     RemoteIndexListModifier.first_ := first;
     RemoteIndexListModifier.last_ := last |}.

(** A second index set, with the global ids 5, 6, at address 2. *)
Definition example_target : ParallelIndexSet :=
  {| records := map example_pair [5; 6]; seqNo := 3; state := GROUND |}.

Definition two_set_store : Store := <[2%positive := example_target]> example_store.

Definition example_comm : Comm := {| rank := 0; procs := 2 |}.

(** A registry with a shared-list entry for process 1 and a split entry for
    process 2, and a world holding its three lists. *)
Definition example_registry : RemoteIndices :=
  set_remoteIndices_ [(1, (1%positive, 1%positive)); (2, (2%positive, 3%positive))]
    (RemoteIndices_ctor 1 1 example_comm).

Definition example_world : World :=
  {| heap := <[3%positive := [example_remote 2]]>
               (<[2%positive := [example_remote 0]]>
                  (<[1%positive := [example_remote 4]]> ∅));
     trace := [] |}.

Definition empty_world : World := {| heap := ∅; trace := [] |}.

(** The working set after [advance(G)]: every cursor forwarded over its
    leading records below [G], the peers whose cursor reached the end
    dropped. *)
Definition advanced (σ : Store) (G : GlobalIndex) (m : list (Z * RemoteIndexList))
    : list (Z * RemoteIndexList) :=
  flat_map (fun e => match drop (below σ G (snd e)) (snd e) with
                     | [] => []
                     | cur => [(fst e, cur)]
                     end) m.

(** The peers whose cursor is at a record with global id [G], each with that
    record. *)
Definition yielded (σ : Store) (G : GlobalIndex) (m : list (Z * RemoteIndexList))
    : list (Z * RemoteIndex) :=
  flat_map (fun e => match snd e with
                     | r :: _ => if gid σ r =? G then [(fst e, r)] else []
                     | [] => []
                     end) m.

(** Two peers holding the lists with global ids 1, 3, 7 and 3, 5, 7. *)
Definition example_iterator : CollectiveIterator.t :=
  {| CollectiveIterator.map_ :=
       [(1, [example_remote 0; example_remote 2; example_remote 4]);
        (2, [example_remote 2; example_remote 3; example_remote 4])];
     CollectiveIterator.index_ := 0 |}.

(** The events that are message traffic. *)
Definition is_mpi (e : Event) : bool :=
  match e with
  | Delete _ => false
  | _ => true
  end.

(** The world [w'] is [w] with events appended to its trace. *)
Definition extends (w w' : World) : Prop := exists t, trace w' = trace w ++ t.

(** The blocks allocated in [w] are allocated in [w']. *)
Definition grows (w w' : World) : Prop := dom (heap w) ⊆ dom (heap w').

(** A completed run of the computation relates the worlds by [R]. *)
Definition preserved (R : World -> World -> Prop) {A} (m : M A) : Prop :=
  forall w a w', m w = Ok a w' -> R w w'.

(** A computation that only appends to the trace. *)
Definition appends {A} (m : M A) : Prop := preserved extends m.

(** A computation that frees no list. *)
Definition retains {A} (m : M A) : Prop := preserved grows m.

(** The records of an index set that are published, each with its slot,
    the first record of [indexSet] being in slot [slot]. *)
Fixpoint published_from (ignorePublic : bool) (slot : nat) (indexSet : list IndexPair)
    : list (nat * IndexPair) :=
  match indexSet with
  | [] => []
  | index :: rest =>
      if ignorePublic || isPublic (local index)
      then (slot, index) :: published_from ignorePublic (S slot) rest
      else published_from ignorePublic (S slot) rest
  end.

(** The records are in ascending order of their global ids. *)
Definition ascending (l : list IndexPair) : Prop :=
  StronglySorted (fun x y => global x <= global y) l.

(** The index set publishes a record with global id [g]. *)
Definition publishes (ignorePublic : bool) (s : ParallelIndexSet) (g : GlobalIndex) : Prop :=
  exists x, x ∈ records s /\ global x = g /\
            (ignorePublic = true \/ isPublic (local x) = true).

(** A message of a peer with one merged index set, publishing global id 5. *)
Definition example_message : Buffer :=
  [PackedChar 0; PackedInt 1; PackedInt 0; PackedPair (example_pair 5)].

(** The failing input of the two-list [unpackIndices]: source set 1, 5 at
    address 1, target set 5, 6 at address 2. *)
Definition bug_source : ParallelIndexSet :=
  {| records := map example_pair [1; 5]; seqNo := 0; state := GROUND |}.

Definition bug_store : Store := <[2%positive := example_target]> (<[1%positive := bug_source]> ∅).

Definition two_lists_world : World :=
  {| heap := <[2%positive := []]> (<[1%positive := []]> ∅); trace := [] |}.

(** A message as a process with two distinct index sets packs it (lines
    946-970): the flag, the two counts, the published records of the source
    set, then those of the target set. *)
Definition two_set_message (msg : Buffer) : Prop :=
  exists c Rs Rt, c <> 0 /\
    msg = [PackedChar c; PackedInt (Z.of_nat (length Rs)); PackedInt (Z.of_nat (length Rt))]
          ++ map PackedPair Rs ++ map PackedPair Rt.

(** A peer with two index sets publishing global id 5 in both. *)
Definition example_two_set_message : Buffer :=
  [PackedChar 1; PackedInt 1; PackedInt 1;
   PackedPair (example_pair 5); PackedPair (example_pair 5)].

(** The pointer arrays of the ring point at records of the store and have
    the announced lengths. *)
Definition paired (σ : Store) (su : Setup) (st : Ring) : Prop :=
  (exists Ls, Forall2 (fun p x => pair_at σ p = Some x) (sourcePairs st) Ls) /\
  (exists Lt, Forall2 (fun p x => pair_at σ p = Some x) (destPairs st) Lt) /\
  sourcePublish su = length (sourcePairs st) /\
  destPublish su = length (destPairs st).

(** A computation on the ring state whose result has an entry for [k]. *)
Definition keeps (k : Z) (m : M Ring) : Prop :=
  forall w st' w', m w = Ok st' w' -> is_Some (StdMap.find k (lists st')).

(** A computation that never runs out of its step budget. *)
Definition within_budget {A} (m : M A) : Prop := forall w, m w <> Undefined StepBudget.

(** The assignment [iter->localIndex_ = &( *index)] of
    [repairLocalIndexPointers] (line 1312). *)
Definition set_localIndex_ (p : PairPtr) (r : RemoteIndex) : RemoteIndex :=
  {| localIndex_ := p; attribute_ := attribute_ r |}.

(** The records of the list are in ascending order of the global ids they
    refer to. *)
Definition ascending_list (σ : Store) (l : RemoteIndexList) : Prop :=
  StronglySorted (fun a b => gid σ a <= gid σ b) l.

(** The shadow list of global ids that a modifier keeps in the mode that
    may modify the index set runs in step with the list: same length, same
    cursor position. *)
Definition aligned (m : RemoteIndexListModifier.t) (l : RemoteIndexList) : Prop :=
  RemoteIndexListModifier.giter_ m = RemoteIndexListModifier.iter_ m /\
  length (RemoteIndexListModifier.glist_ m) = length l /\
  (RemoteIndexListModifier.iter_ m <= length l)%nat.

(** ** repairLocalIndexPointers (lines 1284-1315)

    With DUNE_ISTL_WITH_CHECKING the member does not compile once it is
    instantiated (line 1303 applies [.end()] to the pointer [indexSet_]);
    what follows is the member of a build without it. *)

(** [while(index->global() < *giter) ++index;], [rest] being the records of
    the index set from [index] on and [g] the value of [*giter]; the end of
    the index set is not tested for. *)
Fixpoint repair_seek (g : GlobalIndex) (rest : list IndexPair) (index : nat) : M nat :=
  match rest with
  | [] => fault OutOfBounds
  | x :: rest' => if global x <? g then repair_seek g rest' (S index) else ret index
  end.

(** The loop [for(Iterator iter=rList_->begin(); iter != end_; ++iter)] over
    the records [nodes] of the list; [giter] is read in every test of the
    inner loop and is not moved. *)
Fixpoint repair_loop (a : positive) (recs : list IndexPair) (giter : M GlobalIndex)
    (nodes : RemoteIndexList) (index : nat) : M RemoteIndexList :=
  match nodes with
  | [] => ret []
  | r :: nodes' =>
      g <- giter ;;
      index' <- repair_seek g (drop index recs) index ;;
      rest <- repair_loop a recs giter nodes' index' ;;
      ret (set_localIndex_ (slot_of a index') r :: rest)
  end.

(** [repairLocalIndexPointers()]; [mode] is MODIFYINDEXSET. *)
Definition repairLocalIndexPointers (mode : bool) (σ : Store)
    (m : RemoteIndexListModifier.t) : M unit :=
  if mode then
    s <- deref_set σ (Some (RemoteIndexListModifier.indexSet_ m)) ;;
    l <- read_list (RemoteIndexListModifier.rList_ m) ;;
    l' <- repair_loop (RemoteIndexListModifier.indexSet_ m) (records s)
            (SLList_deref (RemoteIndexListModifier.glist_ m) 0) l 0 ;;
    write_list (RemoteIndexListModifier.rList_ m) l'
  else ret tt.

(** A list of entries that represents a [std::map]: the keys strictly
    ascending. *)
Definition StdMap_wf {V} (m : list (Z * V)) : Prop :=
  StronglySorted Z.lt (map fst m).

(** The list of an entry of the registry that a collective iterator for
    sending ([send]) or receiving walks. *)
Definition walked (send : bool) (e : Z * (ListPtr * ListPtr)) : ListPtr :=
  if send then fst (snd e) else snd (snd e).

(** The records hold each global id once and are in ascending order, as the
    records of an index set and the records published from one are. *)
Definition strictly_ascending (l : list IndexPair) : Prop :=
  StronglySorted (fun x y => global x < global y) l.

(** What the discovery is to find for a record [y] of a message: a remote
    record with the attribute reported in [y] for every local record with
    the global id of [y], pointing at that local record.  The local records
    [Ls] are given with their addresses [locals]. *)
Definition matches_of (y : IndexPair) (locals : list PairPtr) (Ls : list IndexPair)
    : RemoteIndexList :=
  map (fun e => RemoteIndex_ctor (attribute (local y)) (fst e))
    (List.filter (fun e => global (snd e) =? global y) (combine locals Ls)).

(** The same for the records [R] of a message, in the order of the
    message. *)
Definition matches (locals : list PairPtr) (Ls R : list IndexPair) : RemoteIndexList :=
  flat_map (fun y => matches_of y locals Ls) R.

(** The records of an index set that go into a message: all of them when
    the public flag is ignored, the public ones otherwise, in the order of
    the set. *)
Definition published (ignorePublic : bool) (s : ParallelIndexSet) : list IndexPair :=
  List.filter (fun x => ignorePublic || isPublic (local x)) (records s).

(** The layout of a message of the discovery protocol (lines 954-969): the
    flag telling whether two index sets follow, the two counts, the records
    of the first and those of the second set. *)
Definition message (c : Z) (Rs Rt : list IndexPair) : Buffer :=
  [PackedChar c; PackedInt (Z.of_nat (length Rs)); PackedInt (Z.of_nat (length Rt))]
  ++ map PackedPair Rs ++ map PackedPair Rt.

(** The message of a process with the source set [S] and, if it has two
    index sets ([two]), the target set [T]. *)
Definition own_message (ignorePublic two : bool) (S T : ParallelIndexSet) : Buffer :=
  message (if two then 1 else 0) (published ignorePublic S)
    (if two then published ignorePublic T else []).

(** A message that a process reads to its end with the one-list
    [unpackIndices]: for a process with two index sets ([two]) a message
    of a process with two index sets; for a process with one index set any
    message, one without the flag holding no second list. *)
Definition readable (two : bool) (msg : Buffer) : Prop :=
  exists c Rs Rt, msg = message c Rs Rt /\
    if two then c <> 0 else (c = 0 -> Rt = []).

(** The two MPI calls of a hop behind hop 0 (lines 980-990): processes of
    even rank send first, processes of odd rank receive first. *)
Definition exchange (rank procs : Z) (payload : Buffer) : list Event :=
  let dest := Z.rem (rank + 1) procs in
  let src := Z.rem (rank + procs - 1) procs in
  if Z.rem rank 2 =? 0
  then [MPI_Ssend dest payload; MPI_Recv src]
  else [MPI_Recv src; MPI_Ssend dest payload].

(** The payloads of [n] hops from hop [proc] on, when the message at hand
    before hop [proc] is [prev] and every hop passes on what the hop before
    it received. *)
Fixpoint forwarded (recv : Z -> Buffer) (prev : Buffer) (proc : Z) (n : nat) : list Buffer :=
  match n with
  | O => []
  | S n' => prev :: forwarded recv (recv proc) (proc + 1) n'
  end.

(** The state of the ring behind hop 0: the pointer arrays point at records
    of the store and have the announced lengths. *)
Definition ring_ready (σ : Store) (su : Setup) (st : Ring) : Prop :=
  (exists Ls, Forall2 (fun p x => pair_at σ p = Some x) (sourcePairs st) Ls) /\
  (exists Lt, Forall2 (fun p x => pair_at σ p = Some x) (destPairs st) Lt) /\
  sourcePublish su = length (sourcePairs st) /\
  (sendTwo su = true -> destPublish su = length (destPairs st)).

(** The setup of [buildRemote] for the example sets at the addresses 1 and 2
    on rank 0 of 2, all records being public, and the ring before hop 0. *)
Definition example_setup : Setup :=
  {| the_rank := 0; the_procs := 2; sendTwo := true;
     source_addr := 1; source_set := example_set;
     target_addr := 2; target_set := example_target;
     sourcePublish := 5; destPublish := 2 |}.

Definition example_ring : Ring :=
  {| buffer0 := []; buffer1 := []; position := 0;
     sourcePairs := []; destPairs := []; lists := [] |}.

(** Every completed run of the computation ends in a ring state with
    [P]. *)
Definition yields (P : Ring -> Prop) (m : M Ring) : Prop :=
  forall w st' w', m w = Ok st' w' -> P st'.

(** The rank whose message arrives in hop [q] of the ring (line 1004). *)
Definition remoteProc (rank procs q : Z) : Z := Z.rem (rank + procs - q) procs.

(** The entries filed before hop [proc]: the keys ascend, and each is the
    rank whose message arrived in an earlier hop, hop 0 counting only for a
    process with two index sets. *)
Definition filed_before (su : Setup) (proc : Z) (m : RemoteIndexMap) : Prop :=
  StdMap_wf m /\
  Forall (fun e => exists q, (if sendTwo su then 0 else 1) <= q < proc /\
                             fst e = remoteProc (the_rank su) (the_procs su) q) m.

(** The worlds have the same lists allocated. *)
Definition same_lists (w w' : World) : Prop := dom (heap w') = dom (heap w).

(** The lists allocated in [w] are those of [D] and the blocks of the
    entries of [m], and no block of [m] is in [D]. *)
Definition accounted (D : ListPtr -> Prop) (w : World) (m : RemoteIndexMap) : Prop :=
  (forall p, is_Some (heap w !! p) <-> D p \/ p ∈ blocks_of m) /\
  (forall p, D p -> p ∉ blocks_of m).






(** ** Basic facts about the monad and the stores *)

Ltac run :=
  unfold bind, ret, fault, throw, from_option, emit, read_list, write_list,
         delete_list, new_list in *; simpl in *.

Lemma bind_ok {A B} (m : M A) (k : A -> M B) w a w' :
  m w = Ok a w' -> bind m k w = k a w'.
Proof. intros H. unfold bind. now rewrite H. Qed.

Lemma bind_undefined {A B} (m : M A) (k : A -> M B) w f :
  m w = Undefined f -> bind m k w = Undefined f.
Proof. intros H. unfold bind. now rewrite H. Qed.

Lemma bind_raise {A B} (m : M A) (k : A -> M B) w e w' :
  m w = Raise e w' -> bind m k w = Raise e w'.
Proof. intros H. unfold bind. now rewrite H. Qed.

Lemma bind_assoc {A B C} (m : M A) (k1 : A -> M B) (k2 : B -> M C) w :
  bind (bind m k1) k2 w = bind m (fun x => bind (k1 x) k2) w.
Proof. unfold bind. now destruct (m w). Qed.

Lemma bind_ext {A B} (m : M A) (k1 k2 : A -> M B) w :
  (forall a w', k1 a w' = k2 a w') -> bind m k1 w = bind m k2 w.
Proof. intros H. unfold bind. destruct (m w); auto. Qed.

Lemma bind_ret {A B} (a : A) (k : A -> M B) w : bind (ret a) k w = k a w.
Proof. reflexivity. Qed.

Lemma bind_inv_ok {A B} (m : M A) (k : A -> M B) w b w2 :
  bind m k w = Ok b w2 -> exists a w1, m w = Ok a w1 /\ k a w1 = Ok b w2.
Proof.
  unfold bind. destruct (m w) as [a w1| |]; try discriminate.
  intros H. now exists a, w1.
Qed.

Lemma deref_pair_ok σ p x w :
  pair_at σ p = Some x -> deref_pair σ p w = Ok x w.
Proof.
  destruct p as [|a i]; simpl; [discriminate|].
  intros H. unfold deref_pair. now rewrite H.
Qed.

Lemma deref_pair_inv σ p x w w' :
  deref_pair σ p w = Ok x w' -> pair_at σ p = Some x /\ w' = w.
Proof.
  destruct p as [|a i]; [discriminate|].
  unfold deref_pair. destruct (pair_at σ (slot_of a i)); run; [|discriminate].
  intros [= -> ->]. auto.
Qed.

Lemma global_of_ok σ r x w :
  pair_at σ (localIndex_ r) = Some x -> global_of σ r w = Ok (global x) w.
Proof.
  intros H. unfold global_of, localIndexPair.
  now rewrite (bind_ok _ _ _ _ _ (deref_pair_ok _ _ _ w H)).
Qed.

Lemma global_of_gid σ r w :
  is_Some (pair_at σ (localIndex_ r)) -> global_of σ r w = Ok (gid σ r) w.
Proof.
  intros [x Hx]. unfold gid. rewrite Hx. now apply global_of_ok.
Qed.

Lemma deref_set_ok σ a s w :
  σ !! a = Some s -> deref_set σ (Some a) w = Ok s w.
Proof. intros H. simpl. now rewrite H. Qed.

Lemma deref_set_inv σ p s w w' :
  deref_set σ p w = Ok s w' -> w' = w /\ exists a, p = Some a /\ σ !! a = Some s.
Proof.
  destruct p as [a|]; [|discriminate]. simpl.
  destruct (σ !! a) as [s'|] eqn:E; run; [|discriminate].
  intros [= -> ->]. eauto.
Qed.

(** ** RemoteIndex *)

(** C9.  A record built by the parameterless or by the attribute-only
    constructor holds the null back-reference, and [localIndexPair()] on it
    dereferences the null pointer.  [localIndexPair()] yields a record exactly
    when the back-reference is the address of a record of an index set, as it
    is after the two-argument constructor was given such an address or after
    the modifier's repair assigned one. *)
Theorem RemoteIndex_null_back_reference (σ : Store) (a : Attribute) (w : World) :
  localIndex_ RemoteIndex_ctor_default = nullptr /\
  localIndex_ (RemoteIndex_ctor_attribute a) = nullptr /\
  localIndexPair σ RemoteIndex_ctor_default w = Undefined NullDereference /\
  localIndexPair σ (RemoteIndex_ctor_attribute a) w = Undefined NullDereference /\
  (forall r x, localIndexPair σ r w = Ok x w <-> pair_at σ (localIndex_ r) = Some x) /\
  (forall p x, pair_at σ p = Some x ->
     localIndexPair σ (RemoteIndex_ctor a p) w = Ok x w /\
     localIndexPair σ (set_localIndex_ p RemoteIndex_ctor_default) w = Ok x w /\
     localIndexPair σ (set_localIndex_ p (RemoteIndex_ctor_attribute a)) w = Ok x w).
Proof.
  do 4 (split; [reflexivity|]). split.
  - intros r x. unfold localIndexPair. split; intros H.
    + now apply deref_pair_inv in H.
    + now apply deref_pair_ok.
  - intros p x H. repeat split; now apply deref_pair_ok.
Qed.

(** ** Teardown *)

Lemma delete_list_ok p w :
  is_Some (heap w !! p) ->
  delete_list p w = Ok tt {| heap := delete p (heap w); trace := trace w ++ [Delete p] |}.
Proof. intros [l Hl]. unfold delete_list. now rewrite Hl. Qed.

Lemma delete_two_ok first second w :
  first <> second -> is_Some (heap w !! first) -> is_Some (heap w !! second) ->
  (delete_list first ;;; delete_list second) w =
  Ok tt {| heap := delete second (delete first (heap w));
           trace := (trace w ++ [Delete first]) ++ [Delete second] |}.
Proof.
  intros Hne Hf Hs. rewrite (bind_ok _ _ _ _ _ (delete_list_ok _ _ Hf)).
  apply delete_list_ok. simpl. now rewrite lookup_delete_ne.
Qed.

Lemma free_lists_ok (m : RemoteIndexMap) : forall w,
  owns w m ->
  exists w', free_lists m w = Ok tt w' /\
    trace w' = trace w ++ map Delete (blocks_of m) /\
    forall p, heap w' !! p = if decide (p ∈ blocks_of m) then None else heap w !! p.
Proof.
  induction m as [|[k [first second]] m IH]; intros w [Hnd Hlive].
  - exists w. simpl. rewrite app_nil_r. repeat split.
  - simpl in *. unfold blocks_of in Hnd, Hlive. simpl in Hnd, Hlive.
    fold (blocks_of m) in Hnd, Hlive.
    destruct (decide (first = second)) as [->|Hne]; simpl in *.
    + apply NoDup_cons in Hnd as [Hnotin Hnd].
      assert (Hs : is_Some (heap w !! second)) by (apply Hlive, elem_of_cons; auto).
      rewrite (bind_ok _ _ _ _ _ (delete_list_ok _ _ Hs)).
      destruct (IH {| heap := delete second (heap w); trace := trace w ++ [Delete second] |})
        as (w' & Hrun & Htr & Hheap).
      { split; [assumption|]. intros p Hp. simpl.
        rewrite lookup_delete_ne; [apply Hlive, elem_of_cons; auto|].
        intros ->. now apply Hnotin. }
      exists w'. split; [assumption|]. split.
      * rewrite Htr. simpl. now rewrite <- app_assoc.
      * intros p. rewrite Hheap. simpl.
        destruct (decide (p ∈ blocks_of m)) as [Hin|Hout].
        -- rewrite decide_True; [reflexivity|]. apply elem_of_cons; auto.
        -- destruct (decide (second = p)) as [->|Hp].
           ++ rewrite decide_True by (apply elem_of_cons; auto). apply lookup_delete_eq.
           ++ rewrite decide_False.
              ** now apply lookup_delete_ne.
              ** intros [->|?]%elem_of_cons; auto.
    + apply NoDup_cons in Hnd as [Hnotin1 Hnd].
      apply NoDup_cons in Hnd as [Hnotin2 Hnd].
      assert (Hf : is_Some (heap w !! first)) by (apply Hlive, elem_of_cons; auto).
      assert (Hs : is_Some (heap w !! second)).
      { apply Hlive. apply elem_of_cons. right. apply elem_of_cons. auto. }
      rewrite (bind_ok _ _ _ _ _ (delete_two_ok _ _ _ Hne Hf Hs)).
      destruct (IH {| heap := delete second (delete first (heap w));
                      trace := (trace w ++ [Delete first]) ++ [Delete second] |})
        as (w' & Hrun & Htr & Hheap).
      { split; [assumption|]. intros p Hp. simpl.
        rewrite !lookup_delete_ne.
        - apply Hlive. apply elem_of_cons. right. apply elem_of_cons. auto.
        - intros ->. apply Hnotin1. apply elem_of_cons. auto.
        - intros ->. now apply Hnotin2. }
      exists w'. split; [assumption|]. split.
      * rewrite Htr. simpl. now rewrite <- !app_assoc.
      * intros p. rewrite Hheap. simpl.
        destruct (decide (p ∈ blocks_of m)) as [Hin|Hout].
        -- rewrite decide_True; [reflexivity|].
           apply elem_of_cons. right. apply elem_of_cons. auto.
        -- destruct (decide (second = p)) as [->|Hp2].
           { rewrite decide_True.
             - apply lookup_delete_eq.
             - apply elem_of_cons. right. apply elem_of_cons. auto. }
           rewrite lookup_delete_ne by assumption.
           destruct (decide (first = p)) as [->|Hp1].
           { rewrite decide_True by (apply elem_of_cons; auto). apply lookup_delete_eq. }
           rewrite lookup_delete_ne by assumption.
           rewrite decide_False; [reflexivity|].
           intros [->|[->|?]%elem_of_cons]%elem_of_cons; auto.
Qed.

(** C8.  On a registry that owns its lists, [free()] hands to [delete], entry
    by entry, one block for an entry whose send-list and receive-list are the
    same object and both blocks otherwise; no block is deleted twice, the
    blocks are gone from the heap and nothing else is, the map is empty
    ([neighbours()] is 0) and the next build counts as the first.
    [setIndexSets] and the destructor tear down through [free()]. *)
Theorem free_deletes_each_block_once (r : RemoteIndices) (w : World)
    (source destination : positive) (comm : Comm) :
  owns w (remoteIndices_ r) ->
  exists r' w',
    free r w = Ok r' w' /\
    trace w' = trace w ++ map Delete (blocks_of (remoteIndices_ r)) /\
    NoDup (blocks_of (remoteIndices_ r)) /\
    (forall p, heap w' !! p =
       if decide (p ∈ blocks_of (remoteIndices_ r)) then None else heap w !! p) /\
    remoteIndices_ r' = [] /\ neighbours r' = 0 /\ firstBuild r' = true /\
    RemoteIndices_dtor r w = Ok r' w' /\
    exists r'', setIndexSets source destination comm r w = Ok r'' w' /\
      remoteIndices_ r'' = [] /\ firstBuild r'' = true /\
      source_ r'' = Some source /\ target_ r'' = Some destination.
Proof.
  intros Hown. destruct (free_lists_ok _ _ Hown) as (w' & Hrun & Htr & Hheap).
  assert (Hfree : free r w = Ok (set_firstBuild true (set_remoteIndices_ [] r)) w').
  { unfold free. now rewrite (bind_ok _ _ _ _ _ Hrun). }
  eexists _, w'. split; [exact Hfree|].
  repeat split; try assumption; try apply Hown.
  eexists. unfold setIndexSets. rewrite (bind_ok _ _ _ _ _ Hfree).
  repeat split.
Qed.

(** ** getModifier *)

Lemma StdMap_find_insert_new {V} k (v : V) m :
  StdMap.find k m = None -> StdMap.find k (StdMap.insert k v m) = Some v.
Proof.
  induction m as [|[k' v'] m IH]; simpl.
  - now rewrite Z.eqb_refl.
  - destruct (k =? k') eqn:E; [discriminate|]. intros H.
    destruct (k <? k'); simpl.
    + now rewrite Z.eqb_refl.
    + rewrite E. auto.
Qed.

Lemma new_list_fresh (w : World) : heap w !! fresh (dom (heap w)) = None.
Proof. apply not_elem_of_dom, is_fresh. Qed.

Lemma new_list_ok (w : World) :
  new_list w = Ok (fresh (dom (heap w)))
                  {| heap := <[fresh (dom (heap w)) := []]> (heap w); trace := trace w |}.
Proof. reflexivity. Qed.

Lemma second_new_ne (w : World) : first_new w <> second_new w.
Proof.
  unfold second_new. intros E.
  pose proof (is_fresh (dom (<[first_new w := []]> (heap w) : gmap positive RemoteIndexList))) as H.
  rewrite <- E in H. apply H. apply elem_of_dom. rewrite lookup_insert_eq. eauto.
Qed.

Lemma second_new_fresh (w : World) : heap w !! second_new w = None.
Proof.
  pose proof (is_fresh (dom (<[first_new w := []]> (heap w) : gmap positive RemoteIndexList))) as H.
  fold (second_new w) in H. apply not_elem_of_dom in H.
  rewrite lookup_insert_ne in H by apply second_new_ne. exact H.
Qed.

Lemma getModifier_find_two_sets process σ r w a b s t :
  source_ r = Some a -> target_ r = Some b -> a <> b ->
  σ !! a = Some s -> σ !! b = Some t ->
  StdMap.find process (remoteIndices_ r) = None ->
  getModifier_find process σ r w =
  Ok (set_firstBuild false
        (set_remoteIndices_
           (StdMap.insert process (first_new w, second_new w) (remoteIndices_ r))
           (set_seqNos (seqNo s) (seqNo t) r)), None)
     {| heap := <[second_new w := []]> (<[first_new w := []]> (heap w)); trace := trace w |}.
Proof.
  intros Hs Ht Hne Ha Hb Hfind. unfold getModifier_find.
  rewrite Hs. rewrite (bind_ok _ _ _ _ _ (deref_set_ok _ _ _ w Ha)).
  rewrite Ht. rewrite (bind_ok _ _ _ _ _ (deref_set_ok _ _ _ w Hb)).
  simpl. rewrite Hfind. rewrite Hs, Ht.
  rewrite decide_True by congruence.
  reflexivity.
Qed.

(** C2.  With two distinct index sets and no entry for the process,
    [getModifier] inserts an entry of two fresh, distinct, empty lists, but
    its iterator [found] still is [end()] at the return statement, which
    dereferences it: no modifier over the new entry is returned. *)
Theorem getModifier_new_process_two_sets (mode send : bool) (process : Z)
    (σ : Store) (r : RemoteIndices) (w : World) (a b : positive)
    (s t : ParallelIndexSet) :
  source_ r = Some a -> target_ r = Some b -> a <> b ->
  σ !! a = Some s -> σ !! b = Some t ->
  StdMap.find process (remoteIndices_ r) = None ->
  exists r' first second w',
    getModifier_find process σ r w = Ok (r', None) w' /\
    StdMap.find process (remoteIndices_ r') = Some (first, second) /\
    first <> second /\
    heap w !! first = None /\ heap w !! second = None /\
    heap w' !! first = Some [] /\ heap w' !! second = Some [] /\
    getModifier mode send process σ r w = Undefined EndDereference.
Proof.
  intros Hs Ht Hne Ha Hb Hfind.
  pose proof (getModifier_find_two_sets process σ r w a b s t Hs Ht Hne Ha Hb Hfind) as Hrun.
  eexists _, (first_new w), (second_new w), _. split; [exact Hrun|].
  split; [simpl; now apply StdMap_find_insert_new|].
  split; [apply second_new_ne|].
  split; [apply new_list_fresh|].
  split; [apply second_new_fresh|].
  split; [simpl; rewrite lookup_insert_ne by (apply not_eq_sym, second_new_ne);
          apply lookup_insert_eq|].
  split; [simpl; apply lookup_insert_eq|].
  unfold getModifier. rewrite (bind_ok _ _ _ _ _ Hrun). reflexivity.
Qed.

(** C7.  A call of [getModifier] on a registry whose index sets exist sets
    the two cached sequence numbers to the current ones before anything
    else: at its return statement, and after every call that returns,
    [isSynced()] is true, whatever the template parameters and the process. *)
Theorem getModifier_marks_synced (mode send : bool) (process : Z)
    (σ : Store) (r : RemoteIndices) (w : World) (a b : positive)
    (s t : ParallelIndexSet) :
  source_ r = Some a -> target_ r = Some b ->
  σ !! a = Some s -> σ !! b = Some t ->
  (exists r' found w',
     getModifier_find process σ r w = Ok (r', found) w' /\
     sourceSeqNo_ r' = seqNo s /\ destSeqNo_ r' = seqNo t /\
     isSynced σ r' w' = Ok true w') /\
  (forall r' m w',
     getModifier mode send process σ r w = Ok (r', m) w' ->
     isSynced σ r' w' = Ok true w').
Proof.
  intros Hs Ht Ha Hb.
  assert (Hsync : forall r' w', source_ r' = Some a -> target_ r' = Some b ->
            sourceSeqNo_ r' = seqNo s -> destSeqNo_ r' = seqNo t ->
            isSynced σ r' w' = Ok true w').
  { intros r' w' Hs' Ht' H1 H2. unfold isSynced.
    rewrite Hs', (bind_ok _ _ _ _ _ (deref_set_ok _ _ _ w' Ha)).
    rewrite H1, Z.eqb_refl.
    rewrite Ht', (bind_ok _ _ _ _ _ (deref_set_ok _ _ _ w' Hb)).
    unfold ret. now rewrite H2, Z.eqb_refl. }
  assert (Hfind : exists r' found w',
            getModifier_find process σ r w = Ok (r', found) w' /\
            source_ r' = Some a /\ target_ r' = Some b /\
            sourceSeqNo_ r' = seqNo s /\ destSeqNo_ r' = seqNo t).
  { unfold getModifier_find.
    rewrite Hs, (bind_ok _ _ _ _ _ (deref_set_ok _ _ _ w Ha)).
    rewrite Ht, (bind_ok _ _ _ _ _ (deref_set_ok _ _ _ w Hb)).
    simpl. rewrite Hs, Ht.
    destruct (StdMap.find process (remoteIndices_ r)) as [e|].
    - eexists _, _, _. split; [reflexivity|]. now simpl.
    - destruct (decide (Some a <> Some b)).
      + eexists _, _, _. split; [reflexivity|]. now simpl.
      + eexists _, _, _. split; [reflexivity|]. now simpl. }
  destruct Hfind as (r1 & found & w1 & Hrun & Hs1 & Ht1 & H1 & H2).
  split.
  - exists r1, found, w1. repeat split; auto.
  - intros r' m w' Hget. unfold getModifier in Hget.
    rewrite (bind_ok _ _ _ _ _ Hrun) in Hget. simpl in Hget.
    apply bind_inv_ok in Hget as (lists & w2 & _ & Hget).
    apply bind_inv_ok in Hget as (m' & w3 & _ & Hget).
    injection Hget as -> -> ->. now apply Hsync.
Qed.

(** ** The list modifier *)

Import RemoteIndexListModifier.

Lemma check_position_raises cfg m (g : M GlobalIndex) x w :
  DUNE_ISTL_WITH_CHECKING cfg = true -> first_ m = false ->
  g w = Ok x w -> x < last_ m ->
  check_position cfg m g w = Raise InvalidPosition w.
Proof.
  intros Hc Hf Hg Hlt. unfold check_position. rewrite Hc, Hf.
  rewrite (bind_ok _ _ _ _ _ Hg).
  apply Z.ltb_lt in Hlt. now rewrite Hlt.
Qed.

Lemma check_position_passes cfg m (g : M GlobalIndex) x w :
  g w = Ok x w ->
  (DUNE_ISTL_WITH_CHECKING cfg = true -> first_ m = true \/ last_ m <= x) ->
  check_position cfg m g w = Ok tt w.
Proof.
  intros Hg H. unfold check_position.
  destruct (DUNE_ISTL_WITH_CHECKING cfg); [|reflexivity].
  destruct (first_ m) eqn:Hf; [reflexivity|].
  rewrite (bind_ok _ _ _ _ _ Hg).
  destruct H as [H|H]; [reflexivity|discriminate|].
  apply Z.ltb_ge in H. now rewrite H.
Qed.

(** C4 (amended).  In a build with DUNE_ISTL_WITH_CHECKING, an insert (of
    either overload) or a remove whose global id is smaller than the last
    touched one throws InvalidPosition before anything is written: the world,
    and with it the remote index list, is as before the call. *)
Theorem modifier_out_of_order_raises (cfg : Config) (σ : Store) (mode : bool)
    (m : RemoteIndexListModifier.t) (w : World) (index : RemoteIndex)
    (x : IndexPair) (g : GlobalIndex) :
  DUNE_ISTL_WITH_CHECKING cfg = true ->
  first_ m = false ->
  pair_at σ (localIndex_ index) = Some x ->
  global x < last_ m ->
  g < last_ m ->
  insert cfg σ index m w = Raise InvalidPosition w /\
  insert_global cfg σ index g m w = Raise InvalidPosition w /\
  remove mode cfg σ g m w = Raise InvalidPosition w.
Proof.
  intros Hc Hf Hx Hlt Hg. repeat split.
  - unfold insert. apply bind_raise.
    apply (check_position_raises _ _ _ (global x)); auto.
    now apply global_of_ok.
  - unfold insert_global. apply bind_raise.
    now apply (check_position_raises _ _ _ g).
  - unfold remove. apply bind_raise.
    now apply (check_position_raises _ _ _ g).
Qed.

Lemma modifier_out_of_order_raises_witness :
  insert checked example_store (example_remote 1) (modifier_at 1 false 5)
    (world_with [example_remote 3]) =
  Raise InvalidPosition (world_with [example_remote 3]) /\
  remove false checked example_store 2 (modifier_at 1 false 5)
    (world_with [example_remote 3]) =
  Raise InvalidPosition (world_with [example_remote 3]).
Proof.
  pose proof (modifier_out_of_order_raises checked example_store false
                (modifier_at 1 false 5) (world_with [example_remote 3])
                (example_remote 1) (example_pair 2) 2
                eq_refl eq_refl eq_refl eq_refl eq_refl) as H.
  split; apply H.
Defined.

(** C4 as stated fails: in a build without DUNE_ISTL_WITH_CHECKING, after
    the record with global id 5 was inserted into an empty list, inserting
    the record with global id 2 throws nothing and changes the list. *)
Lemma modifier_out_of_order_unchecked :
  insert unchecked example_store (example_remote 3) (modifier_at 0 true 0) (world_with []) =
    Ok (modifier_at 1 false 5) (world_with [example_remote 3]) /\
  insert unchecked example_store (example_remote 1) (modifier_at 1 false 5)
    (world_with [example_remote 3]) =
    Ok (modifier_at 2 false 2) (world_with [example_remote 3; example_remote 1]) /\
  2 < last_ (modifier_at 1 false 5) /\
  heap (world_with [example_remote 3; example_remote 1]) !! 1%positive <>
  heap (world_with [example_remote 3]) !! 1%positive.
Proof.
  split; [vm_compute; reflexivity|].
  split; [vm_compute; reflexivity|].
  split; [reflexivity|]. vm_compute. discriminate.
Qed.

Lemma assert_ok ndebug (c : M bool) w :
  c w = Ok true w -> assert ndebug c w = Ok tt w.
Proof.
  intros H. unfold assert. destruct ndebug; [reflexivity|].
  now rewrite (bind_ok _ _ _ _ _ H).
Qed.

Lemma seek_ok σ (g : M GlobalIndex) G (rest : RemoteIndexList) : forall i w,
  (forall w', g w' = Ok G w') ->
  valid_list σ rest ->
  seek σ g rest i w = Ok (i + below σ G rest)%nat w.
Proof.
  induction rest as [|r rest IH]; intros i w Hg Hv; simpl.
  - unfold ret. f_equal. lia.
  - apply Forall_cons in Hv as [Hr Hv].
    rewrite (bind_ok _ _ _ _ _ (global_of_gid _ _ w Hr)).
    rewrite (bind_ok _ _ _ _ _ (Hg w)).
    destruct (gid σ r <? G).
    + rewrite IH by assumption. f_equal. lia.
    + unfold ret. f_equal. lia.
Qed.

Lemma below_stops σ G (rest : RemoteIndexList) :
  Exists (fun r => G <= gid σ r) rest ->
  exists r rest', drop (below σ G rest) rest = r :: rest' /\ G <= gid σ r.
Proof.
  induction rest as [|r rest IH]; intros H.
  - now apply Exists_nil in H.
  - simpl. destruct (gid σ r <? G) eqn:E.
    + apply Exists_cons in H as [H|H].
      * apply Z.ltb_lt in E. lia.
      * simpl. now apply IH.
    + apply Z.ltb_ge in E. now exists r, rest.
Qed.

Lemma valid_list_drop σ n (l : RemoteIndexList) : valid_list σ l -> valid_list σ (drop n l).
Proof. apply Forall_drop. Qed.

(** The record with global id 5 is inserted into the list holding the
    record with global id 7, then 5 is removed through the same modifier;
    the removal returns false and the list holds both records. *)
Lemma insert_then_remove_changes_list :
  insert checked example_store (example_remote 3) (modifier_at 0 true 0)
    (world_with [example_remote 4]) =
    Ok (modifier_at 1 false 5) (world_with [example_remote 3; example_remote 4]) /\
  remove false checked example_store 5 (modifier_at 1 false 5)
    (world_with [example_remote 3; example_remote 4]) =
    Ok (modifier_at 1 false 5, false) (world_with [example_remote 3; example_remote 4]) /\
  heap (world_with [example_remote 3; example_remote 4]) !! 1%positive <>
  heap (world_with [example_remote 4]) !! 1%positive.
Proof.
  split; [vm_compute; reflexivity|].
  split; [vm_compute; reflexivity|].
  vm_compute. discriminate.
Qed.

(** ** Witnesses for teardown and getModifier *)

Lemma free_deletes_each_block_once_witness :
  exists r' w',
    free example_registry example_world = Ok r' w' /\
    trace w' = [Delete 1%positive; Delete 2%positive; Delete 3%positive] /\
    heap w' = ∅ /\ neighbours r' = 0.
Proof.
  assert (Hown : owns example_world (remoteIndices_ example_registry)).
  { assert (E : blocks_of (remoteIndices_ example_registry)
                = [1%positive; 2%positive; 3%positive]) by reflexivity.
    split; rewrite E.
    - apply (bool_decide_unpack _). vm_compute. exact I.
    - intros p Hp.
      repeat (apply elem_of_cons in Hp as [->|Hp]; [eexists; reflexivity|]).
      now apply elem_of_nil in Hp. }
  assert (E : blocks_of (remoteIndices_ example_registry)
              = [1%positive; 2%positive; 3%positive]) by reflexivity.
  destruct (free_deletes_each_block_once example_registry example_world 1 1 example_comm Hown)
    as (r' & w' & Hfree & Htr & _ & Hheap & _ & Hn & _).
  exists r', w'. split; [exact Hfree|]. split; [exact Htr|]. split; [|exact Hn].
  apply map_eq. intros p. rewrite Hheap, lookup_empty.
  case_decide as Hp; [reflexivity|].
  rewrite E in Hp.
  unfold example_world. simpl.
  rewrite !lookup_insert_ne, lookup_empty; [reflexivity| | |];
    intros <-; apply Hp; rewrite !elem_of_cons; auto.
Defined.

Lemma getModifier_new_process_two_sets_witness :
  getModifier false true 1 two_set_store (RemoteIndices_ctor 1 2 example_comm) empty_world
  = Undefined EndDereference.
Proof.
  destruct (getModifier_new_process_two_sets false true 1 two_set_store
              (RemoteIndices_ctor 1 2 example_comm) empty_world 1 2
              example_set example_target eq_refl eq_refl)
    as (r' & f & s & w' & H); [discriminate|reflexivity|reflexivity|reflexivity|].
  apply H.
Defined.

Lemma getModifier_marks_synced_witness :
  isSynced example_store (RemoteIndices_ctor 1 1 example_comm) empty_world
    = Ok false empty_world /\
  exists r' m w',
    getModifier false true 1 example_store (RemoteIndices_ctor 1 1 example_comm) empty_world
      = Ok (r', m) w' /\
    StdMap.find 1 (remoteIndices_ r') = Some (rList_ m, rList_ m) /\
    isSynced example_store r' w' = Ok true w'.
Proof.
  split; [reflexivity|].
  destruct (getModifier false true 1 example_store (RemoteIndices_ctor 1 1 example_comm)
              empty_world) as [[r' m] w'| |] eqn:E;
    [|vm_compute in E; discriminate..].
  exists r', m, w'. split; [reflexivity|].
  split; [vm_compute in E; injection E as <- <- <-; reflexivity|].
  exact (proj2 (getModifier_marks_synced false true 1 example_store
                  (RemoteIndices_ctor 1 1 example_comm) empty_world 1 1
                  example_set example_set eq_refl eq_refl eq_refl eq_refl)
           r' m w' E).
Defined.

(** ** The collective iterator *)

Lemma forward_ok σ G (cur : RemoteIndexList) w :
  valid_list σ cur ->
  CollectiveIterator.forward σ G cur w = Ok (drop (below σ G cur) cur) w.
Proof.
  induction cur as [|r cur IH]; intros Hv; [reflexivity|].
  apply Forall_cons in Hv as [Hr Hv]. simpl.
  rewrite (bind_ok _ _ _ _ _ (global_of_gid _ _ w Hr)).
  destruct (gid σ r <? G); [now apply IH|reflexivity].
Qed.

Lemma below_prefix σ G (cur : RemoteIndexList) :
  Forall (fun r => gid σ r < G) (take (below σ G cur) cur).
Proof.
  induction cur as [|r cur IH]; simpl; [constructor|].
  destruct (gid σ r <? G) eqn:E; simpl; [|constructor].
  constructor; [now apply Z.ltb_lt|assumption].
Qed.

Lemma below_head σ G (cur : RemoteIndexList) r rest :
  drop (below σ G cur) cur = r :: rest -> G <= gid σ r.
Proof.
  induction cur as [|r' cur IH]; simpl; [discriminate|].
  destruct (gid σ r' <? G) eqn:E; simpl; [exact IH|].
  intros [= -> _]. now apply Z.ltb_ge.
Qed.

Lemma advance_map_ok σ G (m : list (Z * RemoteIndexList)) w :
  Forall (fun e => valid_list σ (snd e)) m ->
  CollectiveIterator.advance_map σ G m w = Ok (advanced σ G m) w.
Proof.
  induction m as [|[p cur] m IH]; intros Hv; [reflexivity|].
  apply Forall_cons in Hv as [Hc Hv]. simpl in *.
  rewrite (bind_ok _ _ _ _ _ (forward_ok _ _ _ w Hc)).
  rewrite (bind_ok _ _ _ _ _ (IH Hv)).
  unfold ret. f_equal. now destruct (drop (below σ G cur) cur).
Qed.

Lemma advanced_cursors σ G (m : list (Z * RemoteIndexList)) e :
  e ∈ advanced σ G m ->
  exists cur r rest, (fst e, cur) ∈ m /\ snd e = drop (below σ G cur) cur /\
    snd e = r :: rest /\ G <= gid σ r.
Proof.
  unfold advanced. intros H. apply list_elem_of_In, in_flat_map in H as ([p cur] & Hin & H).
  simpl in H. destruct (drop (below σ G cur) cur) as [|r rest] eqn:E; [contradiction|].
  destruct H as [<-|[]]. exists cur, r, rest. simpl.
  repeat split; auto.
  - now apply list_elem_of_In.
  - now apply below_head in E.
Qed.

Lemma advanced_valid σ G (m : list (Z * RemoteIndexList)) :
  Forall (fun e => valid_list σ (snd e)) m ->
  Forall (fun e => valid_list σ (snd e) /\ snd e <> []) (advanced σ G m).
Proof.
  induction m as [|[p cur] m IH]; intros Hv; [constructor|].
  apply Forall_cons in Hv as [Hc Hv]. unfold advanced. simpl.
  fold (advanced σ G m).
  destruct (drop (below σ G cur) cur) as [|r rest] eqn:E; simpl; [auto|].
  constructor; [|auto]. simpl. split; [|discriminate].
  rewrite <- E. now apply valid_list_drop.
Qed.

Lemma visit_ok σ G w (it : list (Z * RemoteIndexList)) :
  Forall (fun e => valid_list σ (snd e) /\ snd e <> []) it ->
  forall n, (length it <= n)%nat ->
  exists it0,
    CollectiveIterator.move_to_valid σ G it w = Ok it0 w /\
    CollectiveIterator.visit n σ
      {| CollectiveIterator.iter_ := it0; CollectiveIterator.iter_index_ := G |}
      {| CollectiveIterator.iter_ := []; CollectiveIterator.iter_index_ := G |} w
    = Ok (yielded σ G it) w.
Proof.
  induction it as [|[p cur] it IH]; intros Hv n Hn.
  - exists []. split; [reflexivity|]. now destruct n.
  - apply Forall_cons in Hv as [[Hc Hne] Hv]. simpl in *.
    destruct cur as [|r rest]; [congruence|].
    apply Forall_cons in Hc as [Hr Hc].
    unfold SLList_deref. simpl.
    unfold from_option, ret at 1. unfold bind at 1.
    rewrite (bind_ok _ _ _ _ _ (global_of_gid _ _ w Hr)).
    unfold yielded. simpl. fold (yielded σ G it).
    destruct n as [|n]; [lia|].
    destruct (IH Hv n ltac:(lia)) as (it0 & Hmove & Hvisit).
    destruct (gid σ r =? G) eqn:E; simpl.
    + eexists. split; [reflexivity|].
      unfold CollectiveIterator.process, CollectiveIterator.deref,
        CollectiveIterator.incr. simpl.
      rewrite bind_ret. unfold SLList_deref. simpl. rewrite bind_ret.
      rewrite bind_assoc, (bind_ok _ _ _ _ _ Hmove), bind_ret.
      now rewrite (bind_ok _ _ _ _ _ Hvisit).
    + destruct (IH Hv (S n) ltac:(lia)) as (it1 & Hmove1 & Hvisit1).
      exists it1. split; assumption.
Qed.

(** C6.  On cursors over records with live back-references, [advance(G)]
    forwards every peer's cursor over its leading records with global id
    below [G] and no further, drops the peers whose cursor reached the end,
    and records [G]; the iteration from [begin()] to [end()] then yields, in
    the order of the map, exactly the remaining peers whose cursor is at a
    record with global id [G], each with that record. *)
Theorem advance_then_iterate (σ : Store) (c : CollectiveIterator.t) (G : GlobalIndex)
    (w : World) :
  Forall (fun e => valid_list σ (snd e)) (CollectiveIterator.map_ c) ->
  exists c',
    CollectiveIterator.advance σ G c w = Ok c' w /\
    CollectiveIterator.map_ c' = advanced σ G (CollectiveIterator.map_ c) /\
    CollectiveIterator.index_ c' = G /\
    (forall e, e ∈ CollectiveIterator.map_ c ->
       Forall (fun r => gid σ r < G) (take (below σ G (snd e)) (snd e))) /\
    (forall e, e ∈ CollectiveIterator.map_ c' ->
       exists cur r rest, (fst e, cur) ∈ CollectiveIterator.map_ c /\
         snd e = drop (below σ G cur) cur /\ snd e = r :: rest /\ G <= gid σ r) /\
    CollectiveIterator.iterate σ c' w =
      Ok (yielded σ G (CollectiveIterator.map_ c')) w.
Proof.
  intros Hv.
  exists {| CollectiveIterator.map_ := advanced σ G (CollectiveIterator.map_ c);
            CollectiveIterator.index_ := G |}.
  split.
  { unfold CollectiveIterator.advance. now rewrite (bind_ok _ _ _ _ _ (advance_map_ok _ _ _ w Hv)). }
  split; [reflexivity|]. split; [reflexivity|].
  split; [intros e _; apply below_prefix|].
  split; [intros e He; now apply advanced_cursors|].
  unfold CollectiveIterator.iterate, CollectiveIterator.begin, CollectiveIterator.end_,
    CollectiveIterator.iterator_ctor. simpl.
  destruct (visit_ok σ G w _ (advanced_valid σ G _ Hv) _ (le_n _)) as (it0 & Hmove & Hvisit).
  rewrite bind_assoc, (bind_ok _ _ _ _ _ Hmove), !bind_ret.
  exact Hvisit.
Qed.

Lemma advance_then_iterate_witness :
  exists c',
    CollectiveIterator.advance example_store 3 example_iterator empty_world = Ok c' empty_world /\
    CollectiveIterator.iterate example_store c' empty_world =
      Ok [(1, example_remote 2); (2, example_remote 2)] empty_world.
Proof.
  destruct (advance_then_iterate example_store example_iterator 3 empty_world)
    as (c' & Hadv & Hmap & _ & _ & _ & Hit).
  - repeat constructor; eexists; reflexivity.
  - exists c'. split; [exact Hadv|]. rewrite Hit, Hmap. reflexivity.
Defined.

(** ** What the operations preserve *)

Lemma extends_refl w : extends w w.
Proof. exists []. now rewrite app_nil_r. Qed.

Lemma extends_trans w1 w2 w3 : extends w1 w2 -> extends w2 w3 -> extends w1 w3.
Proof. intros [t1 H1] [t2 H2]. exists (t1 ++ t2). now rewrite H2, H1, app_assoc. Qed.

Lemma grows_refl w : grows w w.
Proof. unfold grows. reflexivity. Qed.

Lemma grows_trans w1 w2 w3 : grows w1 w2 -> grows w2 w3 -> grows w1 w3.
Proof. unfold grows. intros H1 H2. etransitivity; eassumption. Qed.

Section Preserved.
Variable R : World -> World -> Prop.
Hypothesis R_refl : forall w, R w w.
Hypothesis R_trans : forall w1 w2 w3, R w1 w2 -> R w2 w3 -> R w1 w3.
Hypothesis R_write : forall w p l,
  is_Some (heap w !! p) -> R w {| heap := <[p := l]> (heap w); trace := trace w |}.
Hypothesis R_new : forall w,
  R w {| heap := <[fresh (dom (heap w)) := []]> (heap w); trace := trace w |}.
Hypothesis R_emit : forall w e, R w {| heap := heap w; trace := trace w ++ [e] |}.
Hypothesis R_delete : forall w p,
  is_Some (heap w !! p) ->
  R w {| heap := delete p (heap w); trace := trace w ++ [Delete p] |}.

Lemma preserved_ret {A} (a : A) : preserved R (ret a).
Proof. intros w a' w' [= _ <-]. apply R_refl. Qed.

Lemma preserved_fault {A} f : preserved R (@fault A f).
Proof. intros w a w' H. discriminate. Qed.

Lemma preserved_bind {A B} (m : M A) (k : A -> M B) :
  preserved R m -> (forall a, preserved R (k a)) -> preserved R (bind m k).
Proof.
  intros Hm Hk w b w' H. apply bind_inv_ok in H as (a & w1 & H1 & H2).
  eapply R_trans; [now apply (Hm _ _ _ H1)|now apply (Hk a _ _ _ H2)].
Qed.

Lemma preserved_from_option {A} f (o : option A) : preserved R (from_option f o).
Proof. destruct o; [apply preserved_ret|apply preserved_fault]. Qed.

Lemma preserved_if {A} (b : bool) (m1 m2 : M A) :
  preserved R m1 -> preserved R m2 -> preserved R (if b then m1 else m2).
Proof. now destruct b. Qed.

Lemma preserved_emit e : preserved R (emit e).
Proof. intros w a w' [= _ <-]. apply R_emit. Qed.

Lemma preserved_read_list p : preserved R (read_list p).
Proof.
  intros w a w'. unfold read_list. destruct (heap w !! p); run; [|discriminate].
  intros [= _ <-]. apply R_refl.
Qed.

Lemma preserved_write_list p l : preserved R (write_list p l).
Proof.
  intros w a w'. unfold write_list. destruct (heap w !! p) eqn:E; [|discriminate].
  intros [= _ <-]. apply R_write. rewrite E. eauto.
Qed.

Lemma preserved_new_list : preserved R new_list.
Proof. intros w a w' [= _ <-]. apply R_new. Qed.

Lemma preserved_delete_list p : preserved R (delete_list p).
Proof.
  intros w a w'. unfold delete_list. destruct (heap w !! p) eqn:E; [|discriminate].
  intros [= _ <-]. apply R_delete. rewrite E. eauto.
Qed.

Lemma preserved_deref_pair σ p : preserved R (deref_pair σ p).
Proof. destruct p; [apply preserved_fault|apply preserved_from_option]. Qed.

Lemma preserved_deref_set σ p : preserved R (deref_set σ p).
Proof. destruct p; [apply preserved_from_option|apply preserved_fault]. Qed.

Ltac preserved_tac :=
  repeat first
    [ apply preserved_bind; [|intros ?]
    | apply preserved_if
    | apply preserved_ret
    | apply preserved_fault
    | apply preserved_from_option
    | apply preserved_emit
    | apply preserved_read_list
    | apply preserved_write_list
    | apply preserved_new_list
    | apply preserved_delete_list
    | apply preserved_deref_pair
    | apply preserved_deref_set
    | assumption
    | match goal with
      | H : forall _, _ |- _ => apply H
      | |- preserved R (match ?x with _ => _ end) => destruct x
      end ].

Lemma preserved_unpack_char b p : preserved R (MPI_Unpack_char b p).
Proof. unfold MPI_Unpack_char. preserved_tac. Qed.

Lemma preserved_unpack_int b p : preserved R (MPI_Unpack_int b p).
Proof. unfold MPI_Unpack_int. preserved_tac. Qed.

Lemma preserved_unpack_pair b p : preserved R (MPI_Unpack_pair b p).
Proof. unfold MPI_Unpack_pair. preserved_tac. Qed.

Lemma preserved_unpack_rest k b : forall p, preserved R (unpack_rest k b p).
Proof.
  induction k; intros p; simpl; [apply preserved_ret|].
  apply preserved_bind; [apply preserved_unpack_pair|auto].
Qed.

Lemma preserved_array_read l i : preserved R (array_read l i).
Proof. unfold array_read. preserved_tac. Qed.

Lemma preserved_unpackIndices_loop budget σ locals localEntries remoteEntries p_in :
  forall index n_in localIndex position remote,
  preserved R (unpackIndices_loop budget σ locals localEntries remoteEntries p_in
                 index n_in localIndex position remote).
Proof.
  induction budget as [|budget IH]; intros; simpl; [apply preserved_fault|].
  destruct (_ <? _)%nat; [|apply preserved_ret].
  apply preserved_bind; [apply preserved_array_read|]. intros lp.
  apply preserved_bind; [apply preserved_deref_pair|]. intros le.
  repeat match goal with
         | |- preserved R (if ?c then _ else _) => destruct c
         end;
    try apply preserved_ret; try apply IH;
    (apply preserved_bind; [apply preserved_unpack_pair|intros x; apply IH]).
Qed.

Lemma preserved_unpackIndices σ remote remoteEntries locals localEntries p_in position :
  preserved R (unpackIndices σ remote remoteEntries locals localEntries p_in position).
Proof.
  unfold unpackIndices. destruct (remoteEntries =? 0); [apply preserved_ret|].
  apply preserved_bind; [apply preserved_unpack_pair|]. intros x.
  apply preserved_bind; [apply preserved_read_list|]. intros l.
  apply preserved_bind; [apply preserved_unpackIndices_loop|]. intros y.
  apply preserved_bind; [apply preserved_write_list|]. intros _.
  apply preserved_unpack_rest.
Qed.

Lemma preserved_advance_while_less σ locals g steps : forall i,
  preserved R (advance_while_less σ locals g steps i).
Proof.
  induction steps as [|steps IH]; intros; simpl; [apply preserved_ret|].
  apply preserved_bind; [apply preserved_array_read|]. intros lp.
  apply preserved_bind; [apply preserved_deref_pair|]. intros le.
  destruct (_ <? _); [apply IH|apply preserved_ret].
Qed.

Lemma preserved_found_at σ locals entries g i : preserved R (found_at σ locals entries g i).
Proof.
  unfold found_at. destruct (_ <? _)%nat; [|apply preserved_ret].
  apply preserved_bind; [apply preserved_array_read|]. intros lp.
  apply preserved_bind; [apply preserved_deref_pair|]. intros le. apply preserved_ret.
Qed.

Lemma preserved_unpackIndices_two_loop k σ ls lse ld lde p_in :
  forall si di position send receive,
  preserved R (unpackIndices_two_loop k σ ls lse ld lde p_in si di position send receive).
Proof.
  induction k as [|k IH]; intros; simpl; [apply preserved_ret|].
  destruct (_ || _); [|apply preserved_ret].
  apply preserved_bind; [apply preserved_unpack_pair|]. intros x.
  apply preserved_bind; [apply preserved_advance_while_less|]. intros si'.
  apply preserved_bind; [apply preserved_advance_while_less|]. intros di'.
  apply preserved_bind; [apply preserved_found_at|]. intros inS.
  apply preserved_bind.
  { destruct inS; [|apply preserved_ret].
    apply preserved_bind; [apply preserved_array_read|]. intros lp. apply preserved_ret. }
  intros send'.
  apply preserved_bind; [apply preserved_found_at|]. intros inD.
  apply preserved_bind.
  { destruct inD; [|apply preserved_ret].
    apply preserved_bind; [apply preserved_array_read|]. intros lp. apply preserved_ret. }
  intros receive'. apply IH.
Qed.

Lemma preserved_unpackIndices_two σ send receive remoteEntries ls lse ld lde p_in position :
  preserved R (unpackIndices_two σ send receive remoteEntries ls lse ld lde p_in position).
Proof.
  unfold unpackIndices_two.
  apply preserved_bind; [apply preserved_read_list|]. intros s.
  apply preserved_bind; [apply preserved_read_list|]. intros r.
  apply preserved_bind; [apply preserved_unpackIndices_two_loop|]. intros y.
  apply preserved_bind; [apply preserved_write_list|]. intros _.
  apply preserved_bind; [apply preserved_write_list|]. intros _.
  apply preserved_ret.
Qed.

(** The part of [process_message] that unpacks into the two lists. *)
Lemma preserved_unpack_lists σ su (st : Ring) p_in receive noRemoteSource noRemoteDest
    (twoIndexSets : Z) position :
  preserved R
    (if twoIndexSets =? 0 then
       if sendTwo su then
         send <- new_list ;;
         position <- unpackIndices_two σ send receive noRemoteSource
                       (sourcePairs st) (sourcePublish su)
                       (destPairs st) (destPublish su) p_in position ;;
         ret (send, position)
       else
         position <- unpackIndices σ receive noRemoteSource
                       (sourcePairs st) (sourcePublish su) p_in position ;;
         ret (receive, position)
     else
       position <- (if sendTwo su
                    then unpackIndices σ receive noRemoteSource
                           (destPairs st) (destPublish su) p_in position
                    else unpackIndices σ receive noRemoteSource
                           (sourcePairs st) (sourcePublish su) p_in position) ;;
       send <- new_list ;;
       position <- unpackIndices σ send noRemoteDest
                     (sourcePairs st) (sourcePublish su) p_in position ;;
       ret (send, position)).
Proof.
  destruct (twoIndexSets =? 0), (sendTwo su);
    repeat first
      [ apply preserved_new_list
      | apply preserved_unpackIndices
      | apply preserved_unpackIndices_two
      | apply preserved_ret
      | apply preserved_bind; [|intros ?] ].
Qed.

Lemma preserved_process_message σ su proc inb st :
  preserved R (process_message σ su proc inb st).
Proof.
  unfold process_message. cbv zeta.
  apply preserved_bind; [apply preserved_unpack_char|]. intros x1.
  apply preserved_bind; [apply preserved_unpack_int|]. intros x2.
  apply preserved_bind; [apply preserved_unpack_int|]. intros x3.
  apply preserved_bind; [apply preserved_new_list|]. intros receive.
  apply preserved_bind; [apply preserved_unpack_lists|]. intros x.
  apply preserved_bind; [apply preserved_read_list|]. intros r.
  apply preserved_bind; [apply preserved_read_list|]. intros s.
  destruct r, s; try apply preserved_ret.
  apply preserved_bind; [|intros _; apply preserved_ret].
  destruct (decide _); [apply preserved_delete_list|].
  apply preserved_bind; [apply preserved_delete_list|].
  intros _. apply preserved_delete_list.
Qed.

Lemma preserved_hop ignorePublic σ recv su proc st :
  preserved R (hop ignorePublic σ recv su proc st).
Proof.
  unfold hop. cbv zeta.
  destruct (proc =? 0).
  - destruct (sendTwo su); [|apply preserved_ret].
    apply preserved_bind; [apply preserved_emit|].
    intros _. apply preserved_process_message.
  - apply preserved_bind.
    + destruct (_ =? 0);
        (apply preserved_bind; [apply preserved_emit|intros _; apply preserved_emit]).
    + intros _. apply preserved_process_message.
Qed.

Lemma preserved_ring n ignorePublic σ recv su : forall proc st,
  preserved R (ring n ignorePublic σ recv su proc st).
Proof.
  induction n as [|n IH]; intros; simpl; [apply preserved_ret|].
  apply preserved_bind; [apply preserved_hop|]. intros st'. apply IH.
Qed.

Lemma preserved_free_lists m : preserved R (free_lists m).
Proof.
  induction m as [|[k [a b]] m IH]; simpl; [apply preserved_ret|].
  apply preserved_bind; [|intros _; exact IH].
  destruct (decide _); [apply preserved_delete_list|].
  apply preserved_bind; [apply preserved_delete_list|].
  intros _. apply preserved_delete_list.
Qed.

Lemma preserved_free r : preserved R (free r).
Proof.
  unfold free. apply preserved_bind; [apply preserved_free_lists|].
  intros _. apply preserved_ret.
Qed.
End Preserved.

(** *** Traces only grow *)

Lemma extends_write w p (l : RemoteIndexList) :
  is_Some (heap w !! p) -> extends w {| heap := <[p := l]> (heap w); trace := trace w |}.
Proof. intros _. exists []. simpl. now rewrite app_nil_r. Qed.

Lemma extends_new w :
  extends w {| heap := <[fresh (dom (heap w)) := []]> (heap w); trace := trace w |}.
Proof. exists []. simpl. now rewrite app_nil_r. Qed.

Lemma extends_emit w e : extends w {| heap := heap w; trace := trace w ++ [e] |}.
Proof. now exists [e]. Qed.

Lemma extends_delete w p :
  is_Some (heap w !! p) ->
  extends w {| heap := delete p (heap w); trace := trace w ++ [Delete p] |}.
Proof. intros _. now exists [Delete p]. Qed.

Lemma appends_from_option {A} f (o : option A) : appends (from_option f o).
Proof. apply preserved_from_option, extends_refl. Qed.

Lemma appends_deref_set σ p : appends (deref_set σ p).
Proof. apply preserved_deref_set, extends_refl. Qed.

Lemma appends_if {A} (b : bool) (m1 m2 : M A) :
  appends m1 -> appends m2 -> appends (if b then m1 else m2).
Proof. apply preserved_if. Qed.

Lemma appends_emit e : appends (emit e).
Proof. apply preserved_emit, extends_emit. Qed.

Lemma appends_ring n ignorePublic σ recv su proc st :
  appends (ring n ignorePublic σ recv su proc st).
Proof.
  apply preserved_ring;
    first [ exact extends_refl | exact extends_trans | exact extends_write
          | exact extends_new | exact extends_emit | exact extends_delete ].
Qed.

Lemma appends_free r : appends (free r).
Proof.
  apply preserved_free;
    first [ exact extends_refl | exact extends_trans | exact extends_delete ].
Qed.

(** *** Unpacking frees nothing *)

Lemma grows_write w p (l : RemoteIndexList) :
  is_Some (heap w !! p) -> grows w {| heap := <[p := l]> (heap w); trace := trace w |}.
Proof. intros _. unfold grows. simpl. rewrite dom_insert. apply union_subseteq_r. Qed.

Lemma grows_new w :
  grows w {| heap := <[fresh (dom (heap w)) := []]> (heap w); trace := trace w |}.
Proof. unfold grows. simpl. rewrite dom_insert. apply union_subseteq_r. Qed.

Lemma retains_unpack_lists σ su st p_in receive noRemoteSource noRemoteDest
    twoIndexSets position a w w' :
  (if twoIndexSets =? 0 then
     if sendTwo su then
       send <- new_list ;;
       position <- unpackIndices_two σ send receive noRemoteSource
                     (sourcePairs st) (sourcePublish su)
                     (destPairs st) (destPublish su) p_in position ;;
       ret (send, position)
     else
       position <- unpackIndices σ receive noRemoteSource
                     (sourcePairs st) (sourcePublish su) p_in position ;;
       ret (receive, position)
   else
     position <- (if sendTwo su
                  then unpackIndices σ receive noRemoteSource
                         (destPairs st) (destPublish su) p_in position
                  else unpackIndices σ receive noRemoteSource
                         (sourcePairs st) (sourcePublish su) p_in position) ;;
     send <- new_list ;;
     position <- unpackIndices σ send noRemoteDest
                   (sourcePairs st) (sourcePublish su) p_in position ;;
     ret (send, position)) w = Ok a w' ->
  grows w w'.
Proof.
  apply (preserved_unpack_lists grows);
    first [ exact grows_refl | exact grows_trans | exact grows_write | exact grows_new ].
Qed.

(** ** rebuild *)

Lemma isSynced_pure σ r w b w' : isSynced σ r w = Ok b w' -> w' = w.
Proof.
  unfold isSynced. intros H.
  apply bind_inv_ok in H as (s & w1 & H1 & H).
  apply deref_set_inv in H1 as [-> _].
  destruct (sourceSeqNo_ r =? seqNo s); [|now injection H].
  apply bind_inv_ok in H as (t & w2 & H2 & H).
  apply deref_set_inv in H2 as [-> _]. now injection H.
Qed.

Lemma isSynced_world σ r w w' b : isSynced σ r w = Ok b w -> isSynced σ r w' = Ok b w'.
Proof.
  unfold isSynced. intros H.
  apply bind_inv_ok in H as (s & w1 & H1 & H).
  apply deref_set_inv in H1 as [-> (a & Ea & Ha)].
  rewrite Ea, (bind_ok _ _ _ _ _ (deref_set_ok _ _ _ w' Ha)).
  destruct (sourceSeqNo_ r =? seqNo s); [|now injection H as <-].
  apply bind_inv_ok in H as (t & w2 & H2 & H).
  apply deref_set_inv in H2 as [-> (b' & Eb & Hb)].
  rewrite Eb, (bind_ok _ _ _ _ _ (deref_set_ok _ _ _ w' Hb)).
  now injection H as <-.
Qed.

(** A completed [buildRemote] ends with the barrier, and all it does to the
    trace is to append. *)
Lemma buildRemote_trace ignorePublic σ recv r w r' w' :
  buildRemote ignorePublic σ recv r w = Ok r' w' ->
  exists t, trace w' = trace w ++ t ++ [MPI_Barrier] /\
    source_ r' = source_ r /\ target_ r' = target_ r /\
    sourceSeqNo_ r' = sourceSeqNo_ r /\ destSeqNo_ r' = destSeqNo_ r.
Proof.
  unfold buildRemote. intros H.
  apply bind_inv_ok in H as (comm & w1 & H1 & H).
  apply appends_from_option in H1 as E1.
  apply bind_inv_ok in H as (sa & w2 & H2 & H).
  apply appends_from_option in H2 as E2.
  apply bind_inv_ok in H as (s & w3 & H3 & H).
  apply appends_deref_set in H3 as E3.
  apply bind_inv_ok in H as (ta & w4 & H4 & H).
  assert (E4 : extends w3 w4).
  { revert H4. apply appends_if; [apply appends_from_option|].
    apply preserved_ret, extends_refl. }
  apply bind_inv_ok in H as (t & w5 & H5 & H).
  assert (E5 : extends w4 w5).
  { revert H5. apply appends_if; [apply appends_deref_set|].
    apply preserved_ret, extends_refl. }
  apply bind_inv_ok in H as (u & w6 & H6 & H).
  apply appends_emit in H6 as E6.
  apply bind_inv_ok in H as (st & w7 & H7 & H).
  apply appends_ring in H7 as E7.
  apply bind_inv_ok in H as (u' & w8 & H8 & H).
  injection H8 as _ <-. injection H as <- <-. simpl.
  assert (E : extends w w7) by (repeat (eapply extends_trans; [eassumption|]); apply extends_refl).
  destruct E as [t0 E]. exists t0. rewrite E, app_assoc. auto.
Qed.

(** C3.  A returning [rebuild<flag>()] has run the discovery protocol, and
    with it produced message traffic, exactly if this was the first build, or
    the flag differs from the one of the last build, or [isSynced()] is
    false; otherwise registry and world are untouched.  A second
    [rebuild<flag>()] with the same flag on unchanged index sets, whatever
    messages would be waiting, returns with the same registry and the same
    world: no traffic. *)
Theorem rebuild_runs_iff_needed (flag : bool) (σ : Store) (recv recv' : Z -> Buffer)
    (r : RemoteIndices) (w : World) (r1 : RemoteIndices) (w1 : World) :
  rebuild flag σ recv r w = Ok r1 w1 ->
  (exists events,
     trace w1 = trace w ++ events /\
     ((exists e, e ∈ events /\ is_mpi e = true) <->
      (firstBuild r = true \/ flag <> publicIgnored r \/ isSynced σ r w = Ok false w)) /\
     ((forall e, e ∈ events -> is_mpi e = false) -> r1 = r /\ w1 = w)) /\
  rebuild flag σ recv' r1 w1 = Ok r1 w1.
Proof.
  intros H.
  assert (Hrun : forall r0 w0,
    (r' <- free r0 ;;
     r' <- buildRemote flag σ recv r' ;;
     s <- deref_set σ (source_ r') ;;
     t <- deref_set σ (target_ r') ;;
     ret (set_publicIgnored flag
            (set_firstBuild false (set_seqNos (seqNo s) (seqNo t) r')))) w0 = Ok r1 w1 ->
    (exists t, trace w1 = trace w0 ++ t ++ [MPI_Barrier]) /\
    rebuild flag σ recv' r1 w1 = Ok r1 w1).
  { clear H. intros r0 w0 H.
    apply bind_inv_ok in H as (r2 & w2 & Hfree & H).
    apply appends_free in Hfree as [t1 E1].
    apply bind_inv_ok in H as (r3 & w3 & Hbuild & H).
    apply buildRemote_trace in Hbuild as (t2 & E2 & _).
    apply bind_inv_ok in H as (s & w4 & Hs & H).
    apply deref_set_inv in Hs as [-> (a & Ea & Ha)].
    apply bind_inv_ok in H as (t & w5 & Ht & H).
    apply deref_set_inv in Ht as [-> (b & Eb & Hb)].
    injection H as <- <-. split.
    - exists (t1 ++ t2). rewrite E2, E1, <- !app_assoc. reflexivity.
    - set (R := set_publicIgnored flag
                  (set_firstBuild false (set_seqNos (seqNo s) (seqNo t) r3))).
      assert (Hsync : isSynced σ R w3 = Ok true w3).
      { unfold isSynced. simpl.
        rewrite Ea, (bind_ok _ _ _ _ _ (deref_set_ok _ _ _ w3 Ha)), Z.eqb_refl.
        rewrite Eb, (bind_ok _ _ _ _ _ (deref_set_ok _ _ _ w3 Hb)).
        unfold ret. now rewrite Z.eqb_refl. }
      unfold rebuild. simpl firstBuild. simpl publicIgnored. cbv iota.
      rewrite eqb_reflx. simpl negb. cbv iota.
      now rewrite bind_assoc, (bind_ok _ _ _ _ _ Hsync), bind_ret. }
  assert (Hmpi : forall t0 : list Event, exists e, e ∈ t0 ++ [MPI_Barrier] /\ is_mpi e = true).
  { intros t0. exists MPI_Barrier. split; [|reflexivity].
    apply elem_of_app. right. apply elem_of_cons. now left. }
  unfold rebuild in H.
  destruct (firstBuild r) eqn:Hfirst.
  { rewrite bind_ret in H. destruct (Hrun _ _ H) as [[t E] H2].
    split; [|exact H2]. exists (t ++ [MPI_Barrier]). split; [exact E|]. split.
    - split; auto.
    - intros Hno. destruct (Hmpi t) as (e & He & Hm). rewrite (Hno e He) in Hm. discriminate. }
  destruct (eqb flag (publicIgnored r)) eqn:Hflag; simpl in H.
  2:{ rewrite bind_ret in H. destruct (Hrun _ _ H) as [[t E] H2].
      split; [|exact H2]. exists (t ++ [MPI_Barrier]). split; [exact E|]. split.
      - split; [|auto]. intros _. right. left. intros ->.
        now rewrite eqb_reflx in Hflag.
      - intros Hno. destruct (Hmpi t) as (e & He & Hm). rewrite (Hno e He) in Hm. discriminate. }
  rewrite bind_assoc in H.
  apply bind_inv_ok in H as (b & w2 & Hsync & H).
  pose proof (isSynced_pure _ _ _ _ _ Hsync) as ->.
  rewrite bind_ret in H. destruct b; simpl in H.
  - injection H as <- <-. split.
    + exists []. split; [now rewrite app_nil_r|]. split; [|auto].
      split.
      * intros (e & He & _). now apply elem_of_nil in He.
      * intros [Hf|[Hf|Hf]]; [discriminate| |congruence].
        apply eqb_prop in Hflag. contradiction.
    + unfold rebuild. rewrite Hfirst, Hflag. simpl.
      now rewrite bind_assoc, (bind_ok _ _ _ _ _ Hsync), bind_ret.
  - destruct (Hrun _ _ H) as [[t E] H2].
    split; [|exact H2]. exists (t ++ [MPI_Barrier]). split; [exact E|]. split.
    + split; auto.
    + intros Hno. destruct (Hmpi t) as (e & He & Hm). rewrite (Hno e He) in Hm. discriminate.
Qed.

Lemma rebuild_runs_iff_needed_witness :
  exists r1 w1,
    rebuild false example_store (fun _ => example_message)
      (RemoteIndices_ctor 1 1 example_comm) empty_world = Ok r1 w1 /\
    rebuild false example_store (fun _ => []) r1 w1 = Ok r1 w1.
Proof.
  destruct (rebuild false example_store (fun _ => example_message)
              (RemoteIndices_ctor 1 1 example_comm) empty_world) as [r1 w1| |] eqn:E.
  - exists r1, w1. split; [reflexivity|].
    exact (proj2 (rebuild_runs_iff_needed _ _ _ (fun _ => []) _ _ _ _ E)).
  - vm_compute in E. discriminate.
  - vm_compute in E. discriminate.
Defined.

(** ** The two-list unpackIndices *)

(** C1 fails on the code.  The process has source set 1, 5 and target set
    5, 6; the peer sends one merged stream holding global id 5.  The two-list
    [unpackIndices] appends to the receive list a record whose back-reference
    is [localDest[sourceIndex]], the target record with global id 6, not the
    one with global id 5; the send list gets the source record with global
    id 5.  The same happens in a whole [rebuild] on rank 0 of 2. *)
Theorem unpackIndices_two_back_reference :
  (exists w',
     unpackIndices_two bug_store 1 2 1
       [slot_of 1 0; slot_of 1 1] 2 [slot_of 2 0; slot_of 2 1] 2
       example_message 3 two_lists_world = Ok 4%nat w' /\
     heap w' !! 1%positive = Some [RemoteIndex_ctor owner (slot_of 1 1)] /\
     heap w' !! 2%positive = Some [RemoteIndex_ctor owner (slot_of 2 1)]) /\
  gid bug_store (RemoteIndex_ctor owner (slot_of 1 1)) = 5 /\
  gid bug_store (RemoteIndex_ctor owner (slot_of 2 1)) = 6 /\
  (exists r w send receive x,
     rebuild false bug_store (fun _ => example_message)
       (RemoteIndices_ctor 1 2 example_comm) empty_world = Ok r w /\
     StdMap.find 1 (remoteIndices_ r) = Some (send, receive) /\
     heap w !! receive = Some [x] /\ gid bug_store x = 6).
Proof.
  split; [|split; [reflexivity|split; [reflexivity|]]].
  - eexists. split; [vm_compute; reflexivity|]. split; reflexivity.
  - eexists _, _, _, _, _. split; [vm_compute; reflexivity|].
    split; [reflexivity|]. split; reflexivity.
Qed.

(** ** The merge of the one-list unpackIndices *)

Lemma ascending_lookup (l : list IndexPair) : ascending l ->
  forall i j x y, (i <= j)%nat -> l !! i = Some x -> l !! j = Some y ->
  global x <= global y.
Proof.
  induction 1 as [|a l Hs IH Hall]; intros i j x y Hij Hi Hj.
  - discriminate.
  - destruct i as [|i], j as [|j]; simpl in *.
    + injection Hi as <-. injection Hj as <-. lia.
    + injection Hi as <-. rewrite Forall_forall in Hall.
      apply Hall. apply list_elem_of_lookup. eauto.
    + lia.
    + apply (IH i j); auto. lia.
Qed.

Lemma unpack_pair_ok (p_in : Buffer) position x w :
  p_in !! position = Some (PackedPair x) ->
  MPI_Unpack_pair p_in position w = Ok (x, S position) w.
Proof. intros H. unfold MPI_Unpack_pair. now rewrite H. Qed.

Lemma unpack_char_ok (p_in : Buffer) position c w :
  p_in !! position = Some (PackedChar c) ->
  MPI_Unpack_char p_in position w = Ok (c, S position) w.
Proof. intros H. unfold MPI_Unpack_char. now rewrite H. Qed.

Lemma unpack_int_ok (p_in : Buffer) position n w :
  p_in !! position = Some (PackedInt n) ->
  MPI_Unpack_int p_in position w = Ok (n, S position) w.
Proof. intros H. unfold MPI_Unpack_int. now rewrite H. Qed.

Lemma unpack_rest_ok (p_in : Buffer) k : forall position w,
  (forall j, (j < k)%nat -> exists x, p_in !! (position + j)%nat = Some (PackedPair x)) ->
  unpack_rest k p_in position w = Ok (position + k)%nat w.
Proof.
  induction k as [|k IH]; intros position w H; simpl.
  - unfold ret. f_equal. lia.
  - destruct (H 0%nat ltac:(lia)) as [x Hx]. rewrite Nat.add_0_r in Hx.
    rewrite (bind_ok _ _ _ _ _ (unpack_pair_ok _ _ _ w Hx)). simpl.
    rewrite IH.
    + f_equal. lia.
    + intros j Hj. destruct (H (S j) ltac:(lia)) as [y Hy].
      exists y. rewrite <- Hy. f_equal. lia.
Qed.

Lemma array_read_ok (l : list PairPtr) i p w :
  l !! i = Some p -> array_read l i w = Ok p w.
Proof. intros H. unfold array_read. now rewrite H. Qed.

Section Merge.
Variable σ : Store.
Variable locals : list PairPtr.
Variable Ls R : list IndexPair.
Variable p_in : Buffer.
Variable pos0 : nat.
Hypothesis Hlocals : Forall2 (fun p x => pair_at σ p = Some x) locals Ls.
Hypothesis Hstream : forall j x, R !! j = Some x ->
  p_in !! (pos0 + j)%nat = Some (PackedPair x).

Lemma unpackIndices_loop_ok : forall budget n_in localIndex index remote w,
  R !! n_in = Some index ->
  ((length locals - localIndex) + (length R - 1 - n_in) < budget)%nat ->
  exists remote' n_in' position',
    unpackIndices_loop budget σ locals (length locals) (Z.of_nat (length R)) p_in
      index (Z.of_nat n_in) localIndex (pos0 + n_in + 1)%nat remote w
    = Ok (remote', Z.of_nat n_in', position') w /\
    ((n_in' = length R /\ position' = (pos0 + length R)%nat) \/
     ((n_in' < length R)%nat /\ position' = (pos0 + n_in' + 1)%nat)) /\
    (remote <> [] -> remote' <> []) /\
    (ascending Ls -> ascending R ->
     (exists i j x y, (localIndex <= i)%nat /\ (n_in <= j)%nat /\
        Ls !! i = Some x /\ R !! j = Some y /\ global x = global y) ->
     remote' <> []).
Proof.
  induction budget as [|budget IH]; intros n_in localIndex index remote w Hidx Hb; [lia|].
  pose proof (lookup_lt_Some _ _ _ Hidx) as Hn.
  simpl. destruct (Nat.ltb_spec localIndex (length locals)) as [Hlt|Hge].
  - destruct (lookup_lt_is_Some_2 locals localIndex Hlt) as [lp Hlp].
    destruct (Forall2_lookup_l _ _ _ _ _ Hlocals Hlp) as (le & Hle & Hat).
    rewrite (bind_ok _ _ _ _ _ (array_read_ok _ _ _ w Hlp)).
    rewrite (bind_ok _ _ _ _ _ (deref_pair_ok _ _ _ w Hat)).
    assert (Hnext : forall x', (S n_in < length R)%nat -> R !! S n_in = Some x' ->
              MPI_Unpack_pair p_in (pos0 + n_in + 1)%nat w
              = Ok (x', (pos0 + S n_in + 1)%nat) w).
    { intros x' _ Hx'. rewrite (unpack_pair_ok _ _ x').
      - f_equal. f_equal. lia.
      - rewrite <- (Hstream _ _ Hx'). f_equal. lia. }
    replace (Z.of_nat n_in + 1) with (Z.of_nat (S n_in)) by lia.
    destruct (global le =? global index) eqn:Eeq.
    + destruct (Z.ltb_spec (Z.of_nat (S n_in)) (Z.of_nat (length R))) as [Hmore|Hlast].
      * assert (Hs : (S n_in < length R)%nat) by lia.
        destruct (lookup_lt_is_Some_2 R (S n_in) Hs) as [x' Hx'].
        rewrite (bind_ok _ _ _ _ _ (Hnext x' Hs Hx')). simpl.
        destruct (IH (S n_in) (S localIndex) x'
                    (remote ++ [RemoteIndex_ctor (attribute (local index)) lp]) w Hx')
          as (remote' & n_in' & position' & Hrun & Hpos & Hne & _); [lia|].
        exists remote', n_in', position'. split; [exact Hrun|]. split; [exact Hpos|].
        assert (Hnonempty : remote' <> []).
        { apply Hne. intros E. now apply app_eq_nil in E as [_ E]. }
        split; auto.
      * exists (remote ++ [RemoteIndex_ctor (attribute (local index)) lp]),
          (S n_in), (pos0 + n_in + 1)%nat.
        split; [reflexivity|].
        split; [left; split; lia|].
        assert (Hnonempty : remote ++ [RemoteIndex_ctor (attribute (local index)) lp] <> []).
        { intros E. now apply app_eq_nil in E as [_ E]. }
        split; auto.
    + destruct (global le <? global index) eqn:Elt.
      * destruct (IH n_in (S localIndex) index remote w Hidx)
          as (remote' & n_in' & position' & Hrun & Hpos & Hne & Hshared); [lia|].
        exists remote', n_in', position'. split; [exact Hrun|]. split; [exact Hpos|].
        split; [exact Hne|].
        intros HaL HaR (i & j & x & y & Hi & Hj & Hx & Hy & Hg).
        apply Hshared; auto.
        exists i, j, x, y. repeat split; auto.
        destruct (decide (i = localIndex)) as [->|]; [|lia].
        assert (x = le) by congruence. subst x.
        pose proof (ascending_lookup R HaR n_in j index y Hj Hidx Hy).
        apply Z.ltb_lt in Elt. lia.
      * apply Z.eqb_neq in Eeq. apply Z.ltb_ge in Elt.
        destruct (Z.ltb_spec (Z.of_nat (S n_in)) (Z.of_nat (length R))) as [Hmore|Hlast].
        -- assert (Hs : (S n_in < length R)%nat) by lia.
           destruct (lookup_lt_is_Some_2 R (S n_in) Hs) as [x' Hx'].
           rewrite (bind_ok _ _ _ _ _ (Hnext x' Hs Hx')). simpl.
           destruct (IH (S n_in) localIndex x' remote w Hx')
             as (remote' & n_in' & position' & Hrun & Hpos & Hne & Hshared); [lia|].
           exists remote', n_in', position'. split; [exact Hrun|]. split; [exact Hpos|].
           split; [exact Hne|].
           intros HaL HaR (i & j & x & y & Hi & Hj & Hx & Hy & Hg).
           apply Hshared; auto.
           exists i, j, x, y. repeat split; auto.
           destruct (decide (j = n_in)) as [->|]; [|lia].
           assert (y = index) by congruence. subst y.
           pose proof (ascending_lookup Ls HaL localIndex i le x Hi Hle Hx). lia.
        -- exists remote, (S n_in), (pos0 + n_in + 1)%nat.
           split; [reflexivity|].
           split; [left; split; lia|].
           split; [auto|].
           intros HaL HaR (i & j & x & y & Hi & Hj & Hx & Hy & Hg).
           exfalso.
           pose proof (lookup_lt_Some _ _ _ Hy) as Hjn.
           assert (j = n_in) by lia. subst j.
           assert (y = index) by congruence. subst y.
           pose proof (ascending_lookup Ls HaL localIndex i le x Hi Hle Hx). lia.
  - exists remote, n_in, (pos0 + n_in + 1)%nat.
    split; [reflexivity|].
    split; [right; split; [exact Hn|reflexivity]|].
    split; [auto|].
    intros _ _ (i & j & x & y & Hi & Hj & Hx & Hy & Hg). exfalso.
    apply lookup_lt_Some in Hx.
    rewrite <- (Forall2_length _ _ _ Hlocals) in Hx. lia.
Qed.

(** The one-list [unpackIndices] on a well-formed stream consumes the whole
    stream, touches no list but [remote], and leaves [remote] non-empty
    when both sides are ascending and share a global id. *)
Lemma unpackIndices_ok remote l w :
  heap w !! remote = Some l ->
  exists w' l',
    unpackIndices σ remote (Z.of_nat (length R)) locals (length locals) p_in pos0 w
    = Ok (pos0 + length R)%nat w' /\
    trace w' = trace w /\
    dom (heap w') = dom (heap w) /\
    (forall p, p <> remote -> heap w' !! p = heap w !! p) /\
    heap w' !! remote = Some l' /\
    (ascending Ls -> ascending R ->
     (exists x y, x ∈ Ls /\ y ∈ R /\ global x = global y) -> l' <> []).
Proof.
  intros Hl. unfold unpackIndices.
  destruct (R !! 0%nat) as [x0|] eqn:H0.
  2:{ apply lookup_ge_None in H0.
      assert (E : R = []) by (apply nil_length_inv; lia).
      exists w, l. rewrite E. simpl. rewrite Nat.add_0_r. split; [reflexivity|].
      repeat split; auto.
      intros _ _ (x & y & _ & Hy & _). now apply elem_of_nil in Hy. }
  - assert (Hnz : (Z.of_nat (length R) =? 0) = false).
    { apply Z.eqb_neq. apply lookup_lt_Some in H0. lia. }
    rewrite Hnz.
    pose proof (Hstream _ _ H0) as Hp0. rewrite Nat.add_0_r in Hp0.
    rewrite (bind_ok _ _ _ _ _ (unpack_pair_ok _ _ _ w Hp0)). simpl.
    rewrite (bind_ok _ _ _ l w); [|unfold read_list; now rewrite Hl].
    destruct (unpackIndices_loop_ok
                (length locals + Z.to_nat (Z.of_nat (length R)) + 1) 0 0 x0 l w H0)
      as (remote' & n_in' & position' & Hrun & Hpos & _ & Hshared); [lia|].
    replace (pos0 + 0 + 1)%nat with (S pos0) in Hrun by lia.
    rewrite (bind_ok _ _ _ _ _ Hrun). simpl.
    set (w' := {| heap := <[remote := remote']> (heap w); trace := trace w |}).
    rewrite (bind_ok _ _ _ tt w'); [|unfold write_list; now rewrite Hl].
    exists w', remote'. split.
    + destruct Hpos as [[-> ->]|[Hlt ->]].
      * replace (Z.to_nat (Z.of_nat (length R) - Z.of_nat (length R) - 1)) with 0%nat by lia.
        reflexivity.
      * rewrite unpack_rest_ok.
        -- f_equal. lia.
        -- intros j Hj.
           destruct (lookup_lt_is_Some_2 R (n_in' + 1 + j)) as [y Hy]; [lia|].
           exists y. rewrite <- (Hstream _ _ Hy). f_equal. lia.
    + split; [reflexivity|]. split.
      { simpl. rewrite dom_insert_L. apply subseteq_union_1_L.
        apply singleton_subseteq_l, elem_of_dom. eauto. }
      split; [intros p Hp; simpl; now rewrite lookup_insert_ne|].
      split; [simpl; apply lookup_insert_eq|].
      intros HaL HaR (x & y & Hx & Hy & Hg). apply Hshared; auto.
      apply list_elem_of_lookup in Hx as [i Hi].
      apply list_elem_of_lookup in Hy as [j Hj].
      exists i, j, x, y. repeat split; auto; lia.
Qed.
End Merge.

(** ** Packing the own message *)

Lemma packEntries_spec ignorePublic a (recs : list IndexPair) :
  forall slot pairs (p_out : Buffer) position,
  length p_out = position ->
  packEntries ignorePublic a slot recs pairs p_out position =
  (pairs ++ map (fun e => slot_of a (fst e)) (published_from ignorePublic slot recs),
   p_out ++ map (fun e => PackedPair (snd e)) (published_from ignorePublic slot recs),
   (position + length (published_from ignorePublic slot recs))%nat).
Proof.
  induction recs as [|x recs IH]; intros slot pairs p_out position Hlen; simpl.
  - rewrite !app_nil_r. f_equal. lia.
  - destruct (ignorePublic || isPublic (local x)).
    + unfold MPI_Pack. rewrite <- Hlen, firstn_all, IH.
      * simpl. rewrite <- !app_assoc. simpl. f_equal. lia.
      * rewrite length_app. simpl. lia.
    + now apply IH.
Qed.

Lemma published_from_lookup ignorePublic (recs : list IndexPair) : forall slot i x,
  (i, x) ∈ published_from ignorePublic slot recs ->
  (slot <= i)%nat /\ recs !! (i - slot)%nat = Some x.
Proof.
  induction recs as [|y recs IH]; intros slot i x H; simpl in H.
  - now apply elem_of_nil in H.
  - assert (Hrest : (i, x) ∈ published_from ignorePublic (S slot) recs ->
                    (slot <= i)%nat /\ (y :: recs) !! (i - slot)%nat = Some x).
    { intros H'. apply IH in H' as [Hle Hx]. split; [lia|].
      replace (i - slot)%nat with (S (i - S slot)) by lia. exact Hx. }
    destruct (ignorePublic || isPublic (local y)); [|auto].
    apply elem_of_cons in H as [[= -> ->]|H]; [|auto].
    split; [lia|]. now rewrite Nat.sub_diag.
Qed.

Lemma published_from_length ignorePublic (s : ParallelIndexSet) slot :
  length (published_from ignorePublic slot (records s)) = publish_count ignorePublic s.
Proof.
  unfold publish_count. revert slot.
  induction (records s) as [|x recs IH]; intros slot; simpl.
  - now destruct ignorePublic.
  - destruct ignorePublic; simpl in *.
    + now rewrite IH.
    + destruct (isPublic (local x)); simpl; now rewrite IH.
Qed.

Lemma published_from_elem ignorePublic (recs : list IndexPair) x : forall slot,
  x ∈ recs -> (ignorePublic = true \/ isPublic (local x) = true) ->
  x ∈ map snd (published_from ignorePublic slot recs).
Proof.
  induction recs as [|y recs IH]; intros slot Hin Hpub.
  - now apply elem_of_nil in Hin.
  - simpl. apply elem_of_cons in Hin as [->|Hin].
    + assert (E : ignorePublic || isPublic (local y) = true).
      { destruct Hpub as [->| ->]; [reflexivity|apply orb_true_r]. }
      rewrite E. simpl. apply elem_of_cons. now left.
    + destruct (ignorePublic || isPublic (local y)); simpl.
      * apply elem_of_cons. right. now apply IH.
      * now apply IH.
Qed.

Lemma published_from_sub ignorePublic (recs : list IndexPair) : forall slot x,
  x ∈ map snd (published_from ignorePublic slot recs) -> x ∈ recs.
Proof.
  induction recs as [|y recs IH]; intros slot x H; simpl in H.
  - exact H.
  - destruct (ignorePublic || isPublic (local y)); simpl in H.
    + apply elem_of_cons in H as [->|H]; apply elem_of_cons; eauto.
    + apply elem_of_cons. eauto.
Qed.

Lemma ascending_published ignorePublic (recs : list IndexPair) : forall slot,
  ascending recs -> ascending (map snd (published_from ignorePublic slot recs)).
Proof.
  unfold ascending. induction recs as [|y recs IH]; intros slot H; simpl.
  - constructor.
  - apply StronglySorted_inv in H as [Hs Hall].
    destruct (ignorePublic || isPublic (local y)); simpl; [|now apply IH].
    constructor; [now apply IH|].
    rewrite Forall_forall in *. intros x Hx.
    apply Hall. now apply published_from_sub in Hx.
Qed.

Lemma published_from_pointers ignorePublic (σ : Store) a (s : ParallelIndexSet) :
  σ !! a = Some s ->
  Forall2 (fun p x => pair_at σ p = Some x)
    (map (fun e => slot_of a (fst e)) (published_from ignorePublic 0 (records s)))
    (map snd (published_from ignorePublic 0 (records s))).
Proof.
  intros Ha. apply Forall2_fmap, Forall_Forall2_diag, Forall_forall.
  intros [i x] Hin. simpl. rewrite Ha. simpl.
  apply published_from_lookup in Hin as [_ Hx].
  now rewrite Nat.sub_0_r in Hx.
Qed.

(** ** Hop 0 with two index sets *)

Lemma StdMap_find_insert_some {V} k k' (v' : V) m :
  is_Some (StdMap.find k m) -> is_Some (StdMap.find k (StdMap.insert k' v' m)).
Proof.
  induction m as [|[k0 v0] m IH]; simpl; intros H.
  - now destruct H.
  - destruct (k' <? k0) eqn:L; simpl.
    + destruct (k =? k'); [eauto|exact H].
    + destruct (k' =? k0); simpl; [exact H|].
      destruct (k =? k0); [exact H|auto].
Qed.

Lemma StdMap_find_insert_self {V} k (v : V) m :
  is_Some (StdMap.find k (StdMap.insert k v m)).
Proof.
  induction m as [|[k0 v0] m IH]; simpl.
  - rewrite Z.eqb_refl. eauto.
  - destruct (k <? k0) eqn:L; simpl.
    + rewrite Z.eqb_refl. eauto.
    + destruct (k =? k0) eqn:E; simpl; rewrite E; eauto.
Qed.

Lemma StdMap_find_size {V} k (m : list (Z * V)) :
  is_Some (StdMap.find k m) -> 1 <= StdMap.size m.
Proof.
  destruct m; simpl; intros H; [now destruct H|].
  unfold StdMap.size. simpl. lia.
Qed.

Section TwoSetMessage.
Variable σ : Store.
Variable su : Setup.
Variable st : Ring.
Variable inb : Z.
Variable c : Z.
Variable Rs Rt : list IndexPair.
Hypothesis Htwo : sendTwo su = true.
Hypothesis Hc : c <> 0.
Hypothesis Hbuf : buffer st inb =
  [PackedChar c; PackedInt (Z.of_nat (length Rs)); PackedInt (Z.of_nat (length Rt))]
  ++ map PackedPair Rs ++ map PackedPair Rt.
Hypothesis Hsp : exists Ls, Forall2 (fun p x => pair_at σ p = Some x) (sourcePairs st) Ls.
Hypothesis Hdp : exists Lt, Forall2 (fun p x => pair_at σ p = Some x) (destPairs st) Lt.
Hypothesis Hsn : sourcePublish su = length (sourcePairs st).
Hypothesis Hdn : destPublish su = length (destPairs st).

Lemma stream_source j x :
  Rs !! j = Some x -> buffer st inb !! (3 + j)%nat = Some (PackedPair x).
Proof.
  intros H. rewrite Hbuf. simpl.
  rewrite lookup_app_l by (rewrite length_map; now apply lookup_lt_Some in H).
  now rewrite list_lookup_fmap, H.
Qed.

Lemma stream_target j x :
  Rt !! j = Some x -> buffer st inb !! (3 + length Rs + j)%nat = Some (PackedPair x).
Proof.
  intros H. rewrite Hbuf. simpl.
  rewrite lookup_app_r by (rewrite length_map; lia).
  rewrite length_map.
  replace (length Rs + j - length Rs)%nat with j by lia.
  now rewrite list_lookup_fmap, H.
Qed.

(** A message of a process with two index sets is unpacked to its end
    whatever it holds; it is filed under the sender when a record of its
    first half is matched by a record of the own target set. *)
Lemma process_two_set_message proc w :
  exists st' w',
    process_message σ su proc inb st w = Ok st' w' /\
    sourcePairs st' = sourcePairs st /\ destPairs st' = destPairs st /\
    forall Lt, Forall2 (fun p x => pair_at σ p = Some x) (destPairs st) Lt ->
      ascending Lt -> ascending Rs ->
      (exists x y, x ∈ Lt /\ y ∈ Rs /\ global x = global y) ->
      exists send receive,
        lists st' = StdMap.insert (Z.rem (the_rank su + the_procs su - proc) (the_procs su))
                      (send, receive) (lists st) /\
        trace w' = trace w.
Proof.
  destruct Hsp as [Ls HLs]. destruct Hdp as [Lt0 HLt0].
  unfold process_message. rewrite Htwo, Hdn, Hsn.
  rewrite (bind_ok _ _ _ (c, 1%nat) w);
    [|apply unpack_char_ok; now rewrite Hbuf].
  rewrite (bind_ok _ _ _ (Z.of_nat (length Rs), 2%nat) w);
    [|apply unpack_int_ok; now rewrite Hbuf].
  rewrite (bind_ok _ _ _ (Z.of_nat (length Rt), 3%nat) w);
    [|apply unpack_int_ok; now rewrite Hbuf].
  simpl. apply Z.eqb_neq in Hc. rewrite Hc.
  rewrite (bind_ok _ _ _ _ _ (new_list_ok w)).
  set (receive := fresh (dom (heap w))).
  set (w1 := {| heap := <[receive := []]> (heap w); trace := trace w |}).
  assert (Hl1 : heap w1 !! receive = Some []) by (simpl; apply lookup_insert_eq).
  destruct (unpackIndices_ok σ (destPairs st) Lt0 Rs (buffer st inb) 3 HLt0
              stream_source receive [] w1 Hl1)
    as (w2 & l2 & Hrun2 & Htr2 & Hdom2 & Hother2 & Hrecv2 & _).
  rewrite bind_assoc, (bind_ok _ _ _ _ _ Hrun2).
  rewrite bind_assoc, (bind_ok _ _ _ _ _ (new_list_ok w2)).
  set (send := fresh (dom (heap w2))).
  set (w3 := {| heap := <[send := []]> (heap w2); trace := trace w2 |}).
  assert (Hsr : send <> receive).
  { intros E. pose proof (is_fresh (dom (heap w2))) as Hf. fold send in Hf.
    apply Hf. rewrite E. apply elem_of_dom. eauto. }
  assert (Hl3 : heap w3 !! send = Some []) by (simpl; apply lookup_insert_eq).
  destruct (unpackIndices_ok σ (sourcePairs st) Ls Rt (buffer st inb) (3 + length Rs) HLs
              stream_target send [] w3 Hl3)
    as (w4 & l4 & Hrun4 & Htr4 & Hdom4 & Hother4 & Hsend4 & _).
  rewrite bind_assoc, (bind_ok _ _ _ _ _ Hrun4), !bind_ret. simpl.
  assert (Hrecv4 : heap w4 !! receive = Some l2).
  { rewrite Hother4 by auto. simpl. now rewrite lookup_insert_ne. }
  rewrite (bind_ok _ _ _ l2 w4); [|unfold read_list; now rewrite Hrecv4].
  rewrite (bind_ok _ _ _ l4 w4); [|unfold read_list; now rewrite Hsend4].
  assert (Hfiled : forall Lt, Forall2 (fun p x => pair_at σ p = Some x) (destPairs st) Lt ->
            ascending Lt -> ascending Rs ->
            (exists x y, x ∈ Lt /\ y ∈ Rs /\ global x = global y) -> l2 <> []).
  { intros Lt HLt HaT HaS Hshared.
    destruct (unpackIndices_ok σ (destPairs st) Lt Rs (buffer st inb) 3 HLt
                stream_source receive [] w1 Hl1)
      as (w2' & l2' & Hrun2' & _ & _ & _ & Hrecv2' & Hne).
    rewrite Hrun2 in Hrun2'. injection Hrun2' as <-.
    rewrite Hrecv2 in Hrecv2'. injection Hrecv2' as <-. auto. }
  assert (Htr : trace w4 = trace w).
  { rewrite Htr4. simpl. rewrite Htr2. reflexivity. }
  destruct l2 as [|r l2]; [destruct l4 as [|s l4]|].
  - rewrite decide_False by exact Hsr.
    rewrite (bind_ok _ _ _ _ _ (delete_two_ok send receive w4 Hsr
               ltac:(rewrite Hsend4; eauto) ltac:(rewrite Hrecv4; eauto))).
    eexists _, _. split; [reflexivity|]. split; [reflexivity|]. split; [reflexivity|].
    intros Lt HLt HaT HaS Hshared. now destruct (Hfiled Lt HLt HaT HaS Hshared).
  - eexists _, w4. split; [reflexivity|]. split; [reflexivity|]. split; [reflexivity|].
    intros _ _ _ _ _. exists send, receive. split; [reflexivity|exact Htr].
  - eexists _, w4. split; [reflexivity|]. split; [reflexivity|]. split; [reflexivity|].
    intros _ _ _ _ _. exists send, receive. split; [reflexivity|exact Htr].
Qed.
End TwoSetMessage.

Lemma pack_own_two ignorePublic (su : Setup) (st : Ring) :
  sendTwo su = true -> buffer1 st = [] -> position st = 0%nat ->
  pack_own ignorePublic su 1 st =
  set_pairs
    (map (fun e => slot_of (source_addr su) (fst e))
       (published_from ignorePublic 0 (records (source_set su))))
    (map (fun e => slot_of (target_addr su) (fst e))
       (published_from ignorePublic 0 (records (target_set su))))
    (set_position
       (3 + length (published_from ignorePublic 0 (records (source_set su)))
          + length (published_from ignorePublic 0 (records (target_set su))))%nat
       (set_buffer 1
          ([PackedChar 1; PackedInt (Z.of_nat (sourcePublish su));
            PackedInt (Z.of_nat (destPublish su))]
           ++ map PackedPair (map snd (published_from ignorePublic 0 (records (source_set su))))
           ++ map PackedPair (map snd (published_from ignorePublic 0 (records (target_set su)))))
          st)).
Proof.
  intros Htwo Hb Hp. unfold pack_own. rewrite Htwo.
  unfold buffer. simpl. rewrite Hb, Hp. unfold MPI_Pack. simpl.
  rewrite packEntries_spec by reflexivity. simpl.
  rewrite packEntries_spec.
  2:{ simpl. rewrite length_map. reflexivity. }
  simpl. rewrite !map_map. reflexivity.
Qed.

Lemma hop0_own_entry ignorePublic (σ : Store) (recv : Z -> Buffer) (su : Setup)
    (st : Ring) (w : World) :
  sendTwo su = true ->
  σ !! source_addr su = Some (source_set su) ->
  σ !! target_addr su = Some (target_set su) ->
  sourcePublish su = publish_count ignorePublic (source_set su) ->
  destPublish su = publish_count ignorePublic (target_set su) ->
  buffer0 st = [] -> buffer1 st = [] -> position st = 0%nat ->
  ascending (records (source_set su)) ->
  ascending (records (target_set su)) ->
  (exists g, publishes ignorePublic (source_set su) g /\
             publishes ignorePublic (target_set su) g) ->
  exists st' w' send receive payload,
    hop ignorePublic σ recv su 0 st w = Ok st' w' /\
    lists st' = StdMap.insert (Z.rem (the_rank su + the_procs su - 0) (the_procs su))
                  (send, receive) (lists st) /\
    trace w' = trace w ++ [MPI_Sendrecv (the_rank su) payload] /\
    paired σ su st'.
Proof.
  intros Htwo Hs Ht Hsn Hdn Hb0 Hb1 Hp HaS HaT (g & HgS & HgT).
  unfold hop. cbv zeta. change (0 =? 0) with true. rewrite Htwo.
  change (Z.rem 0 2) with 0. change (1 - 0) with 1.
  rewrite orb_true_r. simpl andb. simpl negb. cbv iota.
  rewrite (pack_own_two ignorePublic su st Htwo Hb1 Hp).
  set (pubS := published_from ignorePublic 0 (records (source_set su))).
  set (pubT := published_from ignorePublic 0 (records (target_set su))).
  set (msg := [PackedChar 1; PackedInt (Z.of_nat (sourcePublish su));
               PackedInt (Z.of_nat (destPublish su))]
              ++ map PackedPair (map snd pubS) ++ map PackedPair (map snd pubT)).
  match goal with
  | |- context [set_buffer 0 _ ?s] => set (st1 := s)
  end.
  assert (Hlen : length msg = (3 + length pubS + length pubT)%nat).
  { unfold msg. simpl. rewrite length_app, !length_map. lia. }
  assert (Hpos1 : position st1 = (3 + length pubS + length pubT)%nat) by reflexivity.
  assert (Hbuf1 : buffer st1 1 = msg) by reflexivity.
  rewrite Hbuf1, Hpos1, <- Hlen, firstn_all.
  rewrite (bind_ok _ _ _ tt {| heap := heap w;
             trace := trace w ++ [MPI_Sendrecv (the_rank su) msg] |}) by reflexivity.
  match goal with
  | |- context [process_message σ su 0 0 ?s] => set (st2 := s)
  end.
  destruct (process_two_set_message σ su st2 0 1 (map snd pubS) (map snd pubT) Htwo) with
    (proc := 0) (w := {| heap := heap w; trace := trace w ++ [MPI_Sendrecv (the_rank su) msg] |})
    as (st' & w' & Hrun & HsP & HdP & Hfiled).
  - discriminate.
  - unfold st2, buffer. simpl. unfold msg. simpl.
    rewrite !length_map. unfold pubS, pubT.
    now rewrite !published_from_length, <- Hsn, <- Hdn.
  - exists (map snd pubS). unfold st2. simpl. now apply published_from_pointers.
  - exists (map snd pubT). unfold st2. simpl. now apply published_from_pointers.
  - unfold st2. simpl. rewrite length_map. unfold pubS.
    now rewrite published_from_length.
  - unfold st2. simpl. rewrite length_map. unfold pubT.
    now rewrite published_from_length.
  - destruct (Hfiled (map snd pubT)) as (send & receive & Hlists & Htr).
    + unfold st2. simpl. now apply published_from_pointers.
    + now apply ascending_published.
    + now apply ascending_published.
    + destruct HgS as (x & Hx & Hgx & Hpx). destruct HgT as (y & Hy & Hgy & Hpy).
      exists y, x. split; [now apply published_from_elem|].
      split; [now apply published_from_elem|]. congruence.
    + exists st', w', send, receive, msg. split; [exact Hrun|].
      split; [exact Hlists|]. split; [exact Htr|].
      unfold paired. rewrite HsP, HdP. unfold st2. simpl.
      split; [exists (map snd pubS); now apply published_from_pointers|].
      split; [exists (map snd pubT); now apply published_from_pointers|].
      rewrite !length_map. unfold pubS, pubT.
      now rewrite !published_from_length.
Qed.

(** ** Entries survive the later hops *)

Lemma keeps_bind {A} k (m : M A) (f : A -> M Ring) :
  (forall a, keeps k (f a)) -> keeps k (bind m f).
Proof.
  intros H w st' w' Hrun. apply bind_inv_ok in Hrun as (a & w1 & _ & Hrun).
  now apply (H a w1 st' w').
Qed.

Lemma keeps_ret k (st : Ring) : is_Some (StdMap.find k (lists st)) -> keeps k (ret st).
Proof. intros H w st' w' [= <- _]. exact H. Qed.

Lemma process_message_keeps k σ su proc inb st :
  is_Some (StdMap.find k (lists st)) -> keeps k (process_message σ su proc inb st).
Proof.
  intros H. unfold process_message. cbv zeta.
  do 7 (apply keeps_bind; intros ?).
  destruct a4, a5; try (apply keeps_bind; intros ?); apply keeps_ret; simpl;
    auto using StdMap_find_insert_some.
Qed.

Lemma pack_own_lists ignorePublic su out st :
  lists (pack_own ignorePublic su out st) = lists st.
Proof.
  unfold pack_own.
  repeat match goal with
         | |- context [let '(_, _) := ?x in _] => destruct x
         end.
  now destruct (sendTwo su).
Qed.

Lemma hop_keeps k ignorePublic σ recv su proc st :
  is_Some (StdMap.find k (lists st)) -> keeps k (hop ignorePublic σ recv su proc st).
Proof.
  intros H. unfold hop. cbv zeta.
  match goal with
  | |- context [if ?c then pack_own ?a ?b ?d ?e else _] =>
      assert (Hl : is_Some (StdMap.find k (lists (if c then pack_own a b d e else st))))
        by (destruct c; [rewrite pack_own_lists|]; exact H);
      generalize dependent (if c then pack_own a b d e else st)
  end.
  intros st1 Hl.
  destruct (proc =? 0).
  - destruct (sendTwo su).
    + apply keeps_bind. intros _. now apply process_message_keeps.
    + now apply keeps_ret.
  - apply keeps_bind. intros _. now apply process_message_keeps.
Qed.

Lemma ring_keeps k n ignorePublic σ recv su : forall proc st,
  is_Some (StdMap.find k (lists st)) -> keeps k (ring n ignorePublic σ recv su proc st).
Proof.
  induction n as [|n IH]; intros proc st H; simpl.
  - now apply keeps_ret.
  - intros w st' w' Hrun. apply bind_inv_ok in Hrun as (st1 & w1 & Hhop & Hrun).
    apply (IH (proc + 1) st1) in Hrun; [exact Hrun|].
    now apply (hop_keeps k _ _ _ _ _ _ H) in Hhop.
Qed.

(** ** The later hops complete on the messages of two-set peers *)

Lemma buffer_set_buffer i b st : buffer (set_buffer i b st) i = b.
Proof. unfold buffer, set_buffer. simpl. now destruct (i =? 0). Qed.

Lemma hop_two_set_message ignorePublic σ recv su proc st w :
  proc <> 0 -> sendTwo su = true -> paired σ su st ->
  two_set_message (recv proc) ->
  exists st' w', hop ignorePublic σ recv su proc st w = Ok st' w' /\ paired σ su st'.
Proof.
  intros Hproc Htwo (Hsp & Hdp & Hsn & Hdn) (c & Rs & Rt & Hc & Hmsg).
  unfold hop. cbv zeta. apply Z.eqb_neq in Hproc. rewrite Hproc. simpl andb. cbv iota.
  match goal with
  | |- context [bind ?m _ w] =>
      assert (Hsent : exists w1, m w = Ok tt w1)
        by (destruct (Z.rem (the_rank su) 2 =? 0); eexists; reflexivity)
  end.
  destruct Hsent as [w1 Hsent]. rewrite (bind_ok _ _ _ _ _ Hsent).
  destruct (process_two_set_message σ su
              (set_buffer (Z.rem proc 2) (recv proc) st) (Z.rem proc 2) c Rs Rt Htwo Hc)
    with (proc := proc) (w := w1) as (st' & w' & Hrun & HsP & HdP & _);
    try assumption.
  - rewrite buffer_set_buffer. exact Hmsg.
  - exists st', w'. split; [exact Hrun|].
    unfold paired. rewrite HsP, HdP. simpl. auto.
Qed.

Lemma ring_two_set_messages ignorePublic σ recv su n : forall proc st w,
  0 < proc -> sendTwo su = true -> paired σ su st ->
  (forall p, proc <= p < proc + Z.of_nat n -> two_set_message (recv p)) ->
  exists st' w', ring n ignorePublic σ recv su proc st w = Ok st' w'.
Proof.
  induction n as [|n IH]; intros proc st w Hproc Htwo Hpaired Hmsgs; simpl.
  - eexists _, _. reflexivity.
  - destruct (hop_two_set_message ignorePublic σ recv su proc st w)
      as (st1 & w1 & Hhop & Hpaired1); auto; [lia|apply Hmsgs; lia|].
    rewrite (bind_ok _ _ _ _ _ Hhop).
    apply IH; auto; [lia|]. intros p Hp. apply Hmsgs. lia.
Qed.

Lemma StdMap_find_elem {V} k (m : list (Z * V)) v :
  StdMap.find k m = Some v -> (k, v) ∈ m.
Proof.
  induction m as [|[k0 v0] m IH]; simpl; [discriminate|].
  destruct (k =? k0) eqn:E.
  - apply Z.eqb_eq in E as ->. intros [= ->]. apply elem_of_cons. now left.
  - intros H. apply elem_of_cons. right. auto.
Qed.

(** ** The process as its own neighbour *)

Lemma own_rank_rem (comm : Comm) :
  0 <= rank comm < procs comm ->
  Z.rem (rank comm + procs comm - 0) (procs comm) = rank comm.
Proof.
  intros H. rewrite Z.sub_0_r, Z.rem_mod_nonneg by lia.
  rewrite <- (Z.mul_1_l (procs comm)) at 1.
  rewrite Z_mod_plus_full. apply Z.mod_small. lia.
Qed.

(** C10.  Let the source and the target index set be distinct objects,
    both in ascending order and both publishing a global id [g].  Hop 0 of
    the discovery protocol then is a send-receive with the own rank, and the
    registry of every completed [rebuild] has an entry keyed by the own rank:
    it is among the entries that [begin()]/[end()] traverse and is counted by
    [neighbours()].  The rebuild completes when every message that arrives
    from a peer is one of a process with two index sets; on a communicator
    of one process no message arrives. *)
Theorem rebuild_own_rank_entry (ignorePublic : bool) (σ : Store) (recv : Z -> Buffer)
    (comm : Comm) (a b : positive) (S T : ParallelIndexSet) (g : GlobalIndex)
    (w : World) :
  a <> b -> σ !! a = Some S -> σ !! b = Some T ->
  0 <= rank comm < procs comm ->
  ascending (records S) -> ascending (records T) ->
  publishes ignorePublic S g -> publishes ignorePublic T g ->
  (forall r' w',
     rebuild ignorePublic σ recv (RemoteIndices_ctor a b comm) w = Ok r' w' ->
     (exists l, (rank comm, l) ∈ RemoteIndices_entries r') /\
     1 <= neighbours r' /\
     exists payload, MPI_Sendrecv (rank comm) payload ∈ trace w') /\
  ((forall p, 1 <= p < procs comm -> two_set_message (recv p)) ->
   exists r' w', rebuild ignorePublic σ recv (RemoteIndices_ctor a b comm) w = Ok r' w').
Proof.
  intros Hab Ha Hb Hrank HaS HaT HgS HgT.
  set (su := {| the_rank := rank comm; the_procs := procs comm; sendTwo := true;
                source_addr := a; source_set := S; target_addr := b; target_set := T;
                sourcePublish := publish_count ignorePublic S;
                destPublish := publish_count ignorePublic T |}).
  set (st0 := {| buffer0 := []; buffer1 := []; position := 0;
                 sourcePairs := []; destPairs := []; lists := [] |}).
  set (wA := {| heap := heap w;
                trace := trace w ++ [MPI_Allreduce
                  (Z.of_nat (publish_count ignorePublic S + publish_count ignorePublic T))] |}).
  set (finish := fun st : Ring =>
         set_publicIgnored ignorePublic
           (set_firstBuild false
              (set_seqNos (seqNo S) (seqNo T)
                 (set_remoteIndices_ (lists st)
                    (set_firstBuild true
                       (set_remoteIndices_ [] (RemoteIndices_ctor a b comm))))))).
  assert (Hrebuild :
    rebuild ignorePublic σ recv (RemoteIndices_ctor a b comm) w =
    (st <- ring (Z.to_nat (procs comm)) ignorePublic σ recv su 0 st0 ;;
     emit MPI_Barrier ;;; ret (finish st)) wA).
  { unfold rebuild, free, buildRemote. simpl firstBuild. cbv iota.
    rewrite bind_ret. simpl free_lists.
    rewrite (bind_assoc (ret tt)), bind_ret, bind_ret.
    simpl comm_. simpl source_. simpl target_. simpl remoteIndices_.
    rewrite bool_decide_true by congruence.
    rewrite bind_assoc. unfold from_option at 1. rewrite bind_ret.
    rewrite bind_assoc. unfold from_option at 1. rewrite bind_ret.
    rewrite bind_assoc, (bind_ok _ _ _ _ _ (deref_set_ok _ _ _ w Ha)).
    rewrite bind_assoc. unfold from_option at 1. rewrite bind_ret.
    rewrite bind_assoc, (bind_ok _ _ _ _ _ (deref_set_ok _ _ _ w Hb)).
    rewrite bind_assoc. rewrite (bind_ok _ _ _ tt wA) by reflexivity.
    fold su. fold st0.
    rewrite bind_assoc. apply bind_ext. intros st w1.
    rewrite bind_assoc. rewrite (bind_ok _ _ _ tt {| heap := heap w1;
       trace := trace w1 ++ [MPI_Barrier] |}) by reflexivity.
    rewrite (bind_ok _ _ _ tt {| heap := heap w1;
       trace := trace w1 ++ [MPI_Barrier] |}) by reflexivity.
    rewrite !bind_ret. simpl source_. simpl target_.
    rewrite (bind_ok _ _ _ _ _ (deref_set_ok _ _ _ _ Ha)).
    rewrite (bind_ok _ _ _ _ _ (deref_set_ok _ _ _ _ Hb)).
    reflexivity. }
  destruct (hop0_own_entry ignorePublic σ recv su st0 wA)
    as (st1 & w1 & send & receive & payload & Hhop & Hlists & Htr & Hpaired);
    try reflexivity; try assumption; [now exists g|].
  simpl the_rank in *. simpl the_procs in *.
  rewrite (own_rank_rem comm Hrank) in Hlists.
  assert (Hsome : is_Some (StdMap.find (rank comm) (lists st1))).
  { rewrite Hlists. apply StdMap_find_insert_self. }
  assert (Hn : Z.to_nat (procs comm) = Datatypes.S (Z.to_nat (procs comm) - 1)) by lia.
  rewrite Hn in Hrebuild. simpl ring in Hrebuild.
  rewrite bind_assoc, (bind_ok _ _ _ _ _ Hhop) in Hrebuild.
  split.
  - intros r' w' Hrun. rewrite Hrebuild in Hrun.
    apply bind_inv_ok in Hrun as (st' & w2 & Hring & Hrun).
    apply bind_inv_ok in Hrun as (u & w3 & Hemit & Hrun).
    injection Hrun as <- <-.
    pose proof (ring_keeps _ _ _ _ _ _ _ _ Hsome _ _ _ Hring) as [l Hl].
    split; [exists l; now apply StdMap_find_elem|].
    split; [apply (StdMap_find_size (rank comm)); simpl; eauto|].
    exists payload.
    apply appends_ring in Hring as [t2 E2]. apply appends_emit in Hemit as [t3 E3].
    rewrite E3, E2, Htr. rewrite !elem_of_app. left. left. right.
    apply elem_of_cons. now left.
  - intros Hmsgs.
    destruct (ring_two_set_messages ignorePublic σ recv su
                (Z.to_nat (procs comm) - 1) (0 + 1) st1 w1)
      as (st' & w' & Hring);
      [lia|reflexivity|exact Hpaired|intros p Hp; apply Hmsgs; lia|].
    rewrite Hrebuild, (bind_ok _ _ _ _ _ Hring). eexists _, _. reflexivity.
Qed.

Lemma rebuild_own_rank_entry_witness :
  exists r' w',
    rebuild false two_set_store (fun _ => example_two_set_message)
      (RemoteIndices_ctor 1 2 example_comm) empty_world = Ok r' w' /\
    (exists l, (0, l) ∈ RemoteIndices_entries r') /\
    1 <= neighbours r'.
Proof.
  assert (Hasc : forall l : list Z,
            StronglySorted Z.le l -> ascending (map example_pair l)).
  { intros l. induction 1 as [|x l Hs IH Hall]; simpl; constructor; auto.
    apply Forall_forall. intros y Hy.
    apply list_elem_of_fmap in Hy as (z & -> & Hz). simpl.
    rewrite Forall_forall in Hall. auto. }
  destruct (rebuild_own_rank_entry false two_set_store (fun _ => example_two_set_message)
              example_comm 1 2 example_set example_target 5 empty_world)
    as [Hall Hdone].
  - discriminate.
  - reflexivity.
  - reflexivity.
  - simpl. lia.
  - apply Hasc. repeat constructor; lia.
  - apply Hasc. repeat constructor; lia.
  - exists (example_pair 5). split; [|split; [reflexivity|now right]].
    simpl. rewrite !elem_of_cons. auto.
  - exists (example_pair 5). split; [|split; [reflexivity|now right]].
    simpl. rewrite !elem_of_cons. auto.
  - destruct Hdone as (r' & w' & Hrun).
    { intros p _. exists 1, [example_pair 5], [example_pair 5].
      split; [discriminate|reflexivity]. }
    exists r', w'. split; [exact Hrun|].
    destruct (Hall r' w' Hrun) as (Hentry & Hn & _). auto.
Defined.

(** ** The step budgets suffice *)

Lemma within_budget_bind {A B} (m : M A) (k : A -> M B) :
  within_budget m -> (forall a, within_budget (k a)) -> within_budget (bind m k).
Proof.
  intros Hm Hk w. unfold bind. specialize (Hm w).
  destruct (m w) as [a w'| |f]; [apply Hk|discriminate|congruence].
Qed.

Lemma within_budget_ret {A} (a : A) : within_budget (ret a).
Proof. intros w. discriminate. Qed.

Lemma within_budget_from_option {A} f (o : option A) :
  f <> StepBudget -> within_budget (from_option f o).
Proof. intros Hf w. destruct o; simpl; [discriminate|]. unfold fault. congruence. Qed.

Lemma within_budget_deref_pair σ p : within_budget (deref_pair σ p).
Proof.
  destruct p; simpl; [intros w; discriminate|].
  now apply within_budget_from_option.
Qed.

Lemma within_budget_global_of σ r : within_budget (global_of σ r).
Proof.
  unfold global_of, localIndexPair. apply within_budget_bind.
  - apply within_budget_deref_pair.
  - intros x. apply within_budget_ret.
Qed.

Lemma within_budget_unpack_pair b p : within_budget (MPI_Unpack_pair b p).
Proof.
  intros w. unfold MPI_Unpack_pair.
  destruct (b !! p) as [[| |]|]; discriminate.
Qed.

Lemma within_budget_array_read l i : within_budget (array_read l i).
Proof. now apply within_budget_from_option. Qed.

(** The merge loop of the one-list [unpackIndices] makes at most
    [localEntries - localIndex] rounds that move the local cursor and at most
    [remoteEntries - 1 - n_in] rounds that unpack; the budget given by
    [unpackIndices] covers them. *)
Lemma unpackIndices_loop_within_budget σ locals localEntries remoteEntries p_in :
  forall budget index n_in localIndex position remote,
  ((localEntries - localIndex) + Z.to_nat (remoteEntries - 1 - n_in) < budget)%nat ->
  within_budget (unpackIndices_loop budget σ locals localEntries remoteEntries p_in
                   index n_in localIndex position remote).
Proof.
  induction budget as [|budget IH]; intros index n_in localIndex position remote Hb; [lia|].
  simpl. destruct (Nat.ltb_spec localIndex localEntries) as [Hlt|Hge];
    [|apply within_budget_ret].
  apply within_budget_bind; [apply within_budget_array_read|]. intros lp.
  apply within_budget_bind; [apply within_budget_deref_pair|]. intros le.
  destruct (global le =? global index).
  - destruct (Z.ltb_spec (n_in + 1) remoteEntries); [|apply within_budget_ret].
    apply within_budget_bind; [apply within_budget_unpack_pair|]. intros x.
    apply IH. lia.
  - destruct (global le <? global index).
    + apply IH. lia.
    + destruct (Z.ltb_spec (n_in + 1) remoteEntries); [|apply within_budget_ret].
      apply within_budget_bind; [apply within_budget_unpack_pair|]. intros x.
      apply IH. lia.
Qed.

Lemma move_to_valid_suffix σ G (it : list (Z * RemoteIndexList)) : forall w it' w',
  CollectiveIterator.move_to_valid σ G it w = Ok it' w' ->
  (length it' <= length it)%nat.
Proof.
  induction it as [|[p cur] it IH]; intros w it' w' H; simpl in H.
  - injection H as <- _. reflexivity.
  - apply bind_inv_ok in H as (r & w1 & _ & H).
    apply bind_inv_ok in H as (g & w2 & _ & H).
    destruct (negb (g =? G)).
    + apply IH in H. simpl. lia.
    + injection H as <- _. reflexivity.
Qed.

Lemma within_budget_bind_ok {A B} (m : M A) (k : A -> M B) w :
  m w <> Undefined StepBudget ->
  (forall a w', m w = Ok a w' -> k a w' <> Undefined StepBudget) ->
  bind m k w <> Undefined StepBudget.
Proof.
  intros Hm Hk. unfold bind.
  destruct (m w) as [a w'| |f]; [now apply Hk|discriminate|congruence].
Qed.

Lemma within_budget_move_to_valid σ G (it : list (Z * RemoteIndexList)) :
  within_budget (CollectiveIterator.move_to_valid σ G it).
Proof.
  induction it as [|[p cur] it IH]; simpl; [apply within_budget_ret|].
  apply within_budget_bind; [now apply within_budget_from_option|]. intros r.
  apply within_budget_bind; [apply within_budget_global_of|]. intros g.
  destruct (negb (g =? G)); [exact IH|apply within_budget_ret].
Qed.

Lemma within_budget_incr σ it : within_budget (CollectiveIterator.incr σ it).
Proof.
  unfold CollectiveIterator.incr.
  destruct (CollectiveIterator.iter_ it); [intros w; discriminate|].
  apply within_budget_bind; [apply within_budget_move_to_valid|].
  intros it0. apply within_budget_ret.
Qed.

Lemma incr_suffix σ it w it' w' :
  CollectiveIterator.incr σ it w = Ok it' w' ->
  (length (CollectiveIterator.iter_ it') < length (CollectiveIterator.iter_ it))%nat.
Proof.
  unfold CollectiveIterator.incr.
  destruct (CollectiveIterator.iter_ it) as [|e rest]; [discriminate|].
  intros H. apply bind_inv_ok in H as (it0 & w1 & Hmove & H).
  injection H as <- _. apply move_to_valid_suffix in Hmove. simpl. lia.
Qed.

(** The client loop over a collective iterator visits every map entry at
    most once. *)
Lemma visit_within_budget σ : forall n it e,
  CollectiveIterator.iter_ e = [] ->
  (length (CollectiveIterator.iter_ it) <= n)%nat ->
  within_budget (CollectiveIterator.visit n σ it e).
Proof.
  induction n as [|n IH]; intros it e He Hn w; unfold CollectiveIterator.visit;
    fold CollectiveIterator.visit; unfold CollectiveIterator.neq; rewrite He.
  - destruct (CollectiveIterator.iter_ it); [discriminate|simpl in Hn; lia].
  - destruct (length (CollectiveIterator.iter_ it) =? length (@nil (Z * RemoteIndexList)))%nat;
      [discriminate|]. simpl negb. cbv iota.
    apply within_budget_bind_ok.
    { unfold CollectiveIterator.process.
      destruct (CollectiveIterator.iter_ it) as [|[p cur] rest]; discriminate. }
    intros p w1 _. apply within_budget_bind_ok.
    { unfold CollectiveIterator.deref.
      destruct (CollectiveIterator.iter_ it) as [|[p' cur] rest]; [discriminate|].
      now apply within_budget_from_option. }
    intros r w2 _. apply within_budget_bind_ok; [apply within_budget_incr|].
    intros it' w3 Hincr. apply incr_suffix in Hincr.
    apply within_budget_bind_ok; [apply IH; [exact He|lia]|].
    intros l w4 _. discriminate.
Qed.

Lemma iterate_within_budget σ c : within_budget (CollectiveIterator.iterate σ c).
Proof.
  intros w. unfold CollectiveIterator.iterate, CollectiveIterator.begin,
    CollectiveIterator.end_, CollectiveIterator.iterator_ctor.
  apply within_budget_bind_ok.
  { apply within_budget_bind; [apply within_budget_move_to_valid|].
    intros it. apply within_budget_ret. }
  intros b w1 Hb. apply bind_inv_ok in Hb as (it0 & w2 & Hmove & Hb).
  injection Hb as <- _. apply move_to_valid_suffix in Hmove.
  rewrite bind_assoc. simpl. rewrite !bind_ret.
  now apply visit_within_budget.
Qed.

Lemma within_budget_unpack_rest p_in k : forall position,
  within_budget (unpack_rest k p_in position).
Proof.
  induction k as [|k IH]; intros position; simpl; [apply within_budget_ret|].
  apply within_budget_bind; [apply within_budget_unpack_pair|]. intros x. apply IH.
Qed.

Lemma unpackIndices_within_budget σ remote remoteEntries locals localEntries p_in position :
  within_budget (unpackIndices σ remote remoteEntries locals localEntries p_in position).
Proof.
  unfold unpackIndices. destruct (remoteEntries =? 0); [apply within_budget_ret|].
  apply within_budget_bind; [apply within_budget_unpack_pair|]. intros x.
  apply within_budget_bind.
  { intros w. unfold read_list. destruct (heap w !! remote); discriminate. }
  intros l. apply within_budget_bind.
  { apply unpackIndices_loop_within_budget. lia. }
  intros y. apply within_budget_bind.
  { intros w. unfold write_list. destruct (heap w !! remote); discriminate. }
  intros _. apply within_budget_unpack_rest.
Qed.

(** ** The scenarios of the specification *)

(** The modifier path: peer 1 is entered by hand with the global ids 1, 2,
    3; a fourth insert of global id 2 is out of order. *)
Example modifier_path :
  exists r m0 m1 m2 m3 w0 w1 w2 w3,
    getModifier false true 1 example_store (RemoteIndices_ctor 1 1 example_comm) empty_world
      = Ok (r, m0) w0 /\
    insert checked example_store (example_remote 0) m0 w0 = Ok m1 w1 /\
    insert checked example_store (example_remote 1) m1 w1 = Ok m2 w2 /\
    insert checked example_store (example_remote 2) m2 w2 = Ok m3 w3 /\
    neighbours r = 1 /\
    heap w3 !! rList_ m3 = Some [example_remote 0; example_remote 1; example_remote 2] /\
    insert checked example_store (example_remote 1) m3 w3 = Raise InvalidPosition w3.
Proof.
  eexists _, _, _, _, _, _, _, _, _.
  split; [vm_compute; reflexivity|].
  split; [vm_compute; reflexivity|].
  split; [vm_compute; reflexivity|].
  split; [vm_compute; reflexivity|].
  split; [reflexivity|].
  split; [reflexivity|].
  vm_compute. reflexivity.
Qed.

(** The collective iterator over the lists 1, 3, 7 and 3, 5, 7: [advance(3)]
    and [advance(7)] yield both peers, [advance(8)] empties the working
    set. *)
Example collective_advance :
  exists c3 c7 c8,
    CollectiveIterator.advance example_store 3 example_iterator empty_world = Ok c3 empty_world /\
    CollectiveIterator.iterate example_store c3 empty_world
      = Ok [(1, example_remote 2); (2, example_remote 2)] empty_world /\
    CollectiveIterator.advance example_store 7 c3 empty_world = Ok c7 empty_world /\
    CollectiveIterator.iterate example_store c7 empty_world
      = Ok [(1, example_remote 4); (2, example_remote 4)] empty_world /\
    CollectiveIterator.advance example_store 8 c7 empty_world = Ok c8 empty_world /\
    CollectiveIterator.empty c8 = true.
Proof.
  eexists _, _, _.
  split; [vm_compute; reflexivity|].
  split; [vm_compute; reflexivity|].
  split; [vm_compute; reflexivity|].
  split; [vm_compute; reflexivity|].
  split; [vm_compute; reflexivity|].
  reflexivity.
Qed.

(** ** The registry owns its lists

    The hypothesis of the teardown theorem is an invariant: it holds for a
    constructed registry and is kept by [getModifier], by the discovery
    protocol and by [rebuild]. *)

Lemma blocks_of_app (m1 m2 : RemoteIndexMap) :
  blocks_of (m1 ++ m2) = blocks_of m1 ++ blocks_of m2.
Proof. unfold blocks_of. apply flat_map_app. Qed.

Lemma StdMap_insert_cases {V} k (v : V) m :
  StdMap.insert k v m = m \/
  exists m1 m2, m = m1 ++ m2 /\ StdMap.insert k v m = m1 ++ (k, v) :: m2.
Proof.
  induction m as [|[k0 v0] m IH]; simpl.
  - right. now exists [], [].
  - destruct (k <? k0).
    + right. now exists [], ((k0, v0) :: m).
    + destruct (k =? k0); [now left|].
      destruct IH as [->|(m1 & m2 & -> & ->)]; [now left|].
      right. now exists ((k0, v0) :: m1), m2.
Qed.

Lemma owns_nil w : owns w [].
Proof. split; [constructor|]. intros p Hp. now apply elem_of_nil in Hp. Qed.

Lemma owns_grows w w' m : owns w m -> grows w w' -> owns w' m.
Proof.
  intros [Hnd Hlive] Hg. split; [exact Hnd|].
  intros p Hp. apply elem_of_dom, Hg, elem_of_dom. auto.
Qed.

Lemma owns_insert w m k a b :
  owns w m -> is_Some (heap w !! a) -> is_Some (heap w !! b) ->
  a ∉ blocks_of m -> b ∉ blocks_of m ->
  owns w (StdMap.insert k (a, b) m).
Proof.
  intros Hown Ha Hb Hna Hnb.
  destruct (StdMap_insert_cases k (a, b) m) as [->|(m1 & m2 & Hm & ->)]; [exact Hown|].
  destruct Hown as [Hnd Hlive]. rewrite Hm, blocks_of_app in *.
  assert (Hperm : blocks_of (m1 ++ (k, (a, b)) :: m2)
                  ≡ₚ blocks_of [(k, (a, b))] ++ blocks_of m1 ++ blocks_of m2).
  { rewrite (blocks_of_app m1 ((k, (a, b)) :: m2)).
    change ((k, (a, b)) :: m2) with ([(k, (a, b))] ++ m2).
    rewrite (blocks_of_app [(k, (a, b))] m2). apply Permutation_app_swap_app. }
  split.
  - rewrite Hperm. unfold blocks_of at 1. simpl.
    destruct (decide (a = b)) as [->|Hab]; simpl.
    + apply NoDup_cons. auto.
    + apply NoDup_cons. split.
      * intros [->|H]%elem_of_cons; [congruence|auto].
      * apply NoDup_cons. auto.
  - intros p Hp. rewrite Hperm in Hp. unfold blocks_of at 1 in Hp. simpl in Hp.
    destruct (decide (a = b)) as [->|Hab]; simpl in Hp.
    + apply elem_of_cons in Hp as [->|Hp]; auto.
    + apply elem_of_cons in Hp as [->|Hp]; [auto|].
      apply elem_of_cons in Hp as [->|Hp]; auto.
Qed.

Lemma owns_delete w m p :
  owns w m -> p ∉ blocks_of m ->
  owns {| heap := delete p (heap w); trace := trace w ++ [Delete p] |} m.
Proof.
  intros [Hnd Hlive] Hp. split; [exact Hnd|].
  intros q Hq. simpl. rewrite lookup_delete_ne; [auto|]. intros ->. contradiction.
Qed.

Lemma owns_fresh w m p : owns w m -> p ∉ dom (heap w) -> p ∉ blocks_of m.
Proof. intros [_ Hlive] Hp Hin. apply Hp, elem_of_dom. auto. Qed.

Lemma unpack_lists_send σ su st p_in receive noRemoteSource noRemoteDest
    twoIndexSets position x w w' :
  (if twoIndexSets =? 0 then
     if sendTwo su then
       send <- new_list ;;
       position <- unpackIndices_two σ send receive noRemoteSource
                     (sourcePairs st) (sourcePublish su)
                     (destPairs st) (destPublish su) p_in position ;;
       ret (send, position)
     else
       position <- unpackIndices σ receive noRemoteSource
                     (sourcePairs st) (sourcePublish su) p_in position ;;
       ret (receive, position)
   else
     position <- (if sendTwo su
                  then unpackIndices σ receive noRemoteSource
                         (destPairs st) (destPublish su) p_in position
                  else unpackIndices σ receive noRemoteSource
                         (sourcePairs st) (sourcePublish su) p_in position) ;;
     send <- new_list ;;
     position <- unpackIndices σ send noRemoteDest
                   (sourcePairs st) (sourcePublish su) p_in position ;;
     ret (send, position)) w = Ok x w' ->
  receive ∈ dom (heap w) ->
  fst x ∈ dom (heap w') /\ (fst x = receive \/ fst x ∉ dom (heap w)).
Proof.
  assert (Hunpack : forall remote n l e b pos w1 a w2,
            unpackIndices σ remote n l e b pos w1 = Ok a w2 -> grows w1 w2).
  { intros. eapply (preserved_unpackIndices grows); try eassumption;
      first [ exact grows_refl | exact grows_trans | exact grows_write ]. }
  assert (Hfresh : forall w1 : World, fresh (dom (heap w1)) ∈
            dom (heap {| heap := <[fresh (dom (heap w1)) := []]> (heap w1);
                         trace := trace w1 |})).
  { intros w1. simpl. rewrite dom_insert. apply elem_of_union. left.
    now apply elem_of_singleton. }
  intros H Hrecv.
  destruct (twoIndexSets =? 0).
  - destruct (sendTwo su).
    + apply bind_inv_ok in H as (send & w1 & Hnew & H).
      injection Hnew as <- <-.
      apply bind_inv_ok in H as (pos & w2 & Hrun & H). injection H as <- <-.
      simpl. split; [|right; apply is_fresh].
      eapply (preserved_unpackIndices_two grows) in Hrun;
        try first [ exact grows_refl | exact grows_trans | exact grows_write ].
      apply Hrun, Hfresh.
    + apply bind_inv_ok in H as (pos & w2 & Hrun & H). injection H as <- <-.
      simpl. split; [|now left]. apply Hunpack in Hrun. now apply Hrun.
  - apply bind_inv_ok in H as (pos & w1 & Hrun1 & H).
    assert (Hg1 : grows w w1) by (destruct (sendTwo su); now apply Hunpack in Hrun1).
    apply bind_inv_ok in H as (send & w2 & Hnew & H). injection Hnew as <- <-.
    apply bind_inv_ok in H as (pos' & w3 & Hrun2 & H). injection H as <- <-.
    simpl. apply Hunpack in Hrun2. split; [apply Hrun2, Hfresh|].
    right. intros Hin. apply Hg1 in Hin. now apply is_fresh in Hin.
Qed.

Lemma process_message_owns σ su proc inb st w st' w' :
  owns w (lists st) ->
  process_message σ su proc inb st w = Ok st' w' ->
  owns w' (lists st').
Proof.
  intros Hown H. unfold process_message in H. cbv zeta in H.
  apply bind_inv_ok in H as (x1 & w1 & H1 & H).
  assert (w1 = w) as ->.
  { unfold MPI_Unpack_char in H1. destruct (_ !! _) as [[| |]|]; try discriminate.
    now injection H1. }
  apply bind_inv_ok in H as (x2 & w2 & H2 & H).
  assert (w2 = w) as ->.
  { unfold MPI_Unpack_int in H2. destruct (_ !! _) as [[| |]|]; try discriminate.
    now injection H2. }
  apply bind_inv_ok in H as (x3 & w3 & H3 & H).
  assert (w3 = w) as ->.
  { unfold MPI_Unpack_int in H3. destruct (_ !! _) as [[| |]|]; try discriminate.
    now injection H3. }
  apply bind_inv_ok in H as (receive & w4 & Hnew & H). injection Hnew as <- <-.
  set (receive := fresh (dom (heap w))) in *.
  set (w4 := {| heap := <[receive := []]> (heap w); trace := trace w |}) in *.
  assert (Hrecv4 : receive ∈ dom (heap w4)).
  { simpl. rewrite dom_insert. apply elem_of_union. left. now apply elem_of_singleton. }
  apply bind_inv_ok in H as (x & w5 & Hunpack & H).
  pose proof (retains_unpack_lists _ _ _ _ _ _ _ _ _ _ _ _ Hunpack) as Hg5.
  destruct (unpack_lists_send _ _ _ _ _ _ _ _ _ _ _ _ Hunpack Hrecv4) as [Hsend5 Hsend].
  assert (Hg : grows w w5).
  { eapply grows_trans; [|exact Hg5]. apply grows_new. }
  assert (Hrn : receive ∉ blocks_of (lists st)).
  { apply (owns_fresh w); [exact Hown|apply is_fresh]. }
  assert (Hsn : fst x ∉ blocks_of (lists st)).
  { destruct Hsend as [->|Hs]; [exact Hrn|].
    apply (owns_fresh w); [exact Hown|]. intros Hin. apply Hs.
    simpl. rewrite dom_insert. apply elem_of_union. now right. }
  apply bind_inv_ok in H as (r & w6 & Hr & H).
  assert (w6 = w5) as ->.
  { unfold read_list in Hr. destruct (heap w5 !! receive); run; [|discriminate].
    now injection Hr. }
  apply bind_inv_ok in H as (s & w7 & Hs & H).
  assert (w7 = w5) as ->.
  { unfold read_list in Hs. destruct (heap w5 !! x.1); run; [|discriminate].
    now injection Hs. }
  assert (Hins : owns w5 (StdMap.insert
            (Z.rem (the_rank su + the_procs su - proc) (the_procs su))
            (fst x, receive) (lists st))).
  { apply owns_insert; auto.
    - now apply (owns_grows w).
    - now apply elem_of_dom.
    - apply elem_of_dom, Hg5, Hrecv4. }
  destruct r as [|r0 r]; [destruct s as [|s0 s]|];
    [|injection H as <- <-; exact Hins|injection H as <- <-; exact Hins].
  apply bind_inv_ok in H as (u & w8 & Hdel & H). injection H as <- <-. simpl.
  pose proof (owns_grows _ _ _ Hown Hg) as Hown5.
  destruct (decide (fst x = receive)) as [E|E].
  - unfold delete_list in Hdel. destruct (heap w5 !! x.1); [|discriminate].
    injection Hdel as _ <-. now apply owns_delete.
  - apply bind_inv_ok in Hdel as (u' & w9 & Hd1 & Hd2).
    unfold delete_list in Hd1. destruct (heap w5 !! x.1); [|discriminate].
    injection Hd1 as _ <-.
    unfold delete_list in Hd2. simpl in Hd2.
    destruct (delete x.1 (heap w5) !! receive); [|discriminate].
    injection Hd2 as _ <-.
    exact (owns_delete _ _ receive (owns_delete w5 _ (fst x) Hown5 Hsn) Hrn).
Qed.

Lemma hop_owns ignorePublic σ recv su proc st w st' w' :
  owns w (lists st) ->
  hop ignorePublic σ recv su proc st w = Ok st' w' ->
  owns w' (lists st').
Proof.
  intros Hown H. unfold hop in H. cbv zeta in H.
  match type of H with
  | context [if ?c then pack_own ?a ?b ?d ?e else _] =>
      assert (Hl : lists (if c then pack_own a b d e else st) = lists st)
        by (destruct c; [apply pack_own_lists|reflexivity]);
      generalize dependent (if c then pack_own a b d e else st)
  end.
  intros st1 H Hl.
  assert (Hemit : forall e w1 u w2, emit e w1 = Ok u w2 -> owns w1 (lists st) ->
            owns w2 (lists st)).
  { intros e w1 u w2 [= _ <-] [Hnd Hlive]. split; auto. }
  destruct (proc =? 0).
  - destruct (sendTwo su).
    + apply bind_inv_ok in H as (u & w1 & He & H).
      apply process_message_owns in H; [exact H|]. simpl. rewrite Hl. eauto.
    + injection H as <- <-. now rewrite Hl.
  - apply bind_inv_ok in H as (u & w1 & He & H).
    apply process_message_owns in H; [exact H|]. simpl. rewrite Hl.
    destruct (_ =? 0);
      apply bind_inv_ok in He as (u1 & w2 & He1 & He2); eauto.
Qed.

Lemma ring_owns n ignorePublic σ recv su : forall proc st w st' w',
  owns w (lists st) ->
  ring n ignorePublic σ recv su proc st w = Ok st' w' ->
  owns w' (lists st').
Proof.
  induction n as [|n IH]; intros proc st w st' w' Hown H; simpl in H.
  - now injection H as <- <-.
  - apply bind_inv_ok in H as (st1 & w1 & Hhop & H).
    apply (IH _ _ _ _ _ (hop_owns _ _ _ _ _ _ _ _ _ Hown Hhop) H).
Qed.

Lemma buildRemote_owns ignorePublic σ recv r w r' w' :
  owns w (remoteIndices_ r) ->
  buildRemote ignorePublic σ recv r w = Ok r' w' ->
  owns w' (remoteIndices_ r').
Proof.
  intros Hown H. unfold buildRemote in H.
  apply bind_inv_ok in H as (comm & w1 & H1 & H).
  assert (w1 = w) as -> by (destruct (comm_ r); [now injection H1|discriminate]).
  apply bind_inv_ok in H as (sa & w2 & H2 & H).
  assert (w2 = w) as -> by (destruct (source_ r); [now injection H2|discriminate]).
  apply bind_inv_ok in H as (s & w3 & H3 & H).
  apply deref_set_inv in H3 as [-> _].
  apply bind_inv_ok in H as (ta & w4 & H4 & H).
  assert (w4 = w) as ->.
  { destruct (bool_decide _); [|now injection H4].
    destruct (target_ r); [now injection H4|discriminate]. }
  apply bind_inv_ok in H as (t & w5 & H5 & H).
  assert (w5 = w) as ->.
  { destruct (bool_decide _); [|now injection H5].
    now apply deref_set_inv in H5 as [-> _]. }
  apply bind_inv_ok in H as (u & w6 & H6 & H). injection H6 as _ <-.
  apply bind_inv_ok in H as (st & w7 & Hring & H).
  apply bind_inv_ok in H as (u' & w8 & H8 & H). injection H8 as _ <-.
  injection H as <- <-. simpl.
  apply ring_owns in Hring.
  - destruct Hring as [Hnd Hlive]. split; auto.
  - simpl. destruct Hown as [Hnd Hlive]. split; auto.
Qed.

Lemma modifier_ctor_pure mode σ a p w m w' :
  RemoteIndexListModifier.ctor mode σ a p w = Ok m w' -> w' = w.
Proof.
  unfold RemoteIndexListModifier.ctor. intros H.
  apply bind_inv_ok in H as (l & w1 & Hl & H).
  assert (w1 = w) as ->.
  { unfold read_list in Hl. destruct (heap w !! p); run; [|discriminate].
    now injection Hl. }
  apply bind_inv_ok in H as (gl & w2 & Hgl & H). injection H as _ <-.
  destruct mode; [|now injection Hgl].
  clear Hl. revert gl w2 Hgl.
  induction l as [|r0 l IH]; intros gl w2 Hgl; simpl in Hgl.
  - now injection Hgl.
  - apply bind_inv_ok in Hgl as (g & w3 & Hg & Hgl).
    apply bind_inv_ok in Hg as (pr & w4 & Hpr & Hg). injection Hg as _ <-.
    apply deref_pair_inv in Hpr as [_ ->].
    apply bind_inv_ok in Hgl as (gs & w5 & Hgs & Hgl). injection Hgl as _ <-.
    now apply IH in Hgs.
Qed.

(** Every registry that the code produces owns its lists: the constructed
    one, and the one after each completed [getModifier] and [rebuild]. *)
Lemma owns_invariant :
  (forall a b comm w, owns w (remoteIndices_ (RemoteIndices_ctor a b comm))) /\
  (forall w, owns w (remoteIndices_ RemoteIndices_ctor_default)) /\
  (forall mode send process σ r w r' m w',
     owns w (remoteIndices_ r) ->
     getModifier mode send process σ r w = Ok (r', m) w' ->
     owns w' (remoteIndices_ r')) /\
  (forall ignorePublic σ recv r w r' w',
     owns w (remoteIndices_ r) ->
     rebuild ignorePublic σ recv r w = Ok r' w' ->
     owns w' (remoteIndices_ r')).
Proof.
  split; [intros; apply owns_nil|]. split; [intros; apply owns_nil|]. split.
  - intros mode send process σ r w r' m w' Hown H. unfold getModifier in H.
    apply bind_inv_ok in H as (x & w1 & Hfind & H).
    apply bind_inv_ok in H as (lists & w2 & Hl & H).
    assert (w2 = w1) as -> by (destruct (snd x); [now injection Hl|discriminate]).
    apply bind_inv_ok in H as (m' & w3 & Hctor & H). injection H as <- <- <-.
    assert (Hown1 : owns w1 (remoteIndices_ (fst x))).
    { unfold getModifier_find in Hfind.
      apply bind_inv_ok in Hfind as (s & w4 & Hs & Hfind).
      apply deref_set_inv in Hs as [-> _].
      apply bind_inv_ok in Hfind as (t & w5 & Ht & Hfind).
      apply deref_set_inv in Ht as [-> _].
      apply bind_inv_ok in Hfind as (y & w6 & Hy & Hfind).
      injection Hfind as <- <-. simpl in *.
      destruct (StdMap.find process (remoteIndices_ r)) eqn:Ef.
      - injection Hy as <- <-. exact Hown.
      - destruct (decide (source_ r <> target_ r)).
        + injection Hy as <- <-. simpl. fold (first_new w). fold (second_new w).
          apply owns_insert.
          * apply (owns_grows w); [exact Hown|].
            apply (grows_trans _ {| heap := <[first_new w := []]> (heap w);
                                    trace := trace w |}); [apply grows_new|].
            exact (grows_new {| heap := <[first_new w := []]> (heap w);
                                trace := trace w |}).
          * simpl. rewrite lookup_insert_ne by (apply not_eq_sym, second_new_ne).
            rewrite lookup_insert_eq. eauto.
          * simpl. rewrite lookup_insert_eq. eauto.
          * apply (owns_fresh w); [exact Hown|unfold first_new; apply is_fresh].
          * apply (owns_fresh w); [exact Hown|].
            intros Hin. apply elem_of_dom in Hin as [l Hin].
            now rewrite second_new_fresh in Hin.
        + injection Hy as <- <-. simpl.
          apply owns_insert.
          * apply (owns_grows w); [exact Hown|apply grows_new].
          * simpl. rewrite lookup_insert_eq. eauto.
          * simpl. rewrite lookup_insert_eq. eauto.
          * apply (owns_fresh w); [exact Hown|apply is_fresh].
          * apply (owns_fresh w); [exact Hown|apply is_fresh]. }
    assert (w3 = w1) as ->; [|exact Hown1].
    destruct send;
      apply bind_inv_ok in Hctor as (a & w4 & Ha & Hctor);
      apply modifier_ctor_pure in Hctor as ->;
      [destruct (source_ (fst x))|destruct (target_ (fst x))];
      solve [now injection Ha|discriminate].
  - intros ignorePublic σ recv r w r' w' Hown H. unfold rebuild in H.
    apply bind_inv_ok in H as (needed & w1 & Hneeded & H).
    assert (w1 = w) as ->.
    { destruct (firstBuild r); [now injection Hneeded|].
      destruct (negb _); [now injection Hneeded|].
      apply bind_inv_ok in Hneeded as (b & w2 & Hb & Hneeded).
      apply isSynced_pure in Hb as ->. now injection Hneeded. }
    destruct needed; [|now injection H as <- <-].
    apply bind_inv_ok in H as (r1 & w2 & Hfree & H).
    assert (Hr1 : remoteIndices_ r1 = []).
    { unfold free in Hfree. apply bind_inv_ok in Hfree as (u & w3 & _ & Hfree).
      now injection Hfree as <- _. }
    apply bind_inv_ok in H as (r2 & w3 & Hbuild & H).
    apply buildRemote_owns in Hbuild; [|rewrite Hr1; apply owns_nil].
    apply bind_inv_ok in H as (s & w4 & Hs & H). apply deref_set_inv in Hs as [-> _].
    apply bind_inv_ok in H as (t & w5 & Ht & H). apply deref_set_inv in Ht as [-> _].
    injection H as <- <-. exact Hbuild.
Qed.

(** ** What the modifier remembers *)

(** A completed insert or remove leaves [first_] false and [last_] at the
    global id it was called with. *)
Lemma modifier_records_last cfg σ m w :
  (forall index x m' w',
     pair_at σ (localIndex_ index) = Some x ->
     insert cfg σ index m w = Ok m' w' ->
     first_ m' = false /\ last_ m' = global x) /\
  (forall index g m' w',
     insert_global cfg σ index g m w = Ok m' w' ->
     first_ m' = false /\ last_ m' = g) /\
  (forall mode g m' b w',
     remove mode cfg σ g m w = Ok (m', b) w' ->
     first_ m' = false /\ last_ m' = g).
Proof.
  split; [|split].
  - intros index x m' w' Hx H. unfold insert in H.
    apply bind_inv_ok in H as (u & w1 & _ & H).
    apply bind_inv_ok in H as (l & w2 & _ & H).
    apply bind_inv_ok in H as (i & w3 & _ & H).
    apply bind_inv_ok in H as (u' & w4 & _ & H).
    unfold SLList_insert in H.
    apply bind_inv_ok in H as (u'' & w5 & _ & H).
    apply bind_inv_ok in H as (last & w6 & Hlast & H). injection H as <- _. simpl.
    rewrite (global_of_ok _ _ _ w5 Hx) in Hlast. now injection Hlast.
  - intros index g m' w' H. unfold insert_global in H.
    apply bind_inv_ok in H as (u & w1 & _ & H).
    apply bind_inv_ok in H as (l & w2 & _ & H).
    apply bind_inv_ok in H as (n & w3 & _ & H).
    apply bind_inv_ok in H as (u' & w4 & _ & H).
    unfold SLList_insert in H.
    apply bind_inv_ok in H as (u'' & w5 & _ & H). now injection H as <- _.
  - intros mode g m' b w' H. unfold remove in H.
    apply bind_inv_ok in H as (u & w1 & _ & H).
    apply bind_inv_ok in H as (l & w2 & _ & H).
    destruct mode.
    + apply bind_inv_ok in H as (n & w3 & _ & H).
      apply bind_inv_ok in H as (g' & w4 & _ & H).
      destruct (g' =? g); [|now injection H as <- _ _].
      apply bind_inv_ok in H as (gl' & w5 & _ & H).
      apply bind_inv_ok in H as (l' & w6 & _ & H).
      apply bind_inv_ok in H as (u' & w7 & _ & H). now injection H as <- _ _.
    + apply bind_inv_ok in H as (i & w3 & _ & H).
      apply bind_inv_ok in H as (r & w4 & _ & H).
      apply bind_inv_ok in H as (a & w5 & _ & H).
      destruct (a =? g); [|now injection H as <- _ _].
      apply bind_inv_ok in H as (l' & w6 & _ & H).
      apply bind_inv_ok in H as (u' & w7 & _ & H). now injection H as <- _ _.
Qed.

(** At the tail of the list the removal after an insertion does not even
    return: the cursor is at the end and [remove] dereferences it. *)
Example remove_at_end :
  insert checked example_store (example_remote 3) (modifier_at 0 true 0) (world_with [])
    = Ok (modifier_at 1 false 5) (world_with [example_remote 3]) /\
  remove false checked example_store 5 (modifier_at 1 false 5)
    (world_with [example_remote 3]) = Undefined EndDereference.
Proof. split; vm_compute; reflexivity. Qed.

(** ** Insertion followed by removal *)

Lemma below_le σ G (rest : RemoteIndexList) : (below σ G rest <= length rest)%nat.
Proof.
  induction rest as [|r rest IH]; simpl; [lia|].
  destruct (gid σ r <? G); simpl; lia.
Qed.

Lemma below_app σ G (pre : RemoteIndexList) r post :
  Forall (fun r' => gid σ r' < G) pre -> G <= gid σ r ->
  below σ G (pre ++ r :: post) = length pre.
Proof.
  intros Hpre Hr. induction Hpre as [|r' pre Hr' _ IH]; simpl.
  - destruct (gid σ r <? G) eqn:E; [apply Z.ltb_lt in E; lia|reflexivity].
  - apply Z.ltb_lt in Hr'. now rewrite Hr', IH.
Qed.

(** C5 (a defect of the code).  Let [G] be the global id of [index], not in
    the list, and let the records in front of the cursor be below [G].  Then
    [insert(index)] completes and links the record in behind the records
    below [G], leaving the cursor behind the new record.  An immediate
    [remove(G)] on the same modifier therefore does not find it: if a record
    follows, the call returns false and leaves the list as it is after the
    insertion, with the record of [G] in it; if the new record is the last
    of the list, the call dereferences the end iterator.  In neither case
    is the list as before the insertion.  A modifier constructed afresh
    over the list does undo the insertion: its [remove(G)] returns true and
    the world is again the one before the insertion. *)
Theorem insert_then_remove_misses_record (cfg : Config) (σ : Store)
    (m : RemoteIndexListModifier.t) (w : World) (l : RemoteIndexList)
    (index : RemoteIndex) (x : IndexPair) :
  heap w !! rList_ m = Some l ->
  valid_list σ l ->
  pair_at σ (localIndex_ index) = Some x ->
  Forall (fun r => gid σ r <> global x) l ->
  (iter_ m <= length l)%nat ->
  Forall (fun r => gid σ r < global x) (take (iter_ m) l) ->
  (DUNE_ISTL_WITH_CHECKING cfg = true -> first_ m = true \/ last_ m <= global x) ->
  exists pre post m1 w1,
    l = pre ++ post /\
    Forall (fun r => gid σ r < global x) pre /\
    match post with [] => True | r :: _ => global x < gid σ r end /\
    insert cfg σ index m w = Ok m1 w1 /\
    w1 = {| heap := <[rList_ m := pre ++ index :: post]> (heap w); trace := trace w |} /\
    rList_ m1 = rList_ m /\ iter_ m1 = S (length pre) /\
    pre ++ index :: post <> l /\
    remove false cfg σ (global x) m1 w1 =
      match post with
      | [] => Undefined EndDereference
      | _ :: _ => Ok (m1, false) w1
      end /\
    exists m0 m3,
      ctor false σ (indexSet_ m) (rList_ m) w1 = Ok m0 w1 /\
      remove false cfg σ (global x) m0 w1 = Ok (m3, true) w.
Proof.
  intros Hl Hv Hx Hnew Hiter Hfront Hchk.
  set (G := global x) in *.
  set (i := (iter_ m + below σ G (drop (iter_ m) l))%nat).
  assert (Hg : forall w', global_of σ index w' = Ok G w')
    by (intros w'; now apply global_of_ok).
  assert (Hgi : gid σ index = G) by (unfold gid; now rewrite Hx).
  assert (Hi : (i <= length l)%nat).
  { pose proof (below_le σ G (drop (iter_ m) l)) as H. rewrite length_drop in H. lia. }
  assert (Hlen : length (take i l) = i) by now apply length_take_le.
  assert (Hpre : Forall (fun r => gid σ r < G) (take i l)).
  { unfold i. rewrite <- take_take_drop. apply Forall_app. split; [exact Hfront|].
    apply below_prefix. }
  assert (Hpost : match drop i l with [] => True | r :: _ => G < gid σ r end).
  { destruct (drop i l) as [|r rest] eqn:E; [exact I|].
    assert (Hr : G <= gid σ r).
    { apply (below_head σ G (drop (iter_ m) l) r rest). now rewrite drop_drop. }
    assert (Hrin : r ∈ l).
    { rewrite <- (take_drop i l), E. apply elem_of_app. right. apply elem_of_cons. now left. }
    rewrite Forall_forall in Hnew. specialize (Hnew r Hrin). lia. }
  set (l1 := take i l ++ index :: drop i l).
  set (w1 := {| heap := <[rList_ m := l1]> (heap w); trace := trace w |}).
  set (m1 := {| rList_ := rList_ m; indexSet_ := indexSet_ m; glist_ := glist_ m;
                iter_ := S i; giter_ := giter_ m; first_ := false; last_ := G |}).
  assert (Hl1 : heap w1 !! rList_ m = Some l1) by (simpl; apply lookup_insert_eq).
  assert (Hv1 : valid_list σ l1).
  { unfold l1. apply Forall_app. split; [now apply Forall_take|].
    apply Forall_cons. split; [rewrite Hx; eauto|now apply Forall_drop]. }
  assert (Hdrop1 : drop (S i) l1 = drop i l).
  { unfold l1. rewrite (cons_middle index), app_assoc.
    apply drop_app_length'. rewrite length_app, Hlen. simpl. lia. }
  assert (Hins : insert cfg σ index m w = Ok m1 w1).
  { unfold insert.
    rewrite (bind_ok _ _ _ _ _ (check_position_passes cfg m _ G w (Hg w) Hchk)).
    rewrite (bind_ok _ _ _ l w); [|unfold read_list; now rewrite Hl].
    rewrite (bind_ok _ _ _ _ _ (seek_ok σ _ G _ (iter_ m) w Hg (valid_list_drop _ _ _ Hv))).
    fold i.
    rewrite (bind_ok _ _ _ tt w).
    2:{ apply assert_ok. destruct (l !! i) as [r|] eqn:Hri; [|reflexivity].
        assert (Hrin : r ∈ l) by (apply list_elem_of_lookup; eauto).
        assert (Hrv : is_Some (pair_at σ (localIndex_ r))).
        { unfold valid_list in Hv. rewrite Forall_forall in Hv. auto. }
        rewrite (bind_ok _ _ _ _ _ (global_of_gid _ _ w Hrv)).
        rewrite (bind_ok _ _ _ _ _ (Hg w)).
        rewrite Forall_forall in Hnew. specialize (Hnew r Hrin).
        apply Z.eqb_neq in Hnew. unfold ret. now rewrite Hnew. }
    unfold SLList_insert. fold l1.
    rewrite (bind_ok _ _ _ tt w1); [|unfold write_list; now rewrite Hl].
    now rewrite (bind_ok _ _ _ _ _ (Hg w1)). }
  exists (take i l), (drop i l), m1, w1.
  split; [now rewrite take_drop|].
  split; [exact Hpre|]. split; [exact Hpost|]. split; [exact Hins|].
  split; [reflexivity|]. split; [reflexivity|]. split; [simpl; now rewrite Hlen|].
  split.
  { intros E. apply (f_equal length) in E. fold l1 in E. unfold l1 in E.
    rewrite length_app in E. simpl in E. rewrite <- (take_drop i l) in E at 3.
    rewrite length_app in E. lia. }
  fold l1. fold w1.
  split.
  - unfold remove.
    rewrite (bind_ok _ _ _ tt w1).
    2:{ apply (check_position_passes cfg m1 _ G); [reflexivity|].
        intros _. right. simpl. lia. }
    rewrite (bind_ok _ _ _ l1 w1); [|unfold read_list; simpl rList_; now rewrite Hl1].
    simpl iter_.
    rewrite (bind_ok _ _ _ (S i) w1).
    2:{ rewrite (seek_ok σ (ret G) G _ (S i) w1);
          [|reflexivity|now apply valid_list_drop].
        rewrite Hdrop1. destruct (drop i l) as [|r rest]; simpl.
        - f_equal. lia.
        - assert (E : (gid σ r <? G) = false) by (apply Z.ltb_ge; lia).
          rewrite E. f_equal. lia. }
    assert (Hat : l1 !! S i = drop i l !! 0%nat).
    { rewrite <- Hdrop1, lookup_drop. f_equal. lia. }
    destruct (drop i l) as [|r rest] eqn:Edrop.
    + apply bind_undefined. unfold SLList_deref. now rewrite Hat.
    + rewrite (bind_ok _ _ _ r w1); [|unfold SLList_deref; now rewrite Hat].
      assert (Hrv : is_Some (pair_at σ (localIndex_ r))).
      { unfold valid_list in Hv1. rewrite Forall_forall in Hv1. apply Hv1.
        apply list_elem_of_lookup. exists (S i). now rewrite Hat. }
      rewrite (bind_ok _ _ _ _ _ (global_of_gid _ _ w1 Hrv)).
      assert (E : (gid σ r =? G) = false) by (apply Z.eqb_neq; lia).
      rewrite E. reflexivity.
  - eexists _, _. split.
    { unfold ctor. rewrite (bind_ok _ _ _ l1 w1); [|unfold read_list; now rewrite Hl1].
      reflexivity. }
    unfold remove. cbn [first_ rList_ iter_ glist_ giter_ indexSet_].
    rewrite (bind_ok _ _ _ tt w1).
    2:{ apply (check_position_passes cfg _ _ G); [reflexivity|]. intros _. now left. }
    rewrite (bind_ok _ _ _ l1 w1); [|unfold read_list; now rewrite Hl1].
    rewrite (bind_ok _ _ _ i w1).
    2:{ rewrite (seek_ok σ (ret G) G _ 0%nat w1);
          [|reflexivity|now apply valid_list_drop].
        rewrite drop_0. unfold l1. rewrite below_app; [|exact Hpre|lia].
        now rewrite Hlen. }
    assert (Hat : l1 !! i = Some index).
    { unfold l1. rewrite lookup_app_r by lia. rewrite Hlen, Nat.sub_diag. reflexivity. }
    rewrite (bind_ok _ _ _ index w1); [|unfold SLList_deref; now rewrite Hat].
    rewrite (bind_ok _ _ _ _ _ (Hg w1)). rewrite Z.eqb_refl.
    rewrite (bind_ok _ _ _ l w1).
    2:{ unfold SLList_remove. rewrite Hat. unfold ret. f_equal.
        rewrite Hdrop1. unfold l1. rewrite take_app_length' by (symmetry; exact Hlen).
        apply take_drop. }
    rewrite (bind_ok _ _ _ tt w); [reflexivity|].
    unfold write_list. rewrite Hl1. f_equal.
    destruct w as [h t]. simpl in *. f_equal.
    rewrite insert_insert_eq. now apply insert_id.
Qed.

Lemma insert_then_remove_misses_record_witness :
  exists pre post m1 w1,
    [example_remote 4] = pre ++ post /\
    Forall (fun r => gid example_store r < 5) pre /\
    match post with [] => True | r :: _ => 5 < gid example_store r end /\
    insert checked example_store (example_remote 3) (modifier_at 0 true 0)
      (world_with [example_remote 4]) = Ok m1 w1 /\
    w1 = world_with (pre ++ example_remote 3 :: post) /\
    rList_ m1 = 1%positive /\ iter_ m1 = S (length pre) /\
    pre ++ example_remote 3 :: post <> [example_remote 4] /\
    remove false checked example_store 5 m1 w1 =
      match post with
      | [] => Undefined EndDereference
      | _ :: _ => Ok (m1, false) w1
      end /\
    exists m0 m3,
      ctor false example_store 1 1 w1 = Ok m0 w1 /\
      remove false checked example_store 5 m0 w1 = Ok (m3, true) (world_with [example_remote 4]).
Proof.
  destruct (insert_then_remove_misses_record checked example_store (modifier_at 0 true 0)
              (world_with [example_remote 4]) [example_remote 4] (example_remote 3)
              (example_pair 5))
    as (pre & post & m1 & w1 & H1 & H2 & H3 & H4 & H5 & H6 & H7 & H8 & H9 & H10).
  - reflexivity.
  - repeat constructor. eexists. reflexivity.
  - reflexivity.
  - repeat constructor. vm_compute. discriminate.
  - simpl. lia.
  - constructor.
  - intros _. left. reflexivity.
  - exists pre, post, m1, w1.
    split; [exact H1|]. split; [exact H2|]. split; [exact H3|]. split; [exact H4|].
    split; [rewrite H5; unfold world_with; simpl; now rewrite insert_insert_eq|].
    split; [exact H6|]. split; [exact H7|]. split; [exact H8|]. split; [exact H9|].
    exact H10.
Defined.

(** * Further properties of the registry, the modifier and the protocol *)

(** ** getModifier on the paths that return *)

Lemma globals_ok σ (l : RemoteIndexList) w :
  valid_list σ l -> globals σ l w = Ok (map (gid σ) l) w.
Proof.
  induction l as [|r l IH]; intros Hv; simpl; [reflexivity|].
  apply Forall_cons in Hv as [Hr Hv].
  rewrite (bind_ok _ _ _ _ _ (global_of_gid _ _ w Hr)).
  now rewrite (bind_ok _ _ _ _ _ (IH Hv)).
Qed.

Lemma modifier_ctor_ok mode σ a p (l : RemoteIndexList) w :
  heap w !! p = Some l -> (mode = true -> valid_list σ l) ->
  ctor mode σ a p w =
  Ok {| rList_ := p; indexSet_ := a; glist_ := if mode then map (gid σ) l else [];
        iter_ := 0; giter_ := 0; first_ := true; last_ := 0 |} w.
Proof.
  intros Hl Hv. unfold ctor.
  rewrite (bind_ok _ _ _ l w); [|unfold read_list; now rewrite Hl].
  destruct mode; [|reflexivity].
  now rewrite (bind_ok _ _ _ _ _ (globals_ok σ l w (Hv eq_refl))).
Qed.

(** X1.  For a peer that has an entry, [getModifier] enters nothing into
    the map and neither allocates nor changes a remote index list (what it
    does allocate, the shadow list of the modifier, is kept as a value of
    the modifier): it returns a modifier at the head of the entry's send
    list (first list, with the source set) or receive list (second list,
    with the target set), in its initial state; in the mode that may modify
    the index set the shadow list holds the global ids of the records of
    the list. *)
Theorem getModifier_existing_entry (mode send : bool) (process : Z) (σ : Store)
    (r : RemoteIndices) (w : World) (a b : positive) (s t : ParallelIndexSet)
    (first second : ListPtr) (l : RemoteIndexList) :
  source_ r = Some a -> target_ r = Some b ->
  σ !! a = Some s -> σ !! b = Some t ->
  StdMap.find process (remoteIndices_ r) = Some (first, second) ->
  heap w !! (if send then first else second) = Some l ->
  (mode = true -> valid_list σ l) ->
  exists r' m,
    getModifier mode send process σ r w = Ok (r', m) w /\
    remoteIndices_ r' = remoteIndices_ r /\ neighbours r' = neighbours r /\
    firstBuild r' = false /\
    rList_ m = (if send then first else second) /\
    indexSet_ m = (if send then a else b) /\
    iter_ m = 0%nat /\ giter_ m = 0%nat /\ first_ m = true /\
    glist_ m = (if mode then map (gid σ) l else []).
Proof.
  intros Hs Ht Ha Hb Hfind Hl Hv.
  assert (Hrun : getModifier_find process σ r w =
            Ok (set_firstBuild false (set_seqNos (seqNo s) (seqNo t) r),
                Some (first, second)) w).
  { unfold getModifier_find.
    rewrite Hs, (bind_ok _ _ _ _ _ (deref_set_ok _ _ _ w Ha)).
    rewrite Ht, (bind_ok _ _ _ _ _ (deref_set_ok _ _ _ w Hb)).
    simpl. rewrite Hfind. reflexivity. }
  unfold getModifier. rewrite (bind_ok _ _ _ _ _ Hrun). simpl.
  rewrite bind_ret. simpl. rewrite Hs, Ht.
  destruct send; simpl from_option; rewrite bind_assoc, bind_ret;
    rewrite (bind_ok _ _ _ _ _ (modifier_ctor_ok mode σ _ _ l w Hl Hv));
    eexists _, _; (split; [reflexivity|]); simpl; repeat split.
Qed.

Lemma getModifier_existing_entry_witness :
  exists r' m,
    getModifier true true 2 example_store example_registry example_world
      = Ok (r', m) example_world /\
    remoteIndices_ r' = remoteIndices_ example_registry /\
    rList_ m = 2%positive /\ glist_ m = [1].
Proof.
  destruct (getModifier_existing_entry true true 2 example_store example_registry
              example_world 1 1 example_set example_set 2 3 [example_remote 0])
    as (r' & m & Hrun & Hmap & _ & _ & Hl & _ & _ & _ & _ & Hg);
    try reflexivity.
  - intros _. repeat constructor. eexists. reflexivity.
  - exists r', m. repeat split; assumption.
Defined.

(** X2.  When source and target are the same index set, [getModifier] for a
    peer without an entry allocates one empty list, enters it under the peer
    as both the send and the receive list, and returns a modifier over it,
    whatever the direction asked for. *)
Theorem getModifier_new_process_one_set (mode send : bool) (process : Z) (σ : Store)
    (r : RemoteIndices) (w : World) (a : positive) (s : ParallelIndexSet) :
  source_ r = Some a -> target_ r = Some a -> σ !! a = Some s ->
  StdMap.find process (remoteIndices_ r) = None ->
  exists r' m w',
    getModifier mode send process σ r w = Ok (r', m) w' /\
    heap w !! rList_ m = None /\
    heap w' = <[rList_ m := []]> (heap w) /\ trace w' = trace w /\
    remoteIndices_ r' = StdMap.insert process (rList_ m, rList_ m) (remoteIndices_ r) /\
    StdMap.find process (remoteIndices_ r') = Some (rList_ m, rList_ m) /\
    firstBuild r' = false /\
    indexSet_ m = a /\ iter_ m = 0%nat /\ first_ m = true /\ glist_ m = [].
Proof.
  intros Hs Ht Ha Hfind.
  set (p := fresh (dom (heap w))).
  set (w' := {| heap := <[p := []]> (heap w); trace := trace w |}).
  set (r' := set_firstBuild false
               (set_remoteIndices_ (StdMap.insert process (p, p) (remoteIndices_ r))
                  (set_seqNos (seqNo s) (seqNo s) r))).
  assert (Hnew : StdMap.find process (StdMap.insert process (p, p) (remoteIndices_ r))
                 = Some (p, p)) by now apply StdMap_find_insert_new.
  assert (Hrun : getModifier_find process σ r w = Ok (r', Some (p, p)) w').
  { unfold getModifier_find.
    rewrite Hs, (bind_ok _ _ _ _ _ (deref_set_ok _ _ _ w Ha)).
    rewrite Ht, (bind_ok _ _ _ _ _ (deref_set_ok _ _ _ w Ha)).
    simpl. rewrite Hfind, Hs, Ht.
    rewrite decide_False by (intros H; now apply H).
    rewrite bind_assoc, (bind_ok _ _ _ _ _ (new_list_ok w)), !bind_ret.
    simpl. fold p. now rewrite Hnew. }
  assert (Hl : heap w' !! p = Some []) by (simpl; apply lookup_insert_eq).
  assert (Hctor : forall x, ctor mode σ x p w' =
            Ok {| rList_ := p; indexSet_ := x; glist_ := []; iter_ := 0; giter_ := 0;
                  first_ := true; last_ := 0 |} w').
  { intros x. rewrite (modifier_ctor_ok mode σ x p [] w' Hl) by (intros _; constructor).
    now destruct mode. }
  eexists r', _, w'. split.
  { unfold getModifier. rewrite (bind_ok _ _ _ _ _ Hrun). simpl.
    rewrite bind_ret. simpl. rewrite Hs, Ht.
    destruct send; simpl from_option; rewrite bind_assoc, bind_ret;
      rewrite (bind_ok _ _ _ _ _ (Hctor a)); reflexivity. }
  simpl. repeat split; try reflexivity; [apply new_list_fresh|exact Hnew].
Qed.

Lemma getModifier_new_process_one_set_witness :
  exists r' m w',
    getModifier false false 4 example_store (RemoteIndices_ctor 1 1 example_comm) empty_world
      = Ok (r', m) w' /\
    remoteIndices_ r' = [(4, (rList_ m, rList_ m))] /\
    heap w' !! rList_ m = Some [].
Proof.
  destruct (getModifier_new_process_one_set false false 4 example_store
              (RemoteIndices_ctor 1 1 example_comm) empty_world 1 example_set)
    as (r' & m & w' & Hrun & _ & Hheap & _ & Hmap & _); try reflexivity.
  exists r', m, w'. split; [exact Hrun|]. split; [exact Hmap|].
  rewrite Hheap. apply lookup_insert_eq.
Defined.

Lemma getModifier_find_inv process σ r w r' found w' :
  getModifier_find process σ r w = Ok (r', found) w' ->
  exists a b s t,
    source_ r' = Some a /\ target_ r' = Some b /\
    σ !! a = Some s /\ σ !! b = Some t /\
    sourceSeqNo_ r' = seqNo s /\ destSeqNo_ r' = seqNo t /\
    firstBuild r' = false /\ publicIgnored r' = publicIgnored r.
Proof.
  unfold getModifier_find. intros H.
  apply bind_inv_ok in H as (s & w1 & Hs & H).
  apply deref_set_inv in Hs as [-> (a & Ea & Ha)].
  apply bind_inv_ok in H as (t & w2 & Ht & H).
  apply deref_set_inv in Ht as [-> (b & Eb & Hb)].
  apply bind_inv_ok in H as (x & w3 & Hx & H). injection H as <- _ _.
  exists a, b, s, t. simpl in Hx.
  destruct (StdMap.find process (remoteIndices_ r)).
  - injection Hx as <- _. simpl. auto 10.
  - destruct (decide (source_ r <> target_ r)).
    + injection Hx as <- _. simpl. auto 10.
    + injection Hx as <- _. simpl. auto 10.
Qed.

(** X3.  A call of [getModifier] that returns switches the automatic
    discovery off for the flag of the last build: the following
    [rebuild<flag>()] with that flag returns at once, leaving registry and
    world as they are, with no message sent; a rebuild with the other flag
    still runs the protocol. *)
Theorem getModifier_suppresses_rebuild (mode send : bool) (process : Z) (σ : Store)
    (recv : Z -> Buffer) (r r' : RemoteIndices) (m : RemoteIndexListModifier.t)
    (w w' : World) :
  getModifier mode send process σ r w = Ok (r', m) w' ->
  rebuild (publicIgnored r) σ recv r' w' = Ok r' w' /\
  forall r2 w2,
    rebuild (negb (publicIgnored r)) σ recv r' w' = Ok r2 w2 ->
    exists t, trace w2 = trace w' ++ t ++ [MPI_Barrier].
Proof.
  intros H. unfold getModifier in H.
  apply bind_inv_ok in H as ([r1 found] & w1 & Hfind & H).
  apply bind_inv_ok in H as (lists & w2 & Hl & H). simpl in Hl, H.
  assert (w2 = w1) as -> by (destruct found; [now injection Hl|discriminate]).
  apply bind_inv_ok in H as (m' & w3 & Hctor & H). injection H as -> -> ->.
  assert (w' = w1) as ->.
  { destruct send;
      apply bind_inv_ok in Hctor as (x & w4 & Hx & Hctor);
      apply modifier_ctor_pure in Hctor as ->;
      [destruct (source_ r')|destruct (target_ r')];
      solve [now injection Hx|discriminate]. }
  apply getModifier_find_inv in Hfind
    as (a & b & s & t & Hs & Ht & Ha & Hb & H1 & H2 & Hfirst & Hpub).
  assert (Hsync : isSynced σ r' w1 = Ok true w1).
  { unfold isSynced.
    rewrite Hs, (bind_ok _ _ _ _ _ (deref_set_ok _ _ _ w1 Ha)), H1, Z.eqb_refl.
    rewrite Ht, (bind_ok _ _ _ _ _ (deref_set_ok _ _ _ w1 Hb)).
    unfold ret. now rewrite H2, Z.eqb_refl. }
  split.
  - unfold rebuild. rewrite Hfirst, Hpub, eqb_reflx. simpl.
    now rewrite bind_assoc, (bind_ok _ _ _ _ _ Hsync), bind_ret.
  - intros r2 w2 H. unfold rebuild in H. rewrite Hfirst, Hpub in H.
    assert (E : eqb (negb (publicIgnored r)) (publicIgnored r) = false)
      by now destruct (publicIgnored r).
    rewrite E in H. simpl in H. rewrite bind_ret in H.
    apply bind_inv_ok in H as (r3 & w3 & Hfree & H).
    apply appends_free in Hfree as [t1 E1].
    apply bind_inv_ok in H as (r4 & w4 & Hbuild & H).
    apply buildRemote_trace in Hbuild as (t2 & E2 & _).
    apply bind_inv_ok in H as (s' & w5 & Hs' & H).
    apply deref_set_inv in Hs' as [-> _].
    apply bind_inv_ok in H as (t' & w6 & Ht' & H).
    apply deref_set_inv in Ht' as [-> _].
    injection H as _ <-. exists (t1 ++ t2). rewrite E2, E1, <- !app_assoc. reflexivity.
Qed.

Lemma getModifier_suppresses_rebuild_witness :
  exists r' m w',
    getModifier false true 1 example_store (RemoteIndices_ctor 1 1 example_comm) empty_world
      = Ok (r', m) w' /\
    rebuild false example_store (fun _ => example_message) r' w' = Ok r' w'.
Proof.
  eexists _, _, _. split; [vm_compute; reflexivity|].
  refine (proj1 (getModifier_suppresses_rebuild false true 1 example_store
                   (fun _ => example_message) (RemoteIndices_ctor 1 1 example_comm)
                   _ _ empty_world _ _)).
  vm_compute. reflexivity.
Defined.

(** ** The modifier keeps a list in order *)

Lemma sorted_app {A} (R : A -> A -> Prop) (l1 l2 : list A) :
  StronglySorted R l1 -> StronglySorted R l2 ->
  (forall a b, a ∈ l1 -> b ∈ l2 -> R a b) ->
  StronglySorted R (l1 ++ l2).
Proof.
  induction 1 as [|a l1 Hs IH Ha]; intros H2 H; simpl; [exact H2|].
  constructor.
  - apply IH; [exact H2|]. intros x y Hx. apply H. apply elem_of_cons. now right.
  - apply Forall_app. split; [exact Ha|].
    apply Forall_forall. intros y Hy. apply H; [|exact Hy]. apply elem_of_cons. now left.
Qed.

Lemma sorted_app_inv {A} (R : A -> A -> Prop) (l1 l2 : list A) :
  StronglySorted R (l1 ++ l2) ->
  StronglySorted R l1 /\ StronglySorted R l2 /\
  forall a b, a ∈ l1 -> b ∈ l2 -> R a b.
Proof.
  induction l1 as [|a l1 IH]; simpl; intros H.
  - split; [constructor|]. split; [exact H|]. intros a b Ha. now apply elem_of_nil in Ha.
  - apply StronglySorted_inv in H as [H Ha].
    destruct (IH H) as (H1 & H2 & H12). apply Forall_app in Ha as [Ha1 Ha2].
    split; [now constructor|]. split; [exact H2|].
    intros x y [->|Hx]%elem_of_cons Hy.
    + rewrite Forall_forall in Ha2. auto.
    + auto.
Qed.

(** The cursor after the search of [insert] and [remove]: the records in
    front of it are not above [G] when those in front of the old cursor were
    not, and the records from it on are not below [G]. *)
Lemma seek_splits σ G (l : RemoteIndexList) i :
  ascending_list σ l ->
  Forall (fun r => gid σ r <= G) (take i l) ->
  let k := (i + below σ G (drop i l))%nat in
  Forall (fun r => gid σ r <= G) (take k l) /\
  Forall (fun r => G <= gid σ r) (drop k l).
Proof.
  intros Hs Hpre k.
  assert (Hk : take k l = take i l ++ take (below σ G (drop i l)) (drop i l))
    by (unfold k; now rewrite take_take_drop).
  split.
  - rewrite Hk. apply Forall_app. split; [exact Hpre|].
    eapply Forall_impl; [apply below_prefix|]. simpl. intros r Hr. lia.
  - unfold k. rewrite <- drop_drop.
    destruct (drop (below σ G (drop i l)) (drop i l)) as [|r rest] eqn:E; [constructor|].
    pose proof (below_head _ _ _ _ _ E) as Hr.
    assert (Hsr : ascending_list σ (r :: rest)).
    { rewrite <- E. rewrite drop_drop.
      rewrite <- (take_drop (i + below σ G (drop i l)) l) in Hs.
      now apply sorted_app_inv in Hs as (_ & Hs & _). }
    apply StronglySorted_inv in Hsr as [_ Hall].
    constructor; [exact Hr|].
    eapply Forall_impl; [exact Hall|]. simpl. intros y Hy. lia.
Qed.

(** X4.  Let the list be in ascending order of its global ids, with the
    records in front of the cursor not above [G], the global id of [index].
    Then [insert(index)] completes and links the record in at its place in
    the order: the list is the old one with the record added, still
    ascending, and the records in front of the new cursor (the inserted one
    is the last of them) are not above [G].  With assertions enabled the
    list must not hold [G] from the cursor on. *)
Theorem insert_keeps_ascending (cfg : Config) (σ : Store)
    (m : RemoteIndexListModifier.t) (w : World) (l : RemoteIndexList)
    (index : RemoteIndex) (x : IndexPair) :
  heap w !! rList_ m = Some l ->
  valid_list σ l ->
  pair_at σ (localIndex_ index) = Some x ->
  ascending_list σ l ->
  (iter_ m <= length l)%nat ->
  Forall (fun r => gid σ r <= global x) (take (iter_ m) l) ->
  (NDEBUG cfg = false -> Forall (fun r => gid σ r <> global x) (drop (iter_ m) l)) ->
  (DUNE_ISTL_WITH_CHECKING cfg = true -> first_ m = true \/ last_ m <= global x) ->
  exists m' w' pre post,
    insert cfg σ index m w = Ok m' w' /\
    l = pre ++ post /\
    heap w' = <[rList_ m := pre ++ index :: post]> (heap w) /\
    trace w' = trace w /\
    rList_ m' = rList_ m /\ iter_ m' = S (length pre) /\
    first_ m' = false /\ last_ m' = global x /\
    valid_list σ (pre ++ index :: post) /\
    ascending_list σ (pre ++ index :: post) /\
    Forall (fun r => gid σ r <= global x) (pre ++ [index]) /\
    Forall (fun r => global x <= gid σ r) post.
Proof.
  intros Hl Hv Hx Hs Hcur Hpre Hassert Hchk.
  set (G := global x) in *.
  set (i := (iter_ m + below σ G (drop (iter_ m) l))%nat).
  destruct (seek_splits σ G l (iter_ m) Hs Hpre) as [Hle Hge]. fold i in Hle, Hge.
  assert (Hg : forall w', global_of σ index w' = Ok G w')
    by (intros w'; now apply global_of_ok).
  assert (Hgid : gid σ index = G) by (unfold gid; now rewrite Hx).
  assert (Hi : (i <= length l)%nat).
  { unfold i. pose proof (below_le σ G (drop (iter_ m) l)) as H.
    rewrite length_drop in H. lia. }
  set (l1 := take i l ++ index :: drop i l).
  set (w1 := {| heap := <[rList_ m := l1]> (heap w); trace := trace w |}).
  exists {| rList_ := rList_ m; indexSet_ := indexSet_ m; glist_ := glist_ m;
            iter_ := S i; giter_ := giter_ m; first_ := false; last_ := G |},
    w1, (take i l), (drop i l).
  split.
  { unfold insert.
    rewrite (bind_ok _ _ _ _ _ (check_position_passes cfg m _ G w (Hg w) Hchk)).
    rewrite (bind_ok _ _ _ l w); [|unfold read_list; now rewrite Hl].
    rewrite (bind_ok _ _ _ _ _ (seek_ok σ _ G _ (iter_ m) w Hg (valid_list_drop _ _ _ Hv))).
    fold i.
    rewrite (bind_ok _ _ _ tt w).
    2:{ unfold assert. destruct (NDEBUG cfg) eqn:En; [reflexivity|].
        destruct (l !! i) as [r|] eqn:Hr; [|reflexivity].
        assert (Hrin : r ∈ l) by (apply list_elem_of_lookup; eauto).
        assert (Hrv : is_Some (pair_at σ (localIndex_ r))).
        { unfold valid_list in Hv. rewrite Forall_forall in Hv. auto. }
        rewrite bind_assoc, (bind_ok _ _ _ _ _ (global_of_gid _ _ w Hrv)).
        rewrite bind_assoc, (bind_ok _ _ _ _ _ (Hg w)), bind_ret.
        assert (Hne : gid σ r <> G).
        { specialize (Hassert eq_refl). rewrite Forall_forall in Hassert.
          apply Hassert. apply list_elem_of_lookup. exists (i - iter_ m)%nat.
          rewrite lookup_drop. rewrite <- Hr. f_equal. unfold i. lia. }
        apply Z.eqb_neq in Hne. now rewrite Hne. }
    unfold SLList_insert. fold l1.
    rewrite (bind_ok _ _ _ tt w1); [|unfold write_list; now rewrite Hl].
    now rewrite (bind_ok _ _ _ _ _ (Hg w1)). }
  split; [now rewrite take_drop|].
  split; [reflexivity|]. split; [reflexivity|]. split; [reflexivity|].
  split; [simpl; now rewrite length_take_le|].
  split; [reflexivity|]. split; [reflexivity|].
  split.
  { apply Forall_app. split; [now apply Forall_take|].
    apply Forall_cons. split; [rewrite Hx; eauto|now apply Forall_drop]. }
  split.
  { rewrite <- (take_drop i l) in Hs. apply sorted_app_inv in Hs as (Hs1 & Hs2 & _).
    apply sorted_app; [exact Hs1| |].
    - constructor; [exact Hs2|].
      eapply Forall_impl; [exact Hge|]. simpl. intros r Hr. lia.
    - intros a b Ha [->|Hb]%elem_of_cons.
      + rewrite Forall_forall in Hle. rewrite Hgid. auto.
      + rewrite Forall_forall in Hle, Hge. specialize (Hle a Ha). specialize (Hge b Hb). lia. }
  split; [|exact Hge].
  apply Forall_app. split; [exact Hle|]. constructor; [lia|constructor].
Qed.

Lemma insert_keeps_ascending_witness :
  exists m' w' pre post,
    insert checked example_store (example_remote 1) (modifier_at 0 true 0)
      (world_with [example_remote 0; example_remote 2]) = Ok m' w' /\
    [example_remote 0; example_remote 2] = pre ++ post /\
    heap w' = <[1%positive := pre ++ example_remote 1 :: post]>
                (heap (world_with [example_remote 0; example_remote 2])) /\
    ascending_list example_store (pre ++ example_remote 1 :: post) /\
    Forall (fun r => gid example_store r <= 2) (pre ++ [example_remote 1]) /\
    Forall (fun r => 2 <= gid example_store r) post.
Proof.
  destruct (insert_keeps_ascending checked example_store (modifier_at 0 true 0)
              (world_with [example_remote 0; example_remote 2])
              [example_remote 0; example_remote 2] (example_remote 1) (example_pair 2))
    as (m' & w' & pre & post & Hrun & Hl & Hheap & _ & _ & _ & _ & _ & _ & Hs & Hle & Hge).
  - reflexivity.
  - repeat constructor; eexists; reflexivity.
  - reflexivity.
  - repeat constructor; vm_compute; discriminate.
  - simpl. lia.
  - constructor.
  - intros _. repeat constructor; vm_compute; discriminate.
  - intros _. now left.
  - exists m', w', pre, post. repeat split; assumption.
Defined.

(** ** What remove finds *)

Lemma below_all σ G (rest : RemoteIndexList) :
  Forall (fun r => gid σ r < G) rest -> below σ G rest = length rest.
Proof.
  induction 1 as [|r rest Hr _ IH]; simpl; [reflexivity|].
  apply Z.ltb_lt in Hr. now rewrite Hr, IH.
Qed.

(** X5.  Let the list hold, from the cursor on, a record that is not below
    [G].  Then [remove(G)] in the mode that leaves the index set alone
    moves the cursor to the first such record and unlinks it exactly if its
    global id is [G]: it returns true and the list loses that one record, or
    it returns false and the world is as before.  In an ascending list it
    returns true exactly if a record from the cursor on has global id
    [G]. *)
Theorem remove_unlinks_first_match (cfg : Config) (σ : Store)
    (m : RemoteIndexListModifier.t) (w : World) (l : RemoteIndexList) (G : GlobalIndex) :
  heap w !! rList_ m = Some l ->
  valid_list σ l ->
  (iter_ m <= length l)%nat ->
  (DUNE_ISTL_WITH_CHECKING cfg = true -> first_ m = true \/ last_ m <= G) ->
  Exists (fun r => G <= gid σ r) (drop (iter_ m) l) ->
  exists pre r post m' w',
    l = pre ++ r :: post /\
    (iter_ m <= length pre)%nat /\
    Forall (fun r' => gid σ r' < G) (drop (iter_ m) pre) /\
    G <= gid σ r /\
    remove false cfg σ G m w = Ok (m', gid σ r =? G) w' /\
    w' = (if gid σ r =? G
          then {| heap := <[rList_ m := pre ++ post]> (heap w); trace := trace w |}
          else w) /\
    rList_ m' = rList_ m /\ iter_ m' = length pre /\
    first_ m' = false /\ last_ m' = G /\
    (ascending_list σ l ->
     ((gid σ r =? G) = true <-> Exists (fun r' => gid σ r' = G) (drop (iter_ m) l))).
Proof.
  intros Hl Hv Hcur Hchk Hex.
  set (i := (iter_ m + below σ G (drop (iter_ m) l))%nat).
  destruct (below_stops _ _ _ Hex) as (r & rest & Hdrop & Hr).
  rewrite drop_drop in Hdrop. fold i in Hdrop.
  assert (Hri : l !! i = Some r).
  { rewrite <- (Nat.add_0_r i), <- lookup_drop, Hdrop. reflexivity. }
  assert (Hrv : is_Some (pair_at σ (localIndex_ r))).
  { unfold valid_list in Hv. rewrite Forall_forall in Hv.
    apply Hv, list_elem_of_lookup. eauto. }
  assert (Hlen : length (take i l) = i).
  { apply length_take_le. apply lookup_lt_Some in Hri. lia. }
  assert (Hsplit : l = take i l ++ r :: rest).
  { rewrite <- Hdrop. now rewrite take_drop. }
  assert (Hrest : drop (S i) l = rest).
  { rewrite Hsplit at 1. rewrite (cons_middle r), app_assoc.
    rewrite drop_app_length'; [reflexivity|].
    rewrite length_app, Hlen. simpl. lia. }
  assert (Hpre : Forall (fun r' => gid σ r' < G) (drop (iter_ m) (take i l))).
  { unfold i. rewrite <- take_drop_commute. apply below_prefix. }
  exists (take i l), r, rest.
  exists {| rList_ := rList_ m; indexSet_ := indexSet_ m; glist_ := glist_ m;
            iter_ := i; giter_ := giter_ m; first_ := false; last_ := G |},
    (if gid σ r =? G
     then {| heap := <[rList_ m := take i l ++ rest]> (heap w); trace := trace w |}
     else w).
  split; [exact Hsplit|].
  split; [rewrite Hlen; unfold i; lia|].
  split; [exact Hpre|].
  split; [exact Hr|].
  split.
  { unfold remove.
    rewrite (bind_ok _ _ _ tt w).
    2:{ apply (check_position_passes cfg m _ G); [reflexivity|exact Hchk]. }
    rewrite (bind_ok _ _ _ l w); [|unfold read_list; now rewrite Hl].
    rewrite (bind_ok _ _ _ i w).
    2:{ apply (seek_ok σ (ret G) G); [reflexivity|now apply valid_list_drop]. }
    rewrite (bind_ok _ _ _ r w); [|unfold SLList_deref; now rewrite Hri].
    rewrite (bind_ok _ _ _ _ _ (global_of_gid _ _ w Hrv)).
    destruct (gid σ r =? G); [|reflexivity].
    unfold SLList_remove. rewrite Hri, bind_ret, Hrest.
    rewrite (bind_ok _ _ _ tt {| heap := <[rList_ m := take i l ++ rest]> (heap w);
                                 trace := trace w |});
      [reflexivity|unfold write_list; now rewrite Hl]. }
  split; [reflexivity|].
  split; [reflexivity|]. split; [now rewrite Hlen|].
  split; [reflexivity|]. split; [reflexivity|].
  intros Hs. rewrite Z.eqb_eq.
  assert (Hd : drop (iter_ m) l = drop (iter_ m) (take i l) ++ r :: rest).
  { rewrite Hsplit at 1. rewrite drop_app_le by (rewrite Hlen; unfold i; lia).
    reflexivity. }
  split.
  - intros E. rewrite Hd. apply Exists_app. right. now constructor.
  - rewrite Hd. intros [H|H]%Exists_app.
    + apply Exists_exists in H as (r' & Hin & E).
      rewrite Forall_forall in Hpre. specialize (Hpre r' Hin). lia.
    + apply Exists_cons in H as [H|H]; [exact H|].
      apply Exists_exists in H as (r' & Hin & E).
      rewrite Hsplit in Hs. apply sorted_app_inv in Hs as (_ & Hs & _).
      apply StronglySorted_inv in Hs as [_ Hall].
      rewrite Forall_forall in Hall. specialize (Hall r' Hin). simpl in Hall. lia.
Qed.

Lemma remove_unlinks_first_match_witness :
  exists pre r post m' w',
    [example_remote 0; example_remote 2; example_remote 4] = pre ++ r :: post /\
    Forall (fun r' => gid example_store r' < 3) pre /\
    3 <= gid example_store r /\
    remove false checked example_store 3 (modifier_at 0 true 0)
      (world_with [example_remote 0; example_remote 2; example_remote 4])
      = Ok (m', gid example_store r =? 3) w' /\
    (gid example_store r =? 3) = true /\
    heap w' !! 1%positive = Some (pre ++ post).
Proof.
  destruct (remove_unlinks_first_match checked example_store (modifier_at 0 true 0)
              (world_with [example_remote 0; example_remote 2; example_remote 4])
              [example_remote 0; example_remote 2; example_remote 4] 3)
    as (pre & r & post & m' & w' & Hl & _ & Hpre & Hr & Hrun & Hw & _ & _ & _ & _ & Hiff).
  - reflexivity.
  - repeat constructor; eexists; reflexivity.
  - simpl. lia.
  - intros _. now left.
  - apply Exists_cons_tl, Exists_cons_hd. vm_compute. discriminate.
  - assert (Hfound : (gid example_store r =? 3) = true).
    { apply Hiff; [repeat constructor; vm_compute; discriminate|].
      apply Exists_cons_tl, Exists_cons_hd. reflexivity. }
    exists pre, r, post, m', w'. split; [exact Hl|]. split; [exact Hpre|].
    split; [exact Hr|]. split; [exact Hrun|]. split; [exact Hfound|].
    rewrite Hw, Hfound. simpl. apply lookup_insert_eq.
Defined.

(** ** The cursor at the end of the list *)

Lemma seek_shadow_all G (rest : RemoteIndexList) : forall (grest : list GlobalIndex) w,
  length rest = length grest -> Forall (fun g => g < G) grest ->
  seek_shadow G rest grest w = Ok (length rest) w.
Proof.
  induction rest as [|r rest IH]; intros [|g grest] w Hlen Hall; simpl in *;
    try discriminate; [reflexivity|].
  apply Forall_cons in Hall as [Hg Hall]. apply Z.ltb_lt in Hg. rewrite Hg.
  rewrite (bind_ok _ _ _ _ _ (IH grest w ltac:(lia) Hall)). reflexivity.
Qed.

Lemma lookup_past_drop {A} (l : list A) i : l !! (i + length (drop i l))%nat = None.
Proof. apply lookup_ge_None. rewrite length_drop. lia. Qed.

(** X6.  [remove(G)] does not test for the end of the list before it looks
    at the record under the cursor: when every record from the cursor on is
    below [G], and so when the list is empty or the cursor at its end, the
    search stops at the end and the call dereferences the end iterator, in
    either mode. *)
Theorem remove_past_the_end (mode : bool) (cfg : Config) (σ : Store)
    (m : RemoteIndexListModifier.t) (w : World) (l : RemoteIndexList) (G : GlobalIndex) :
  heap w !! rList_ m = Some l ->
  (DUNE_ISTL_WITH_CHECKING cfg = true -> first_ m = true \/ last_ m <= G) ->
  (if mode
   then length (drop (iter_ m) l) = length (drop (giter_ m) (glist_ m)) /\
        Forall (fun g => g < G) (drop (giter_ m) (glist_ m))
   else valid_list σ l /\ Forall (fun r => gid σ r < G) (drop (iter_ m) l)) ->
  remove mode cfg σ G m w = Undefined EndDereference.
Proof.
  intros Hl Hchk H. unfold remove.
  rewrite (bind_ok _ _ _ tt w).
  2:{ apply (check_position_passes cfg m _ G); [reflexivity|exact Hchk]. }
  rewrite (bind_ok _ _ _ l w); [|unfold read_list; now rewrite Hl].
  destruct mode.
  - destruct H as [Hlen Hall].
    rewrite (bind_ok _ _ _ _ _ (seek_shadow_all G _ _ w Hlen Hall)).
    unfold SLList_deref. rewrite Hlen, lookup_past_drop. reflexivity.
  - destruct H as [Hv Hall].
    rewrite (bind_ok _ _ _ (iter_ m + length (drop (iter_ m) l))%nat w).
    2:{ rewrite (seek_ok σ (ret G) G); [|reflexivity|now apply valid_list_drop].
        now rewrite below_all. }
    unfold SLList_deref. rewrite lookup_past_drop. reflexivity.
Qed.

Lemma remove_past_the_end_witness :
  remove false checked example_store 5 (modifier_at 0 true 0)
    (world_with [example_remote 0; example_remote 2]) = Undefined EndDereference.
Proof.
  apply (remove_past_the_end false checked example_store (modifier_at 0 true 0)
           (world_with [example_remote 0; example_remote 2])
           [example_remote 0; example_remote 2] 5).
  - reflexivity.
  - intros _. now left.
  - split; repeat constructor; eexists; reflexivity.
Defined.

(** X7.  The overload [insert(index, global)] asserts that the record under
    the cursor has another global id without testing for the end of the
    list.  When every shadow entry from the cursor on is below [global],
    and so on an empty list, a build with assertions dereferences the end
    iterator; a build with NDEBUG appends the record to the list and the
    global id to the shadow list. *)
Theorem insert_global_at_the_end (cfg : Config) (σ : Store)
    (m : RemoteIndexListModifier.t) (w : World) (l : RemoteIndexList)
    (index : RemoteIndex) (G : GlobalIndex) :
  heap w !! rList_ m = Some l ->
  (DUNE_ISTL_WITH_CHECKING cfg = true -> first_ m = true \/ last_ m <= G) ->
  (iter_ m <= length l)%nat -> (giter_ m <= length (glist_ m))%nat ->
  length (drop (iter_ m) l) = length (drop (giter_ m) (glist_ m)) ->
  Forall (fun g => g < G) (drop (giter_ m) (glist_ m)) ->
  insert_global cfg σ index G m w =
  if NDEBUG cfg
  then Ok {| rList_ := rList_ m; indexSet_ := indexSet_ m;
             glist_ := glist_ m ++ [G];
             iter_ := S (length l); giter_ := S (length (glist_ m));
             first_ := false; last_ := G |}
          {| heap := <[rList_ m := l ++ [index]]> (heap w); trace := trace w |}
  else Undefined EndDereference.
Proof.
  intros Hl Hchk Hi Hgi Hlen Hall. unfold insert_global.
  rewrite (bind_ok _ _ _ tt w).
  2:{ apply (check_position_passes cfg m _ G); [reflexivity|exact Hchk]. }
  rewrite (bind_ok _ _ _ l w); [|unfold read_list; now rewrite Hl].
  rewrite (bind_ok _ _ _ _ _ (seek_shadow_all G _ _ w Hlen Hall)).
  assert (Ei : (iter_ m + length (drop (iter_ m) l))%nat = length l)
    by (rewrite length_drop; lia).
  assert (Egi : (giter_ m + length (drop (iter_ m) l))%nat = length (glist_ m))
    by (rewrite Hlen, length_drop; lia).
  rewrite Ei, Egi. unfold assert, SLList_deref, SLList_insert.
  destruct (NDEBUG cfg).
  - rewrite bind_ret. rewrite !firstn_all, !drop_all.
    rewrite (bind_ok _ _ _ tt {| heap := <[rList_ m := l ++ [index]]> (heap w);
                                 trace := trace w |});
      [reflexivity|unfold write_list; now rewrite Hl].
  - rewrite (lookup_ge_None_2 l (length l)) by lia. reflexivity.
Qed.

Lemma insert_global_at_the_end_witness :
  insert_global checked example_store (RemoteIndex_ctor_attribute copy) 5
    (modifier_at 0 true 0) (world_with []) = Undefined EndDereference.
Proof.
  apply (insert_global_at_the_end checked example_store (modifier_at 0 true 0)
           (world_with []) [] (RemoteIndex_ctor_attribute copy) 5).
  - reflexivity.
  - intros _. now left.
  - simpl. lia.
  - simpl. lia.
  - reflexivity.
  - constructor.
Defined.

(** ** The shadow list of global ids *)

Lemma seek_shadow_inv G (rest : RemoteIndexList) : forall (grest : list GlobalIndex) w n w',
  seek_shadow G rest grest w = Ok n w' ->
  w' = w /\ (n <= length rest)%nat.
Proof.
  induction rest as [|r rest IH]; intros grest w n w' H; simpl in H.
  - injection H as <- <-. split; [reflexivity|simpl; lia].
  - destruct grest as [|g grest]; [discriminate|].
    destruct (g <? G).
    + apply bind_inv_ok in H as (n' & w1 & Hn & H). injection H as <- <-.
      apply IH in Hn as [-> Hn]. split; [reflexivity|simpl; lia].
    + injection H as <- <-. split; [reflexivity|simpl; lia].
Qed.

Lemma globals_length σ (l : RemoteIndexList) : forall gl w w',
  globals σ l w = Ok gl w' -> length gl = length l.
Proof.
  induction l as [|r l IH]; intros gl w w' H; simpl in H.
  - now injection H as <- _.
  - apply bind_inv_ok in H as (g & w1 & _ & H).
    apply bind_inv_ok in H as (gs & w2 & Hgs & H). injection H as <- _.
    simpl. f_equal. eauto.
Qed.

Lemma read_list_inv p (l : RemoteIndexList) w w' :
  read_list p w = Ok l w' -> w' = w /\ heap w !! p = Some l.
Proof.
  unfold read_list. destruct (heap w !! p) as [l0|]; run; [|discriminate].
  intros [= -> ->]. auto.
Qed.

Lemma write_list_inv p (l : RemoteIndexList) w u w' :
  write_list p l w = Ok u w' ->
  w' = {| heap := <[p := l]> (heap w); trace := trace w |}.
Proof.
  unfold write_list. destruct (heap w !! p); [|discriminate]. now intros [= _ <-].
Qed.

Lemma assert_inv ndebug (c : M bool) w u w' :
  (forall b w1, c w = Ok b w1 -> w1 = w) ->
  assert ndebug c w = Ok u w' -> w' = w.
Proof.
  intros Hc. unfold assert. destruct ndebug; [now intros [= _ <-]|].
  intros H. apply bind_inv_ok in H as (b & w1 & Hb & H).
  apply Hc in Hb as ->. destruct b; [now injection H as _ <-|discriminate].
Qed.

Lemma check_position_inv cfg m (g : M GlobalIndex) w u w' :
  (forall x w1, g w = Ok x w1 -> w1 = w) ->
  check_position cfg m g w = Ok u w' -> w' = w.
Proof.
  intros Hg. unfold check_position.
  destruct (DUNE_ISTL_WITH_CHECKING cfg); [|now intros [= _ <-]].
  destruct (first_ m); [now intros [= _ <-]|].
  intros H. apply bind_inv_ok in H as (x & w1 & Hx & H).
  apply Hg in Hx as ->. destruct (x <? last_ m); [discriminate|now injection H as _ <-].
Qed.

Lemma global_of_inv σ r g w w' : global_of σ r w = Ok g w' -> w' = w.
Proof.
  unfold global_of, localIndexPair. intros H.
  apply bind_inv_ok in H as (p & w1 & Hp & H).
  apply deref_pair_inv in Hp as [_ ->]. now injection H as _ <-.
Qed.

(** X8.  In the mode that may modify the index set the modifier keeps a
    shadow list of global ids beside the list.  The constructor builds it
    with one entry per record, and every completed [insert(index, global)]
    and [remove(global)] keeps the two in step: they have the same length
    and the two cursors the same position, inside the list. *)
Theorem shadow_list_stays_aligned (cfg : Config) (σ : Store) (w : World) :
  (forall a p l m w',
     heap w !! p = Some l ->
     ctor true σ a p w = Ok m w' -> w' = w /\ aligned m l) /\
  (forall m l index G m' w',
     heap w !! rList_ m = Some l -> aligned m l ->
     insert_global cfg σ index G m w = Ok m' w' ->
     rList_ m' = rList_ m /\
     exists l', heap w' !! rList_ m = Some l' /\ aligned m' l' /\
                length l' = S (length l)) /\
  (forall m l G m' b w',
     heap w !! rList_ m = Some l -> aligned m l ->
     remove true cfg σ G m w = Ok (m', b) w' ->
     rList_ m' = rList_ m /\
     exists l', heap w' !! rList_ m = Some l' /\ aligned m' l' /\
                length l = (if b then S (length l') else length l')).
Proof.
  split; [|split].
  - intros a p l m w' Hl H. unfold ctor in H.
    apply bind_inv_ok in H as (l0 & w1 & Hl0 & H).
    apply read_list_inv in Hl0 as [-> Hl0].
    assert (l0 = l) as -> by congruence.
    apply bind_inv_ok in H as (gl & w2 & Hgl & H). injection H as <- <-.
    pose proof (modifier_ctor_pure true σ a p w
                  {| rList_ := p; indexSet_ := a; glist_ := gl; iter_ := 0; giter_ := 0;
                     first_ := true; last_ := 0 |} w2) as Hpure.
    split.
    + apply Hpure. unfold ctor.
      rewrite (bind_ok _ _ _ l w); [|unfold read_list; now rewrite Hl].
      now rewrite (bind_ok _ _ _ _ _ Hgl).
    + unfold aligned. simpl. split; [reflexivity|].
      split; [now apply globals_length in Hgl|lia].
  - intros m l index G m' w' Hl (Hcur & Hlen & Hin) H. unfold insert_global in H.
    apply bind_inv_ok in H as (u & w1 & Hchk & H).
    apply check_position_inv in Hchk as ->; [|now intros x w9 [= _ <-]].
    apply bind_inv_ok in H as (l0 & w1 & Hl0 & H).
    apply read_list_inv in Hl0 as [-> Hl0].
    assert (l0 = l) as -> by congruence.
    apply bind_inv_ok in H as (n & w1 & Hn & H).
    apply seek_shadow_inv in Hn as [-> Hn]. rewrite length_drop in Hn.
    apply bind_inv_ok in H as (u' & w1 & Hassert & H).
    apply assert_inv in Hassert as ->.
    2:{ intros b0 w2 Hb. apply bind_inv_ok in Hb as (r & w3 & Hr & Hb).
        assert (w3 = w) as ->.
        { unfold SLList_deref in Hr. destruct (l !! _); [now injection Hr|discriminate]. }
        apply bind_inv_ok in Hb as (g & w4 & Hg & Hb).
        apply global_of_inv in Hg as ->. now injection Hb. }
    unfold SLList_insert in H.
    apply bind_inv_ok in H as (u'' & w1 & Hw & H).
    apply write_list_inv in Hw as ->. injection H as <- <-.
    split; [reflexivity|].
    eexists. split; [simpl; apply lookup_insert_eq|].
    unfold aligned. simpl.
    rewrite !length_app, !length_take. simpl. rewrite !length_drop.
    split; [split; [lia|split; lia]|lia].
  - intros m l G m' b w' Hl (Hcur & Hlen & Hin) H. unfold remove in H.
    apply bind_inv_ok in H as (u & w1 & Hchk & H).
    apply check_position_inv in Hchk as ->; [|now intros x w9 [= _ <-]].
    apply bind_inv_ok in H as (l0 & w1 & Hl0 & H).
    apply read_list_inv in Hl0 as [-> Hl0].
    assert (l0 = l) as -> by congruence.
    apply bind_inv_ok in H as (n & w1 & Hn & H).
    apply seek_shadow_inv in Hn as [-> Hn]. rewrite length_drop in Hn.
    apply bind_inv_ok in H as (g & w1 & Hg & H).
    unfold SLList_deref in Hg.
    destruct (glist_ m !! (giter_ m + n)%nat) as [g0|] eqn:Eg; [|discriminate].
    injection Hg as -> <-.
    pose proof (lookup_lt_Some _ _ _ Eg) as Hlt.
    destruct (g =? G).
    + apply bind_inv_ok in H as (gl' & w1 & Hgl & H).
      unfold SLList_remove in Hgl. rewrite Eg in Hgl. injection Hgl as <- <-.
      apply bind_inv_ok in H as (l' & w1 & Hl' & H).
      unfold SLList_remove in Hl'.
      destruct (l !! (iter_ m + n)%nat) as [r|] eqn:Er; [|discriminate].
      injection Hl' as <- <-.
      apply bind_inv_ok in H as (u' & w1 & Hw & H).
      apply write_list_inv in Hw as ->. injection H as <- <- <-.
      split; [reflexivity|].
      eexists. split; [simpl; apply lookup_insert_eq|].
      unfold aligned. simpl.
      rewrite !length_app, !length_take, !length_drop.
      apply lookup_lt_Some in Er.
      split; [split; [lia|split; lia]|lia].
    + injection H as <- <- <-. split; [reflexivity|].
      exists l. split; [exact Hl|]. unfold aligned. simpl.
      split; [split; [lia|split; lia]|lia].
Qed.

Lemma shadow_list_stays_aligned_witness :
  exists m0 m1 w1 l',
    ctor true example_store 1 1 (world_with [example_remote 4])
      = Ok m0 (world_with [example_remote 4]) /\
    insert_global checked example_store (RemoteIndex_ctor_attribute copy) 5 m0
      (world_with [example_remote 4]) = Ok m1 w1 /\
    heap w1 !! 1%positive = Some l' /\ aligned m1 l' /\ length l' = 2%nat.
Proof.
  destruct (shadow_list_stays_aligned checked example_store (world_with [example_remote 4]))
    as (_ & Hins & _).
  eexists _, _, _.
  destruct (Hins {| rList_ := 1%positive; indexSet_ := 1%positive; glist_ := [7];
                    iter_ := 0; giter_ := 0; first_ := true; last_ := 0 |}
              [example_remote 4] (RemoteIndex_ctor_attribute copy) 5
              {| rList_ := 1%positive; indexSet_ := 1%positive; glist_ := [5; 7];
                 iter_ := 1; giter_ := 1; first_ := false; last_ := 5 |}
              (world_with [RemoteIndex_ctor_attribute copy; example_remote 4]))
    as (_ & l' & Hl' & Hal & Hlen).
  - reflexivity.
  - unfold aligned. simpl. repeat split; lia.
  - vm_compute. reflexivity.
  - exists l'. split; [vm_compute; reflexivity|]. split; [vm_compute; reflexivity|].
    split; [exact Hl'|]. split; [exact Hal|exact Hlen].
Defined.

(** ** Repairing the back-references *)

Lemma repair_seek_to g (rest : list IndexPair) : forall j i x w,
  rest !! j = Some x -> g <= global x ->
  Forall (fun y => global y < g) (take j rest) ->
  repair_seek g rest i w = Ok (i + j)%nat w.
Proof.
  induction rest as [|y rest IH]; intros [|j] i x w Hx Hg Hall; simpl in *;
    try discriminate.
  - injection Hx as ->. apply Z.ltb_ge in Hg. rewrite Hg. unfold ret. f_equal. lia.
  - apply Forall_cons in Hall as [Hy Hall]. apply Z.ltb_lt in Hy. rewrite Hy.
    rewrite (IH j (S i) x w Hx Hg Hall). f_equal. lia.
Qed.

Lemma repair_loop_same a (recs : list IndexPair) (giter : M GlobalIndex) g k x
    (nodes : RemoteIndexList) : forall index w,
  (forall w', giter w' = Ok g w') ->
  recs !! k = Some x -> g <= global x ->
  Forall (fun y => global y < g) (take k recs) ->
  (index <= k)%nat ->
  repair_loop a recs giter nodes index w =
  Ok (map (set_localIndex_ (slot_of a k)) nodes) w.
Proof.
  induction nodes as [|r nodes IH]; intros index w Hgiter Hx Hg Hall Hindex; simpl;
    [reflexivity|].
  rewrite (bind_ok _ _ _ _ _ (Hgiter w)).
  rewrite (bind_ok _ _ _ k w).
  2:{ rewrite (repair_seek_to g (drop index recs) (k - index) index x).
      - f_equal. lia.
      - rewrite lookup_drop, <- Hx. f_equal. lia.
      - exact Hg.
      - rewrite take_drop_commute. apply Forall_drop.
        now replace (index + (k - index))%nat with k by lia. }
  rewrite (bind_ok _ _ _ _ _ (IH k w Hgiter Hx Hg Hall (le_n k))). reflexivity.
Qed.

(** X9.  [repairLocalIndexPointers()], in the mode that may modify the index
    set, never moves its cursor into the shadow list: every record of the
    list is pointed at one and the same record of the index set, the first
    one whose global id is not below the first entry of the shadow list.
    The attributes stay as they are. *)
Theorem repair_points_all_records_at_one (σ : Store) (m : RemoteIndexListModifier.t)
    (w : World) (l : RemoteIndexList) (s : ParallelIndexSet) (g : GlobalIndex)
    (gs : list GlobalIndex) (k : nat) (x : IndexPair) :
  heap w !! rList_ m = Some l ->
  σ !! indexSet_ m = Some s ->
  glist_ m = g :: gs ->
  records s !! k = Some x -> g <= global x ->
  Forall (fun y => global y < g) (take k (records s)) ->
  repairLocalIndexPointers true σ m w =
    Ok tt {| heap := <[rList_ m := map (set_localIndex_ (slot_of (indexSet_ m) k)) l]> (heap w);
             trace := trace w |} /\
  Forall (fun r => localIndex_ r = slot_of (indexSet_ m) k /\ gid σ r = global x)
    (map (set_localIndex_ (slot_of (indexSet_ m) k)) l) /\
  map attribute_ (map (set_localIndex_ (slot_of (indexSet_ m) k)) l) = map attribute_ l.
Proof.
  intros Hl Hs Hgl Hx Hg Hall. split; [|split].
  - unfold repairLocalIndexPointers.
    rewrite (bind_ok _ _ _ _ _ (deref_set_ok _ _ _ w Hs)).
    rewrite (bind_ok _ _ _ l w); [|unfold read_list; now rewrite Hl].
    assert (Hgiter : forall w', SLList_deref (glist_ m) 0 w' = Ok g w')
      by (intros w'; now rewrite Hgl).
    rewrite (bind_ok _ _ _ _ _
               (repair_loop_same (indexSet_ m) (records s) _ g k x l 0 w
                  Hgiter Hx Hg Hall ltac:(lia))).
    unfold write_list. now rewrite Hl.
  - apply Forall_forall. intros r Hr.
    apply list_elem_of_fmap in Hr as (r0 & -> & _). simpl. split; [reflexivity|].
    unfold gid. simpl. rewrite Hs. simpl. now rewrite Hx.
  - rewrite map_map. reflexivity.
Qed.

Lemma repair_points_all_records_at_one_witness :
  repairLocalIndexPointers true example_store
    {| rList_ := 1%positive; indexSet_ := 1%positive; glist_ := [2; 5];
       iter_ := 0; giter_ := 0; first_ := true; last_ := 0 |}
    (world_with [example_remote 1; example_remote 3]) =
    Ok tt (world_with [example_remote 1; example_remote 1]).
Proof.
  refine (eq_trans (proj1 (repair_points_all_records_at_one example_store
            {| rList_ := 1%positive; indexSet_ := 1%positive; glist_ := [2; 5];
               iter_ := 0; giter_ := 0; first_ := true; last_ := 0 |}
            (world_with [example_remote 1; example_remote 3])
            [example_remote 1; example_remote 3] example_set 2 [5] 1 (example_pair 2)
            _ _ _ _ _ _)) _).
  - reflexivity.
  - reflexivity.
  - reflexivity.
  - reflexivity.
  - simpl. lia.
  - repeat constructor.
  - reflexivity.
Defined.

(** X10.  The search of [repairLocalIndexPointers()] through the index set
    has no test for its end: when the list is not empty and every record of
    the index set is below the first entry of the shadow list, it reads
    behind the last record of the index set. *)
Theorem repair_runs_off_the_index_set (σ : Store) (m : RemoteIndexListModifier.t)
    (w : World) (r : RemoteIndex) (l : RemoteIndexList) (s : ParallelIndexSet)
    (g : GlobalIndex) (gs : list GlobalIndex) :
  heap w !! rList_ m = Some (r :: l) ->
  σ !! indexSet_ m = Some s ->
  glist_ m = g :: gs ->
  Forall (fun y => global y < g) (records s) ->
  repairLocalIndexPointers true σ m w = Undefined OutOfBounds.
Proof.
  intros Hl Hs Hgl Hall. unfold repairLocalIndexPointers.
  rewrite (bind_ok _ _ _ _ _ (deref_set_ok _ _ _ w Hs)).
  rewrite (bind_ok _ _ _ (r :: l) w); [|unfold read_list; now rewrite Hl].
  assert (Hseek : forall rest i, Forall (fun y => global y < g) rest ->
            repair_seek g rest i w = Undefined OutOfBounds).
  { induction rest as [|y rest IH]; intros i Hr; simpl; [reflexivity|].
    apply Forall_cons in Hr as [Hy Hr]. apply Z.ltb_lt in Hy. rewrite Hy. now apply IH. }
  apply bind_undefined. simpl repair_loop.
  rewrite (bind_ok _ _ _ g w) by now rewrite Hgl.
  now rewrite (bind_undefined _ _ _ _ (Hseek _ 0%nat Hall)).
Qed.

Lemma repair_runs_off_the_index_set_witness :
  repairLocalIndexPointers true example_store
    {| rList_ := 1%positive; indexSet_ := 1%positive; glist_ := [8];
       iter_ := 0; giter_ := 0; first_ := true; last_ := 0 |}
    (world_with [RemoteIndex_ctor_attribute copy]) = Undefined OutOfBounds.
Proof.
  apply (repair_runs_off_the_index_set example_store
           {| rList_ := 1%positive; indexSet_ := 1%positive; glist_ := [8];
              iter_ := 0; giter_ := 0; first_ := true; last_ := 0 |}
           (world_with [RemoteIndex_ctor_attribute copy])
           (RemoteIndex_ctor_attribute copy) [] example_set 8 []).
  - reflexivity.
  - reflexivity.
  - reflexivity.
  - repeat constructor.
Defined.

(** ** Building and advancing a collective iterator *)

Lemma StdMap_insert_last {V} k (v : V) (m : list (Z * V)) :
  Forall (fun e => fst e < k) m -> StdMap.insert k v m = m ++ [(k, v)].
Proof.
  induction 1 as [|[k' v'] m Hk _ IH]; simpl; [reflexivity|]. simpl in Hk.
  assert (E1 : (k <? k') = false) by (apply Z.ltb_ge; lia).
  assert (E2 : (k =? k') = false) by (apply Z.eqb_neq; lia).
  now rewrite E1, E2, IH.
Qed.

Lemma ctor_map_ok send (pmap : RemoteIndexMap) : forall (acc : list (Z * RemoteIndexList)) w,
  StdMap_wf pmap ->
  Forall (fun e => Forall (fun e' => fst e' < fst e) acc) pmap ->
  Forall (fun e => is_Some (heap w !! walked send e)) pmap ->
  exists cursors,
    CollectiveIterator.ctor_map pmap send acc w = Ok (acc ++ cursors) w /\
    Forall2 (fun e c => fst c = fst e /\ heap w !! walked send e = Some (snd c)) pmap cursors.
Proof.
  induction pmap as [|[k [first second]] pmap IH]; intros acc w Hwf Hacc Hlive; simpl.
  - exists []. rewrite app_nil_r. split; [reflexivity|constructor].
  - apply Forall_cons in Hlive as [[l Hl] Hlive].
    apply Forall_cons in Hacc as [Hk Hacc]. simpl in Hk.
    unfold StdMap_wf in Hwf. simpl in Hwf. apply StronglySorted_inv in Hwf as [Hwf Hlt].
    rewrite (bind_ok _ _ _ l w); [|unfold read_list; unfold walked in Hl; simpl in Hl; now rewrite Hl].
    rewrite (StdMap_insert_last k l acc Hk).
    destruct (IH (acc ++ [(k, l)]) w Hwf) as (cursors & Hrun & Hall).
    + rewrite Forall_forall in Hacc. rewrite Forall_forall in Hlt.
      apply Forall_forall. intros e He. apply Forall_app. split; [now apply Hacc|].
      constructor; [|constructor]. simpl. apply Hlt.
      apply list_elem_of_fmap. eauto.
    + exact Hlive.
    + exists ((k, l) :: cursors). rewrite Hrun, <- app_assoc. split; [reflexivity|].
      constructor; [|exact Hall]. simpl. auto.
Qed.

(** X11.  [iterator<send>()] on a registry whose lists are allocated gives a
    collective iterator with one cursor per entry of the registry, in the
    order of the ranks: the cursor of a peer stands at the head of the
    peer's send list (first list of the entry) or receive list (second
    list).  Nothing is written. *)
Theorem iterator_has_a_cursor_per_peer (send : bool) (r : RemoteIndices) (w : World) :
  StdMap_wf (remoteIndices_ r) ->
  owns w (remoteIndices_ r) ->
  exists c,
    RemoteIndices_iterator send r w = Ok c w /\
    map fst (CollectiveIterator.map_ c) = map fst (remoteIndices_ r) /\
    Forall2 (fun e cur => fst cur = fst e /\ heap w !! walked send e = Some (snd cur))
      (remoteIndices_ r) (CollectiveIterator.map_ c) /\
    CollectiveIterator.empty c = StdMap.empty (remoteIndices_ r).
Proof.
  intros Hwf [_ Hlive].
  destruct (ctor_map_ok send (remoteIndices_ r) [] w Hwf) as (cursors & Hrun & Hall).
  - apply Forall_forall. intros e _. constructor.
  - apply Forall_forall. intros [k [first second]] He. apply Hlive.
    unfold blocks_of. apply list_elem_of_In, in_flat_map.
    exists (k, (first, second)). split; [now apply list_elem_of_In|].
    unfold walked. simpl. destruct (decide (first = second)) as [->|];
      destruct send; simpl; auto.
  - exists {| CollectiveIterator.map_ := cursors; CollectiveIterator.index_ := 0 |}.
    split.
    { unfold RemoteIndices_iterator, CollectiveIterator.ctor.
      now rewrite (bind_ok _ _ _ _ _ Hrun). }
    simpl. split; [|split; [exact Hall|]].
    + clear Hrun Hwf Hlive.
      induction Hall as [|e c pm cs [Hk _] _ IH]; simpl; [reflexivity|].
      now rewrite Hk, IH.
    + unfold CollectiveIterator.empty. simpl. now destruct Hall.
Qed.

Lemma iterator_has_a_cursor_per_peer_witness :
  exists c,
    RemoteIndices_iterator false example_registry example_world = Ok c example_world /\
    map fst (CollectiveIterator.map_ c) = [1; 2] /\
    Forall2 (fun e cur => fst cur = fst e /\
                          heap example_world !! walked false e = Some (snd cur))
      (remoteIndices_ example_registry) (CollectiveIterator.map_ c).
Proof.
  destruct (iterator_has_a_cursor_per_peer false example_registry example_world)
    as (c & Hrun & Hkeys & Hall & _).
  - repeat constructor.
  - split.
    + apply (bool_decide_unpack _). vm_compute. exact I.
    + assert (E : blocks_of (remoteIndices_ example_registry) = [1; 2; 3]%positive)
        by reflexivity.
      rewrite E. intros p Hp.
      repeat (apply elem_of_cons in Hp as [->|Hp]; [eexists; reflexivity|]).
      now apply elem_of_nil in Hp.
  - exists c. split; [exact Hrun|]. split; [exact Hkeys|exact Hall].
Defined.

Lemma below_below σ G1 G2 (l : RemoteIndexList) :
  G1 <= G2 ->
  (below σ G1 l + below σ G2 (drop (below σ G1 l) l))%nat = below σ G2 l.
Proof.
  intros HG. induction l as [|r l IH]; simpl; [reflexivity|].
  destruct (gid σ r <? G1) eqn:E1.
  - assert (E2 : (gid σ r <? G2) = true) by (apply Z.ltb_lt in E1; apply Z.ltb_lt; lia).
    rewrite E2. simpl. now rewrite IH.
  - simpl. reflexivity.
Qed.

Lemma advanced_cons σ G p cur (m : list (Z * RemoteIndexList)) :
  advanced σ G ((p, cur) :: m) =
  match drop (below σ G cur) cur with
  | [] => []
  | c => [(p, c)]
  end ++ advanced σ G m.
Proof. reflexivity. Qed.

Lemma advanced_app σ G (m1 m2 : list (Z * RemoteIndexList)) :
  advanced σ G (m1 ++ m2) = advanced σ G m1 ++ advanced σ G m2.
Proof. unfold advanced. apply flat_map_app. Qed.

Lemma advanced_advanced σ G1 G2 (m : list (Z * RemoteIndexList)) :
  G1 <= G2 -> advanced σ G2 (advanced σ G1 m) = advanced σ G2 m.
Proof.
  intros HG. induction m as [|[p cur] m IH]; [reflexivity|].
  rewrite !advanced_cons, advanced_app, IH. f_equal.
  pose proof (below_below σ G1 G2 cur HG) as Hb.
  destruct (drop (below σ G1 cur) cur) as [|r rest] eqn:E1.
  - simpl in Hb. rewrite Nat.add_0_r in Hb. rewrite <- Hb, E1. reflexivity.
  - rewrite advanced_cons. unfold advanced at 1. simpl flat_map. rewrite app_nil_r.
    rewrite <- Hb, <- drop_drop, E1. reflexivity.
Qed.

(** X12.  Advancing in two steps is advancing in one: on cursors over
    records with live back-references, [advance(G1)] followed by
    [advance(G2)] with [G1 <= G2] leaves the iterator as [advance(G2)]
    alone does, with the same peers dropped and the same cursor
    positions. *)
Theorem advance_in_steps (σ : Store) (c : CollectiveIterator.t) (G1 G2 : GlobalIndex)
    (w : World) :
  Forall (fun e => valid_list σ (snd e)) (CollectiveIterator.map_ c) ->
  G1 <= G2 ->
  exists c1 c2,
    CollectiveIterator.advance σ G1 c w = Ok c1 w /\
    CollectiveIterator.advance σ G2 c1 w = Ok c2 w /\
    CollectiveIterator.advance σ G2 c w = Ok c2 w.
Proof.
  intros Hv HG.
  exists {| CollectiveIterator.map_ := advanced σ G1 (CollectiveIterator.map_ c);
            CollectiveIterator.index_ := G1 |},
    {| CollectiveIterator.map_ := advanced σ G2 (CollectiveIterator.map_ c);
       CollectiveIterator.index_ := G2 |}.
  unfold CollectiveIterator.advance. simpl.
  split; [now rewrite (bind_ok _ _ _ _ _ (advance_map_ok _ _ _ w Hv))|].
  split; [|now rewrite (bind_ok _ _ _ _ _ (advance_map_ok _ _ _ w Hv))].
  rewrite (bind_ok _ _ _ _ _ (advance_map_ok σ G2 _ w
             (Forall_impl _ _ _ (advanced_valid σ G1 _ Hv) (fun e H => proj1 H)))).
  now rewrite advanced_advanced.
Qed.

Lemma advance_in_steps_witness :
  exists c1 c2,
    CollectiveIterator.advance example_store 3 example_iterator empty_world = Ok c1 empty_world /\
    CollectiveIterator.advance example_store 7 c1 empty_world = Ok c2 empty_world /\
    CollectiveIterator.advance example_store 7 example_iterator empty_world = Ok c2 empty_world.
Proof.
  apply (advance_in_steps example_store example_iterator 3 7 empty_world).
  - repeat constructor; eexists; reflexivity.
  - lia.
Defined.

(** ** The one-list unpackIndices builds the matches *)

Lemma matches_of_none y (locals : list PairPtr) : forall (Ls : list IndexPair),
  Forall (fun x => global x <> global y) Ls -> matches_of y locals Ls = [].
Proof.
  unfold matches_of. induction locals as [|p locals IH]; intros [|x Ls] H; try reflexivity.
  apply Forall_cons in H as [Hx H]. simpl.
  apply Z.eqb_neq in Hx. rewrite Hx. now apply IH.
Qed.

Lemma matches_nil (Ls R : list IndexPair) : matches [] Ls R = [].
Proof. induction R as [|y R IH]; [reflexivity|]. unfold matches in *. simpl. exact IH. Qed.

Lemma matches_skip_local p x (locals : list PairPtr) (Ls R : list IndexPair) :
  Forall (fun y => global x <> global y) R ->
  matches (p :: locals) (x :: Ls) R = matches locals Ls R.
Proof.
  induction 1 as [|y R Hy _ IH]; [reflexivity|].
  unfold matches in *. simpl. rewrite IH. f_equal.
  unfold matches_of. simpl. apply Z.eqb_neq in Hy. now rewrite Hy.
Qed.

Lemma strictly_ascending_after (l : list IndexPair) i x :
  strictly_ascending l -> l !! i = Some x ->
  Forall (fun y => global x < global y) (drop (S i) l).
Proof.
  intros Hs Hx. rewrite <- (take_drop_middle l i x Hx) in Hs.
  apply sorted_app_inv in Hs as (_ & Hs & _).
  now apply StronglySorted_inv in Hs as [_ Hs].
Qed.

Section MergeExact.
Variable σ : Store.
Variable locals : list PairPtr.
Variable Ls R : list IndexPair.
Variable p_in : Buffer.
Variable pos0 : nat.
Hypothesis Hlocals : Forall2 (fun p x => pair_at σ p = Some x) locals Ls.
Hypothesis Hstream : forall j x, R !! j = Some x ->
  p_in !! (pos0 + j)%nat = Some (PackedPair x).
Hypothesis HsL : strictly_ascending Ls.
Hypothesis HsR : strictly_ascending R.

Lemma unpackIndices_loop_matches : forall budget n_in localIndex index remote w,
  R !! n_in = Some index ->
  ((length locals - localIndex) + (length R - 1 - n_in) < budget)%nat ->
  exists n_in' position',
    unpackIndices_loop budget σ locals (length locals) (Z.of_nat (length R)) p_in
      index (Z.of_nat n_in) localIndex (pos0 + n_in + 1)%nat remote w
    = Ok (remote ++ matches (drop localIndex locals) (drop localIndex Ls) (drop n_in R),
          Z.of_nat n_in', position') w /\
    ((n_in' = length R /\ position' = (pos0 + length R)%nat) \/
     ((n_in' < length R)%nat /\ position' = (pos0 + n_in' + 1)%nat)).
Proof.
  induction budget as [|budget IH]; intros n_in localIndex index remote w Hidx Hb; [lia|].
  pose proof (lookup_lt_Some _ _ _ Hidx) as Hn.
  pose proof (strictly_ascending_after R n_in index HsR Hidx) as HafterR.
  rewrite (drop_S R index n_in Hidx).
  simpl. destruct (Nat.ltb_spec localIndex (length locals)) as [Hlt|Hge].
  - destruct (lookup_lt_is_Some_2 locals localIndex Hlt) as [lp Hlp].
    destruct (Forall2_lookup_l _ _ _ _ _ Hlocals Hlp) as (le & Hle & Hat).
    pose proof (strictly_ascending_after Ls localIndex le HsL Hle) as HafterL.
    rewrite (drop_S locals lp localIndex Hlp), (drop_S Ls le localIndex Hle).
    rewrite (bind_ok _ _ _ _ _ (array_read_ok _ _ _ w Hlp)).
    rewrite (bind_ok _ _ _ _ _ (deref_pair_ok _ _ _ w Hat)).
    assert (Hnext : forall x', R !! S n_in = Some x' ->
              MPI_Unpack_pair p_in (pos0 + n_in + 1)%nat w
              = Ok (x', (pos0 + S n_in + 1)%nat) w).
    { intros x' Hx'. rewrite (unpack_pair_ok _ _ x').
      - f_equal. f_equal. lia.
      - rewrite <- (Hstream _ _ Hx'). f_equal. lia. }
    assert (Hlast : (length R <= S n_in)%nat -> drop (S n_in) R = [])
      by (intros H; now apply drop_ge).
    replace (Z.of_nat n_in + 1) with (Z.of_nat (S n_in)) by lia.
    unfold matches at 1. simpl flat_map. fold (matches (lp :: drop (S localIndex) locals)
      (le :: drop (S localIndex) Ls) (drop (S n_in) R)).
    destruct (global le =? global index) eqn:Eeq.
    + apply Z.eqb_eq in Eeq.
      assert (Hof : matches_of index (lp :: drop (S localIndex) locals)
                      (le :: drop (S localIndex) Ls)
                    = [RemoteIndex_ctor (attribute (local index)) lp]).
      { unfold matches_of. simpl. apply Z.eqb_eq in Eeq. rewrite Eeq. simpl. f_equal.
        apply Z.eqb_eq in Eeq.
        apply (matches_of_none index). eapply Forall_impl; [exact HafterL|].
        simpl. intros y Hy. lia. }
      rewrite Hof, matches_skip_local.
      2:{ eapply Forall_impl; [exact HafterR|]. simpl. intros y Hy. lia. }
      destruct (Z.ltb_spec (Z.of_nat (S n_in)) (Z.of_nat (length R))) as [Hmore|Hdone].
      * destruct (lookup_lt_is_Some_2 R (S n_in)) as [x' Hx']; [lia|].
        rewrite (bind_ok _ _ _ _ _ (Hnext x' Hx')). simpl.
        destruct (IH (S n_in) (S localIndex) x'
                    (remote ++ [RemoteIndex_ctor (attribute (local index)) lp]) w Hx')
          as (n_in' & position' & Hrun & Hpos); [lia|].
        exists n_in', position'. rewrite Hrun, <- app_assoc. auto.
      * exists (S n_in), (pos0 + n_in + 1)%nat.
        rewrite Hlast by lia. unfold matches at 1. simpl.
        split; [reflexivity|left; split; lia].
    + apply Z.eqb_neq in Eeq. destruct (global le <? global index) eqn:Elt.
      * apply Z.ltb_lt in Elt.
        assert (Hskip : matches_of index (lp :: drop (S localIndex) locals)
                          (le :: drop (S localIndex) Ls) ++
                        matches (lp :: drop (S localIndex) locals)
                          (le :: drop (S localIndex) Ls) (drop (S n_in) R)
                        = matches (drop (S localIndex) locals) (drop (S localIndex) Ls)
                            (index :: drop (S n_in) R)).
        { change (matches (lp :: drop (S localIndex) locals) (le :: drop (S localIndex) Ls)
                    (index :: drop (S n_in) R)
                  = matches (drop (S localIndex) locals) (drop (S localIndex) Ls)
                      (index :: drop (S n_in) R)).
          apply matches_skip_local. constructor; [lia|].
          eapply Forall_impl; [exact HafterR|]. simpl. intros y Hy. lia. }
        rewrite Hskip, <- (drop_S R index n_in Hidx).
        destruct (IH n_in (S localIndex) index remote w Hidx)
          as (n_in' & position' & Hrun & Hpos); [lia|].
        exists n_in', position'. auto.
      * apply Z.ltb_ge in Elt.
        rewrite (matches_of_none index).
        2:{ constructor; [lia|]. eapply Forall_impl; [exact HafterL|].
            simpl. intros y Hy. lia. }
        simpl app.
        rewrite <- (drop_S locals lp localIndex Hlp), <- (drop_S Ls le localIndex Hle).
        destruct (Z.ltb_spec (Z.of_nat (S n_in)) (Z.of_nat (length R))) as [Hmore|Hdone].
        -- destruct (lookup_lt_is_Some_2 R (S n_in)) as [x' Hx']; [lia|].
           rewrite (bind_ok _ _ _ _ _ (Hnext x' Hx')). simpl.
           destruct (IH (S n_in) localIndex x' remote w Hx')
             as (n_in' & position' & Hrun & Hpos); [lia|].
           exists n_in', position'. auto.
        -- exists (S n_in), (pos0 + n_in + 1)%nat.
           rewrite Hlast by lia. unfold matches. simpl. rewrite app_nil_r.
           split; [reflexivity|left; split; lia].
  - exists n_in, (pos0 + n_in + 1)%nat.
    rewrite (drop_ge locals) by lia. rewrite matches_nil, app_nil_r.
    split; [reflexivity|right; split; [exact Hn|reflexivity]].
Qed.

Lemma unpackIndices_matches remote l w :
  heap w !! remote = Some l ->
  unpackIndices σ remote (Z.of_nat (length R)) locals (length locals) p_in pos0 w
  = Ok (pos0 + length R)%nat
       {| heap := <[remote := l ++ matches locals Ls R]> (heap w); trace := trace w |}.
Proof.
  intros Hl. unfold unpackIndices.
  destruct (R !! 0%nat) as [x0|] eqn:H0.
  2:{ apply lookup_ge_None in H0.
      assert (E : R = []) by (apply nil_length_inv; lia).
      rewrite E. simpl. rewrite Nat.add_0_r, app_nil_r. unfold ret. f_equal.
      destruct w as [h t]. simpl in *. f_equal. symmetry. now apply insert_id. }
  assert (Hnz : (Z.of_nat (length R) =? 0) = false).
  { apply Z.eqb_neq. apply lookup_lt_Some in H0. lia. }
  rewrite Hnz.
  pose proof (Hstream _ _ H0) as Hp0. rewrite Nat.add_0_r in Hp0.
  rewrite (bind_ok _ _ _ _ _ (unpack_pair_ok _ _ _ w Hp0)). simpl.
  rewrite (bind_ok _ _ _ l w); [|unfold read_list; now rewrite Hl].
  destruct (unpackIndices_loop_matches
              (length locals + Z.to_nat (Z.of_nat (length R)) + 1) 0 0 x0 l w H0)
    as (n_in' & position' & Hrun & Hpos); [lia|].
  replace (pos0 + 0 + 1)%nat with (S pos0) in Hrun by lia.
  rewrite (bind_ok _ _ _ _ _ Hrun). simpl.
  rewrite (bind_ok _ _ _ tt {| heap := <[remote := l ++ matches locals Ls R]> (heap w);
                               trace := trace w |});
    [|unfold write_list; now rewrite Hl].
  destruct Hpos as [[-> ->]|[Hlt ->]].
  - replace (Z.to_nat (Z.of_nat (length R) - Z.of_nat (length R) - 1)) with 0%nat by lia.
    reflexivity.
  - rewrite unpack_rest_ok.
    + f_equal. lia.
    + intros j Hj.
      destruct (lookup_lt_is_Some_2 R (n_in' + 1 + j)) as [y Hy]; [lia|].
      exists y. rewrite <- (Hstream _ _ Hy). f_equal. lia.
Qed.
End MergeExact.

Lemma combine_lookup {A B} (l1 : list A) : forall (l2 : list B) i a b,
  combine l1 l2 !! i = Some (a, b) <-> l1 !! i = Some a /\ l2 !! i = Some b.
Proof.
  induction l1 as [|a1 l1 IH]; intros [|b2 l2] [|i] a b; simpl;
    try (split; [discriminate|intros [? ?]; discriminate]).
  - split; [intros [= -> ->]; auto|intros [[= ->] [= ->]]; reflexivity].
  - apply IH.
Qed.

Lemma matches_elem (locals : list PairPtr) (Ls R : list IndexPair) r :
  r ∈ matches locals Ls R <->
  exists y i x, y ∈ R /\ locals !! i = Some (localIndex_ r) /\ Ls !! i = Some x /\
    global x = global y /\ attribute_ r = attribute (local y).
Proof.
  unfold matches, matches_of. rewrite list_elem_of_In, in_flat_map. split.
  - intros (y & Hy & Hr). apply in_map_iff in Hr as ([p x] & <- & Hin).
    apply filter_In in Hin as [Hin Hg]. simpl in *. apply Z.eqb_eq in Hg.
    apply list_elem_of_In, list_elem_of_lookup in Hin as [i Hi].
    apply combine_lookup in Hi as [Hp Hx].
    exists y, i, x. split; [now apply list_elem_of_In|]. auto.
  - intros (y & i & x & Hy & Hp & Hx & Hg & Ha). exists y.
    split; [now apply list_elem_of_In|].
    apply in_map_iff. exists (localIndex_ r, x). split.
    + destruct r as [p a]. simpl in *. now rewrite Ha.
    + apply filter_In. split; [|simpl; now apply Z.eqb_eq].
      apply list_elem_of_In, list_elem_of_lookup. exists i.
      now apply combine_lookup.
Qed.

(** X13.  The one-list [unpackIndices] is a merge join: for local records
    and message records that each hold a global id once, in ascending
    order, it reads the message to its end and appends to the list exactly
    one remote record for every global id that the message shares with the
    local records, in the order of the message, with the attribute the
    message reports and pointing at the local record with that global id.
    No other list is touched and nothing is sent. *)
Theorem unpackIndices_builds_the_matches (σ : Store) (locals : list PairPtr)
    (Ls R : list IndexPair) (p_in : Buffer) (pos0 : nat) (remote : ListPtr)
    (l : RemoteIndexList) (w : World) :
  Forall2 (fun p x => pair_at σ p = Some x) locals Ls ->
  (forall j x, R !! j = Some x -> p_in !! (pos0 + j)%nat = Some (PackedPair x)) ->
  strictly_ascending Ls -> strictly_ascending R ->
  heap w !! remote = Some l ->
  unpackIndices σ remote (Z.of_nat (length R)) locals (length locals) p_in pos0 w
  = Ok (pos0 + length R)%nat
       {| heap := <[remote := l ++ matches locals Ls R]> (heap w); trace := trace w |} /\
  (forall r, r ∈ matches locals Ls R <->
     exists y i x, y ∈ R /\ locals !! i = Some (localIndex_ r) /\ Ls !! i = Some x /\
       global x = global y /\ attribute_ r = attribute (local y)) /\
  Forall (fun r => exists y, y ∈ R /\ gid σ r = global y) (matches locals Ls R).
Proof.
  intros Hlocals Hstream HsL HsR Hl.
  split; [now apply (unpackIndices_matches σ locals Ls R p_in pos0)|].
  split; [intros r; apply matches_elem|].
  apply Forall_forall. intros r Hr.
  apply (matches_elem locals Ls R r) in Hr
    as (y & i & x & Hy & Hp & Hx & Hg & _).
  exists y. split; [exact Hy|].
  destruct (Forall2_lookup_l _ _ _ _ _ Hlocals Hp) as (x' & Hx' & Hat).
  assert (x' = x) as -> by congruence.
  unfold gid. now rewrite Hat.
Qed.

Lemma unpackIndices_builds_the_matches_witness :
  unpackIndices example_store 1 3
    [slot_of 1 0; slot_of 1 1; slot_of 1 2; slot_of 1 3; slot_of 1 4] 5
    [PackedPair (example_pair 2); PackedPair (example_pair 5); PackedPair (example_pair 6)]
    0 (world_with []) =
  Ok 3%nat (world_with [RemoteIndex_ctor owner (slot_of 1 1);
                        RemoteIndex_ctor owner (slot_of 1 3)]).
Proof.
  refine (eq_trans (proj1 (unpackIndices_builds_the_matches example_store
            [slot_of 1 0; slot_of 1 1; slot_of 1 2; slot_of 1 3; slot_of 1 4]
            (map example_pair [1; 2; 3; 5; 7]) (map example_pair [2; 5; 6])
            [PackedPair (example_pair 2); PackedPair (example_pair 5);
             PackedPair (example_pair 6)]
            0 1%positive [] (world_with []) _ _ _ _ _)) _).
  - repeat constructor.
  - intros [|[|[|j]]] x Hx; simpl in *; try discriminate; now injection Hx as <-.
  - repeat constructor.
  - repeat constructor.
  - reflexivity.
  - reflexivity.
Defined.

(** ** The message a process packs *)

Lemma published_from_snd ignorePublic (recs : list IndexPair) : forall slot,
  map snd (published_from ignorePublic slot recs)
  = List.filter (fun x => ignorePublic || isPublic (local x)) recs.
Proof.
  induction recs as [|x recs IH]; intros slot; simpl; [reflexivity|].
  destruct (ignorePublic || isPublic (local x)); simpl; now rewrite IH.
Qed.

Lemma published_length ignorePublic (s : ParallelIndexSet) :
  length (published ignorePublic s) = publish_count ignorePublic s.
Proof.
  unfold published. rewrite <- (published_from_snd ignorePublic (records s) 0).
  rewrite length_map. apply published_from_length.
Qed.

Lemma published_pointers ignorePublic (σ : Store) a (s : ParallelIndexSet) :
  σ !! a = Some s ->
  Forall2 (fun p x => pair_at σ p = Some x)
    (map (fun e => slot_of a (fst e)) (published_from ignorePublic 0 (records s)))
    (published ignorePublic s).
Proof.
  intros Ha. unfold published.
  rewrite <- (published_from_snd ignorePublic (records s) 0).
  now apply published_from_pointers.
Qed.

Lemma pack_own_state ignorePublic (su : Setup) (out : Z) (st : Ring) :
  position st = 0%nat ->
  sourcePublish su = publish_count ignorePublic (source_set su) ->
  destPublish su = (if sendTwo su then publish_count ignorePublic (target_set su) else 0%nat) ->
  let sp := map (fun e => slot_of (source_addr su) (fst e))
              (published_from ignorePublic 0 (records (source_set su))) in
  let dp := map (fun e => slot_of (target_addr su) (fst e))
              (published_from ignorePublic 0 (records (target_set su))) in
  let own := own_message ignorePublic (sendTwo su) (source_set su) (target_set su) in
  pack_own ignorePublic su out st =
  set_pairs sp (if sendTwo su then dp else sp)
    (set_position (length own) (set_buffer out own st)).
Proof.
  intros Hp Hsn Hdn sp dp own. unfold pack_own. rewrite Hp. unfold MPI_Pack. simpl.
  rewrite packEntries_spec by reflexivity. simpl.
  assert (Hs : map (fun e => PackedPair (snd e))
                 (published_from ignorePublic 0 (records (source_set su)))
               = map PackedPair (published ignorePublic (source_set su))).
  { unfold published. rewrite <- (published_from_snd _ _ 0), map_map. reflexivity. }
  assert (Ht : map (fun e => PackedPair (snd e))
                 (published_from ignorePublic 0 (records (target_set su)))
               = map PackedPair (published ignorePublic (target_set su))).
  { unfold published. rewrite <- (published_from_snd _ _ 0), map_map. reflexivity. }
  unfold own, own_message, message.
  rewrite Hsn, Hdn, <- !published_length.
  destruct (sendTwo su).
  - rewrite packEntries_spec.
    2:{ simpl. rewrite length_map. reflexivity. }
    simpl. rewrite Hs, Ht. unfold set_pairs, set_position, set_buffer. simpl.
    rewrite !length_app, !length_map, !published_from_length, <- !published_length.
    reflexivity.
  - simpl. rewrite Hs, app_nil_r. unfold set_pairs, set_position, set_buffer. simpl.
    rewrite !length_map, !published_from_length, <- !published_length.
    reflexivity.
Qed.

Lemma buffer_set_buffer_pairs i b s d p st :
  buffer (set_pairs s d (set_position p (set_buffer i b st))) i = b.
Proof. unfold buffer, set_pairs, set_position, set_buffer. simpl. now destruct (i =? 0). Qed.

(** X14.  The message that a process packs in hop 0 is self-describing:
    the flag, the two counts, then exactly as many records as counted, the
    published records of the source set in the order of the set, followed,
    for a process with two index sets, by those of the target set.  The
    position behind it is its length, and the pointer arrays are filled
    with the addresses of exactly these records, so that the array of
    [sourcePublish] (of [destPublish]) slots is filled to its end and the
    assertion [i==n] of [packEntries] holds. *)
Theorem pack_own_writes_a_message (ignorePublic : bool) (σ : Store) (su : Setup)
    (out : Z) (st : Ring) :
  σ !! source_addr su = Some (source_set su) ->
  σ !! target_addr su = Some (target_set su) ->
  sourcePublish su = publish_count ignorePublic (source_set su) ->
  destPublish su = (if sendTwo su then publish_count ignorePublic (target_set su) else 0%nat) ->
  position st = 0%nat ->
  buffer (pack_own ignorePublic su out st) out
    = own_message ignorePublic (sendTwo su) (source_set su) (target_set su) /\
  length (published ignorePublic (source_set su)) = sourcePublish su /\
  length (if sendTwo su then published ignorePublic (target_set su) else []) = destPublish su /\
  position (pack_own ignorePublic su out st)
    = length (buffer (pack_own ignorePublic su out st) out) /\
  length (sourcePairs (pack_own ignorePublic su out st)) = sourcePublish su /\
  Forall2 (fun p x => pair_at σ p = Some x)
    (sourcePairs (pack_own ignorePublic su out st))
    (published ignorePublic (source_set su)) /\
  (if sendTwo su
   then length (destPairs (pack_own ignorePublic su out st)) = destPublish su /\
        Forall2 (fun p x => pair_at σ p = Some x)
          (destPairs (pack_own ignorePublic su out st))
          (published ignorePublic (target_set su))
   else destPairs (pack_own ignorePublic su out st)
        = sourcePairs (pack_own ignorePublic su out st)) /\
  lists (pack_own ignorePublic su out st) = lists st.
Proof.
  intros Hs Ht Hsn Hdn Hp.
  rewrite (pack_own_state ignorePublic su out st Hp Hsn Hdn).
  rewrite buffer_set_buffer_pairs.
  split; [reflexivity|].
  split; [rewrite Hsn; apply published_length|].
  split; [rewrite Hdn; destruct (sendTwo su); [apply published_length|reflexivity]|].
  split; [reflexivity|]. simpl.
  split; [rewrite length_map, Hsn; apply published_from_length|].
  split; [now apply published_pointers|].
  split; [|reflexivity].
  destruct (sendTwo su); [|reflexivity].
  split; [rewrite length_map, Hdn; apply published_from_length|now apply published_pointers].
Qed.

Lemma pack_own_writes_a_message_witness :
  buffer (pack_own false example_setup 1 example_ring) 1
    = [PackedChar 1; PackedInt 5; PackedInt 2] ++
      map PackedPair (map example_pair [1; 2; 3; 5; 7]) ++
      map PackedPair (map example_pair [5; 6]) /\
  position (pack_own false example_setup 1 example_ring) = 10%nat /\
  length (sourcePairs (pack_own false example_setup 1 example_ring)) = 5%nat.
Proof.
  destruct (pack_own_writes_a_message false two_set_store example_setup 1 example_ring)
    as (Hbuf & _ & _ & Hpos & Hlen & _); try reflexivity.
  split; [rewrite Hbuf; reflexivity|].
  split; [rewrite Hpos, Hbuf; reflexivity|exact Hlen].
Defined.

(** ** Reading a message to its end *)

Section ReadMessage.
Variable σ : Store.
Variable su : Setup.
Variable st : Ring.
Variable inb : Z.
Variable c : Z.
Variable Rs Rt : list IndexPair.
Hypothesis Hbuf : buffer st inb = message c Rs Rt.
Hypothesis Hc : if sendTwo su then c <> 0 else (c = 0 -> Rt = []).
Hypothesis Hready : ring_ready σ su st.

Lemma message_source j x :
  Rs !! j = Some x -> buffer st inb !! (3 + j)%nat = Some (PackedPair x).
Proof.
  intros H. rewrite Hbuf. unfold message. simpl.
  rewrite lookup_app_l by (rewrite length_map; now apply lookup_lt_Some in H).
  now rewrite list_lookup_fmap, H.
Qed.

Lemma message_target j x :
  Rt !! j = Some x -> buffer st inb !! (3 + length Rs + j)%nat = Some (PackedPair x).
Proof.
  intros H. rewrite Hbuf. unfold message. simpl.
  rewrite lookup_app_r by (rewrite length_map; lia).
  rewrite length_map.
  replace (length Rs + j - length Rs)%nat with j by lia.
  now rewrite list_lookup_fmap, H.
Qed.

Lemma message_length : length (buffer st inb) = (3 + length Rs + length Rt)%nat.
Proof. rewrite Hbuf. unfold message. simpl. rewrite length_app, !length_map. lia. Qed.

(** The two lists of a message with two index sets, read one after the
    other. *)
Lemma unpack_both_lists (locals : list PairPtr) receive w1 :
  (exists L, Forall2 (fun p x => pair_at σ p = Some x) locals L) ->
  heap w1 !! receive = Some [] ->
  exists w4 l2 l4,
    (position <- unpackIndices σ receive (Z.of_nat (length Rs)) locals (length locals)
                   (buffer st inb) 3 ;;
     send <- new_list ;;
     position <- unpackIndices σ send (Z.of_nat (length Rt)) (sourcePairs st)
                   (length (sourcePairs st)) (buffer st inb) position ;;
     ret (send, position)) w1
    = Ok (fresh (dom (heap w1)), (3 + length Rs + length Rt)%nat) w4 /\
    fresh (dom (heap w1)) <> receive /\ trace w4 = trace w1 /\
    heap w4 !! receive = Some l2 /\ heap w4 !! fresh (dom (heap w1)) = Some l4.
Proof.
  intros [L HL] Hl1. destruct Hready as ([Ls HLs] & _).
  destruct (unpackIndices_ok σ locals L Rs (buffer st inb) 3 HL
              message_source receive [] w1 Hl1)
    as (w2 & l2 & Hrun2 & Htr2 & Hdom2 & Hother2 & Hrecv2 & _).
  rewrite (bind_ok _ _ _ _ _ Hrun2).
  rewrite (bind_ok _ _ _ _ _ (new_list_ok w2)). rewrite Hdom2.
  set (send := fresh (dom (heap w1))).
  set (w3 := {| heap := <[send := []]> (heap w2); trace := trace w2 |}).
  assert (Hsr : send <> receive).
  { intros E. pose proof (is_fresh (dom (heap w1))) as Hf. fold send in Hf.
    apply Hf. rewrite E. apply elem_of_dom. eauto. }
  assert (Hl3 : heap w3 !! send = Some []) by (simpl; apply lookup_insert_eq).
  destruct (unpackIndices_ok σ (sourcePairs st) Ls Rt (buffer st inb) (3 + length Rs) HLs
              message_target send [] w3 Hl3)
    as (w4 & l4 & Hrun4 & Htr4 & Hdom4 & Hother4 & Hsend4 & _).
  exists w4, l2, l4.
  split; [now rewrite (bind_ok _ _ _ _ _ Hrun4)|]. split; [exact Hsr|].
  split; [rewrite Htr4; simpl; exact Htr2|].
  split; [|exact Hsend4].
  rewrite Hother4 by auto. simpl. now rewrite lookup_insert_ne.
Qed.

(** A readable message is unpacked to its end: the position is then the
    length of the message.  The buffers and the pointer arrays stay as they
    are, and nothing but [delete] is recorded. *)
Lemma process_message_reads_all proc w :
  exists st' w' t,
    process_message σ su proc inb st w = Ok st' w' /\
    position st' = length (buffer st inb) /\
    buffer0 st' = buffer0 st /\ buffer1 st' = buffer1 st /\
    sourcePairs st' = sourcePairs st /\ destPairs st' = destPairs st /\
    trace w' = trace w ++ t /\ Forall (fun e => is_mpi e = false) t.
Proof.
  pose proof Hready as (Hsp & Hdp & Hsn & Hdn).
  unfold process_message.
  rewrite (bind_ok _ _ _ (c, 1%nat) w);
    [|apply unpack_char_ok; now rewrite Hbuf].
  rewrite (bind_ok _ _ _ (Z.of_nat (length Rs), 2%nat) w);
    [|apply unpack_int_ok; now rewrite Hbuf].
  rewrite (bind_ok _ _ _ (Z.of_nat (length Rt), 3%nat) w);
    [|apply unpack_int_ok; now rewrite Hbuf].
  cbn [fst snd].
  rewrite (bind_ok _ _ _ _ _ (new_list_ok w)).
  set (receive := fresh (dom (heap w))).
  set (w1 := {| heap := <[receive := []]> (heap w); trace := trace w |}).
  assert (Hl1 : heap w1 !! receive = Some []) by (simpl; apply lookup_insert_eq).
  rewrite message_length.
  assert (Htail : forall send l2 l4 w4,
            heap w4 !! receive = Some l2 -> heap w4 !! send = Some l4 ->
            (send = receive \/ is_Some (heap w4 !! send)) ->
            trace w4 = trace w ->
            exists st' w' t,
              (r <- read_list receive ;;
               s <- read_list send ;;
               match r, s with
               | [], [] =>
                   (if decide (send = receive)
                    then delete_list send
                    else (delete_list send ;;; delete_list receive)) ;;;
                   ret (set_position (3 + length Rs + length Rt) st)
               | _, _ =>
                   ret (set_lists
                          (StdMap.insert
                             (Z.rem (the_rank su + the_procs su - proc) (the_procs su))
                             (send, receive)
                             (lists (set_position (3 + length Rs + length Rt) st)))
                          (set_position (3 + length Rs + length Rt) st))
               end) w4 = Ok st' w' /\
              position st' = (3 + length Rs + length Rt)%nat /\
              buffer0 st' = buffer0 st /\ buffer1 st' = buffer1 st /\
              sourcePairs st' = sourcePairs st /\ destPairs st' = destPairs st /\
              trace w' = trace w ++ t /\ Forall (fun e => is_mpi e = false) t).
  { intros send l2 l4 w4 Hr Hs _ Htr.
    rewrite (bind_ok _ _ _ l2 w4); [|unfold read_list; now rewrite Hr].
    rewrite (bind_ok _ _ _ l4 w4); [|unfold read_list; now rewrite Hs].
    assert (Hkeep : exists st' w' t,
              ret (set_lists
                     (StdMap.insert
                        (Z.rem (the_rank su + the_procs su - proc) (the_procs su))
                        (send, receive)
                        (lists (set_position (3 + length Rs + length Rt) st)))
                     (set_position (3 + length Rs + length Rt) st)) w4 = Ok st' w' /\
              position st' = (3 + length Rs + length Rt)%nat /\
              buffer0 st' = buffer0 st /\ buffer1 st' = buffer1 st /\
              sourcePairs st' = sourcePairs st /\ destPairs st' = destPairs st /\
              trace w' = trace w ++ t /\ Forall (fun e => is_mpi e = false) t).
    { eexists _, w4, []. split; [reflexivity|]. simpl.
      rewrite app_nil_r. repeat split; auto. }
    destruct l2 as [|r l2]; [destruct l4 as [|s l4]|]; try exact Hkeep.
    destruct (decide (send = receive)) as [E|E].
    - rewrite (bind_ok _ _ _ _ _ (delete_list_ok send w4 ltac:(rewrite Hs; eauto))).
      eexists _, _, [Delete send]. split; [reflexivity|]. simpl.
      rewrite Htr. repeat split; auto.
    - rewrite (bind_ok _ _ _ _ _ (delete_two_ok send receive w4 E
                 ltac:(rewrite Hs; eauto) ltac:(rewrite Hr; eauto))).
      eexists _, _, [Delete send; Delete receive]. split; [reflexivity|]. simpl.
      rewrite Htr, <- app_assoc. repeat split; auto. }
  destruct (c =? 0) eqn:Ec.
  - apply Z.eqb_eq in Ec.
    assert (Hcase : sendTwo su = false /\ Rt = [])
      by (destruct (sendTwo su); [contradiction|split; auto]).
    destruct Hcase as [Etwo HRt]. rewrite Etwo.
    rewrite HRt in Htail |- *. simpl length. rewrite Nat.add_0_r.
    destruct Hsp as [Ls HLs].
    destruct (unpackIndices_ok σ (sourcePairs st) Ls Rs (buffer st inb) 3 HLs
                message_source receive [] w1 Hl1)
      as (w2 & l2 & Hrun2 & Htr2 & _ & _ & Hrecv2 & _).
    rewrite Hsn. rewrite bind_assoc, (bind_ok _ _ _ _ _ Hrun2), !bind_ret.
    cbn [fst snd].
    destruct (Htail receive l2 l2 w2 Hrecv2 Hrecv2 (or_introl eq_refl))
      as (st' & w' & t & Hrun & H); [rewrite Htr2; reflexivity|].
    simpl length in Hrun. rewrite Nat.add_0_r in Hrun.
    exists st', w', t. split; [exact Hrun|].
    simpl length in H. rewrite Nat.add_0_r in H. exact H.
  - assert (Hblock : exists locals,
              (exists L, Forall2 (fun p x => pair_at σ p = Some x) locals L) /\
              (if sendTwo su
               then unpackIndices σ receive (Z.of_nat (length Rs)) (destPairs st)
                      (destPublish su) (buffer st inb) 3
               else unpackIndices σ receive (Z.of_nat (length Rs)) (sourcePairs st)
                      (sourcePublish su) (buffer st inb) 3)
              = unpackIndices σ receive (Z.of_nat (length Rs)) locals (length locals)
                  (buffer st inb) 3).
    { destruct (sendTwo su).
      - exists (destPairs st). split; [exact Hdp|]. now rewrite Hdn.
      - exists (sourcePairs st). split; [exact Hsp|]. now rewrite Hsn. }
    destruct Hblock as (locals & HL & ->). rewrite Hsn.
    destruct (unpack_both_lists locals receive w1 HL Hl1)
      as (w4 & l2 & l4 & Hrun & Hsr & Htr & Hr & Hs).
    rewrite (bind_ok _ _ _ _ _ Hrun). cbn [fst snd].
    apply (Htail _ l2 l4 w4 Hr Hs); [right; rewrite Hs; eauto|exact Htr].
Qed.
End ReadMessage.

(** ** The ring passes every message on *)

Lemma rem_flip proc : 0 <= proc -> 1 - Z.rem (proc + 1) 2 = Z.rem proc 2.
Proof.
  intros H. rewrite !Z.rem_mod_nonneg by lia.
  pose proof (Z.div_mod proc 2 ltac:(lia)).
  pose proof (Z.div_mod (proc + 1) 2 ltac:(lia)).
  pose proof (Z.mod_pos_bound proc 2 ltac:(lia)).
  pose proof (Z.mod_pos_bound (proc + 1) 2 ltac:(lia)).
  lia.
Qed.

Lemma exchange_is_mpi rank procs payload :
  List.filter is_mpi (exchange rank procs payload) = exchange rank procs payload.
Proof. unfold exchange. now destruct (Z.rem rank 2 =? 0). Qed.

Lemma filter_not_mpi (t : list Event) :
  Forall (fun e => is_mpi e = false) t -> List.filter is_mpi t = [].
Proof. induction 1 as [|e t He _ IH]; simpl; [reflexivity|]. now rewrite He. Qed.

Lemma hop_forwards ignorePublic σ recv su proc st w prev :
  0 < proc ->
  readable (sendTwo su) (recv proc) ->
  ring_ready σ su st ->
  position st = length prev -> buffer st (1 - Z.rem proc 2) = prev ->
  exists st' w' t,
    hop ignorePublic σ recv su proc st w = Ok st' w' /\
    trace w' = trace w ++ exchange (the_rank su) (the_procs su) prev ++ t /\
    Forall (fun e => is_mpi e = false) t /\
    ring_ready σ su st' /\
    position st' = length (recv proc) /\
    buffer st' (1 - Z.rem (proc + 1) 2) = recv proc.
Proof.
  intros Hproc (c & Rs & Rt & Hmsg & Hc) Hready Hpos Hout.
  unfold hop. cbv zeta.
  assert (E0 : (proc =? 0) = false) by (apply Z.eqb_neq; lia).
  rewrite E0. simpl andb. cbv iota. rewrite Hpos, Hout, firstn_all.
  set (w1 := {| heap := heap w;
                trace := trace w ++ exchange (the_rank su) (the_procs su) prev |}).
  assert (Hsent : (if Z.rem (the_rank su) 2 =? 0
                   then (emit (MPI_Ssend (Z.rem (the_rank su + 1) (the_procs su)) prev) ;;;
                         emit (MPI_Recv (Z.rem (the_rank su + the_procs su - 1) (the_procs su))))
                   else (emit (MPI_Recv (Z.rem (the_rank su + the_procs su - 1) (the_procs su))) ;;;
                         emit (MPI_Ssend (Z.rem (the_rank su + 1) (the_procs su)) prev))) w
                  = Ok tt w1).
  { unfold w1, exchange. destruct (Z.rem (the_rank su) 2 =? 0);
      unfold bind, emit; simpl; now rewrite <- app_assoc. }
  rewrite (bind_ok _ _ _ _ _ Hsent).
  destruct (process_message_reads_all σ su
              (set_buffer (Z.rem proc 2) (recv proc) st) (Z.rem proc 2) c Rs Rt)
    with (proc := proc) (w := w1)
    as (st' & w' & t & Hrun & Hp' & Hb0 & Hb1 & Hsp' & Hdp' & Htr & Hnot).
  - rewrite buffer_set_buffer. exact Hmsg.
  - exact Hc.
  - exact Hready.
  - exists st', w', t. split; [exact Hrun|].
    split; [rewrite Htr; unfold w1; simpl; now rewrite <- app_assoc|].
    split; [exact Hnot|].
    split.
    { destruct Hready as (H1 & H2 & H3 & H4). unfold ring_ready.
      rewrite Hsp', Hdp'. simpl. auto. }
    rewrite buffer_set_buffer in Hp'. split; [exact Hp'|].
    rewrite rem_flip by lia.
    unfold buffer. rewrite Hb0, Hb1. apply buffer_set_buffer.
Qed.

Lemma forwarded_length recv n : forall prev proc, length (forwarded recv prev proc n) = n.
Proof. induction n as [|n IH]; intros prev proc; simpl; [reflexivity|]. now rewrite IH. Qed.

Lemma forwarded_lookup recv n : forall prev proc k,
  (k < n)%nat ->
  forwarded recv prev proc n !! k
  = Some (match k with O => prev | S k' => recv (proc + Z.of_nat k') end).
Proof.
  induction n as [|n IH]; intros prev proc k Hk; [lia|].
  destruct k as [|k]; [reflexivity|]. simpl.
  rewrite IH by lia. destruct k as [|k]; simpl.
  - now rewrite Z.add_0_r.
  - do 2 f_equal. lia.
Qed.

Lemma ring_forwards ignorePublic σ recv su n : forall proc st w prev,
  0 < proc ->
  (forall p, proc <= p < proc + Z.of_nat n -> readable (sendTwo su) (recv p)) ->
  ring_ready σ su st ->
  position st = length prev -> buffer st (1 - Z.rem proc 2) = prev ->
  exists st' w' T,
    ring n ignorePublic σ recv su proc st w = Ok st' w' /\
    trace w' = trace w ++ T /\
    List.filter is_mpi T
    = flat_map (exchange (the_rank su) (the_procs su)) (forwarded recv prev proc n).
Proof.
  induction n as [|n IH]; intros proc st w prev Hproc Hmsgs Hready Hpos Hout; simpl.
  - exists st, w, []. split; [reflexivity|]. now rewrite app_nil_r.
  - destruct (hop_forwards ignorePublic σ recv su proc st w prev Hproc)
      as (st1 & w1 & t & Hhop & Htr1 & Hnot & Hready1 & Hpos1 & Hout1);
      [apply Hmsgs; lia|assumption..|].
    rewrite (bind_ok _ _ _ _ _ Hhop).
    destruct (IH (proc + 1) st1 w1 (recv proc)) as (st' & w' & T & Hring & Htr & Hf);
      [lia|intros p Hp; apply Hmsgs; lia|assumption..|].
    exists st', w', (exchange (the_rank su) (the_procs su) prev ++ t ++ T).
    split; [exact Hring|].
    split; [rewrite Htr, Htr1, <- !app_assoc; reflexivity|].
    rewrite !List.filter_app, exchange_is_mpi, (filter_not_mpi t Hnot), Hf. reflexivity.
Qed.

Lemma hop0_forwards ignorePublic σ recv su st w :
  σ !! source_addr su = Some (source_set su) ->
  σ !! target_addr su = Some (target_set su) ->
  sourcePublish su = publish_count ignorePublic (source_set su) ->
  destPublish su = (if sendTwo su then publish_count ignorePublic (target_set su) else 0%nat) ->
  position st = 0%nat -> 0 < the_procs su ->
  exists st' w' t,
    hop ignorePublic σ recv su 0 st w = Ok st' w' /\
    trace w' = trace w ++
      (if sendTwo su
       then [MPI_Sendrecv (the_rank su)
               (own_message ignorePublic true (source_set su) (target_set su))]
       else []) ++ t /\
    Forall (fun e => is_mpi e = false) t /\
    ring_ready σ su st' /\
    position st' = length (own_message ignorePublic (sendTwo su) (source_set su) (target_set su)) /\
    buffer st' 0 = own_message ignorePublic (sendTwo su) (source_set su) (target_set su).
Proof.
  intros Hs Ht Hsn Hdn Hp Hprocs.
  unfold hop. cbv zeta. change (0 =? 0) with true.
  change (Z.rem 0 2) with 0. change (1 - 0) with 1.
  assert (E : (0 <? the_procs su) = true) by (apply Z.ltb_lt; lia).
  rewrite E. simpl orb. simpl andb. cbv iota.
  rewrite !(pack_own_state ignorePublic su _ st Hp Hsn Hdn).
  set (own := own_message ignorePublic (sendTwo su) (source_set su) (target_set su)).
  set (sp := map (fun e => slot_of (source_addr su) (fst e))
               (published_from ignorePublic 0 (records (source_set su)))).
  set (dp := map (fun e => slot_of (target_addr su) (fst e))
               (published_from ignorePublic 0 (records (target_set su)))).
  assert (Hsp : Forall2 (fun p x => pair_at σ p = Some x) sp
                  (published ignorePublic (source_set su)))
    by now apply published_pointers.
  assert (Hdp : Forall2 (fun p x => pair_at σ p = Some x) dp
                  (published ignorePublic (target_set su)))
    by now apply published_pointers.
  assert (Hlsp : sourcePublish su = length sp).
  { unfold sp. now rewrite length_map, published_from_length. }
  destruct (sendTwo su) eqn:Etwo; cbn [andb orb negb].
  - assert (Hldp : destPublish su = length dp).
    { unfold dp. now rewrite length_map, published_from_length. }
    rewrite buffer_set_buffer_pairs. cbn [position set_pairs set_position].
    rewrite firstn_all.
    set (w1 := {| heap := heap w; trace := trace w ++ [MPI_Sendrecv (the_rank su) own] |}).
    rewrite (bind_ok _ _ _ tt w1) by reflexivity.
    destruct (process_message_reads_all σ su
                (set_buffer 0 own (set_pairs sp dp (set_position (length own)
                   (set_buffer 1 own st)))) 0 1
                (published ignorePublic (source_set su))
                (published ignorePublic (target_set su)))
      with (proc := 0) (w := w1)
      as (st' & w' & t & Hrun & Hp' & Hb0 & Hb1 & Hsp' & Hdp' & Htr & Hnot).
    + reflexivity.
    + rewrite Etwo. discriminate.
    + unfold ring_ready. simpl. rewrite Etwo. eauto 10.
    + exists st', w', t. split; [exact Hrun|].
      split; [rewrite Htr; unfold w1; simpl; now rewrite <- app_assoc|].
      split; [exact Hnot|].
      split; [unfold ring_ready; rewrite Hsp', Hdp', Etwo; simpl; eauto 10|].
      split; [exact Hp'|]. unfold buffer. simpl. rewrite Hb0. reflexivity.
  - exists (set_pairs sp sp (set_position (length own) (set_buffer 0 own st))), w, [].
    split; [reflexivity|]. simpl. rewrite app_nil_r.
    split; [reflexivity|]. split; [constructor|].
    split; [|split; reflexivity].
    unfold ring_ready. simpl. rewrite Etwo. split; [eauto|]. split; [eauto|].
    split; [exact Hlsp|discriminate].
Qed.

Lemma filter_deletes (ps : list ListPtr) : List.filter is_mpi (map Delete ps) = [].
Proof. induction ps as [|p ps IH]; simpl; [reflexivity|exact IH]. Qed.

Lemma rebuild_first_build ignorePublic σ recv (r : RemoteIndices) (comm : Comm)
    (a b : positive) (S T : ParallelIndexSet) (two : bool) (w wf : World) :
  source_ r = Some a -> target_ r = Some b -> comm_ r = Some comm ->
  firstBuild r = true ->
  σ !! a = Some S -> σ !! b = Some T ->
  bool_decide (a <> b) = two ->
  free_lists (remoteIndices_ r) w = Ok tt wf ->
  rebuild ignorePublic σ recv r w =
  (st <- ring (Z.to_nat (procs comm)) ignorePublic σ recv
           {| the_rank := rank comm; the_procs := procs comm; sendTwo := two;
              source_addr := a; source_set := S;
              target_addr := if two then b else a;
              target_set := if two then T else S;
              sourcePublish := publish_count ignorePublic S;
              destPublish := if two then publish_count ignorePublic (if two then T else S)
                             else 0%nat |}
           0
           {| buffer0 := []; buffer1 := []; position := 0;
              sourcePairs := []; destPairs := []; lists := [] |} ;;
   emit MPI_Barrier ;;;
   ret (set_publicIgnored ignorePublic
          (set_firstBuild false
             (set_seqNos (seqNo S) (seqNo T)
                (set_remoteIndices_ (lists st)
                   (set_firstBuild true (set_remoteIndices_ [] r)))))))
    {| heap := heap wf;
       trace := trace wf ++ [MPI_Allreduce
         (Z.of_nat (publish_count ignorePublic S +
                    (if two then publish_count ignorePublic (if two then T else S)
                     else 0%nat)))] |}.
Proof.
  intros Hs Ht Hcomm Hfirst Ha Hb Etwo Hfree.
  unfold rebuild, free. rewrite Hfirst. cbv iota. rewrite bind_ret.
  rewrite bind_assoc, (bind_ok _ _ _ _ _ Hfree), bind_ret.
  unfold buildRemote. simpl comm_. simpl source_. simpl target_. simpl remoteIndices_.
  rewrite Hcomm, Hs, Ht.
  assert (Etwo' : bool_decide (Some a <> Some b) = two).
  { rewrite <- Etwo. apply bool_decide_ext. split; congruence. }
  rewrite Etwo'.
  rewrite bind_assoc. unfold from_option at 1. rewrite bind_ret.
  rewrite bind_assoc. unfold from_option at 1. rewrite bind_ret.
  rewrite bind_assoc, (bind_ok _ _ _ _ _ (deref_set_ok _ _ _ wf Ha)).
  rewrite bind_assoc.
  rewrite (bind_ok _ _ _ (if two then b else a) wf) by now destruct two.
  rewrite bind_assoc.
  rewrite (bind_ok _ _ _ (if two then T else S) wf).
  2:{ destruct two; [now apply deref_set_ok|reflexivity]. }
  rewrite bind_assoc.
  rewrite (bind_ok _ _ _ tt {| heap := heap wf;
     trace := trace wf ++ [MPI_Allreduce
       (Z.of_nat (publish_count ignorePublic S +
                  (if two then publish_count ignorePublic (if two then T else S)
                   else 0%nat)))] |}) by reflexivity.
  rewrite bind_assoc. apply bind_ext. intros st w1.
  rewrite bind_assoc. rewrite (bind_ok _ _ _ tt {| heap := heap w1;
     trace := trace w1 ++ [MPI_Barrier] |}) by reflexivity.
  rewrite (bind_ok _ _ _ tt {| heap := heap w1;
     trace := trace w1 ++ [MPI_Barrier] |}) by reflexivity.
  rewrite !bind_ret. simpl source_. simpl target_. rewrite Hs, Ht.
  rewrite (bind_ok _ _ _ _ _ (deref_set_ok _ _ _ _ Ha)).
  rewrite (bind_ok _ _ _ _ _ (deref_set_ok _ _ _ _ Hb)).
  reflexivity.
Qed.

(** X15.  The ring of the discovery protocol passes every message on
    unchanged.  Let the first build of a registry on [procs] processes
    receive in every hop a message that it reads to its end.  Then
    [rebuild] completes, and its message traffic is: the all-reduce of the
    number of published records; for a process with two index sets the
    send-receive of its own message with itself; then [procs - 1]
    exchanges with the neighbours in the ring, sending first on even ranks
    and receiving first on odd ranks, whose payloads are the own message in
    hop 1 and in every later hop [k + 1] exactly the message received in hop
    [k]; and the barrier. *)
Theorem rebuild_forwards_the_messages (ignorePublic : bool) (σ : Store)
    (recv : Z -> Buffer) (r : RemoteIndices) (comm : Comm) (a b : positive)
    (S T : ParallelIndexSet) (w : World) :
  source_ r = Some a -> target_ r = Some b -> comm_ r = Some comm ->
  firstBuild r = true -> owns w (remoteIndices_ r) ->
  σ !! a = Some S -> σ !! b = Some T ->
  0 < procs comm ->
  (forall p, 1 <= p < procs comm -> readable (bool_decide (a <> b)) (recv p)) ->
  exists r' w' events payloads,
    rebuild ignorePublic σ recv r w = Ok r' w' /\
    trace w' = trace w ++ events /\
    List.filter is_mpi events =
      MPI_Allreduce (Z.of_nat (publish_count ignorePublic S +
                               (if bool_decide (a <> b)
                                then publish_count ignorePublic T else 0%nat))) ::
      (if bool_decide (a <> b)
       then [MPI_Sendrecv (rank comm) (own_message ignorePublic true S T)] else []) ++
      flat_map (exchange (rank comm) (procs comm)) payloads ++ [MPI_Barrier] /\
    length payloads = (Z.to_nat (procs comm) - 1)%nat /\
    forall k, (k < length payloads)%nat ->
      payloads !! k = Some (match k with
                            | O => own_message ignorePublic (bool_decide (a <> b)) S T
                            | Datatypes.S k' => recv (1 + Z.of_nat k')
                            end).
Proof.
  intros Hs Ht Hcomm Hfirst Hown Ha Hb Hprocs Hmsgs.
  set (two := bool_decide (a <> b)) in *.
  assert (Etwo : bool_decide (source_ r <> target_ r) = two).
  { rewrite Hs, Ht. unfold two. apply bool_decide_ext. split; congruence. }
  destruct (free_lists_ok _ _ Hown) as (wf & Hfree & Htrf & _).
  set (r1 := set_firstBuild true (set_remoteIndices_ [] r)).
  set (ta := if two then b else a).
  set (Tt := if two then T else S).
  set (su := {| the_rank := rank comm; the_procs := procs comm; sendTwo := two;
                source_addr := a; source_set := S; target_addr := ta; target_set := Tt;
                sourcePublish := publish_count ignorePublic S;
                destPublish := if two then publish_count ignorePublic Tt else 0%nat |}).
  set (st0 := {| buffer0 := []; buffer1 := []; position := 0;
                 sourcePairs := []; destPairs := []; lists := [] |}).
  set (wA := {| heap := heap wf;
                trace := trace wf ++ [MPI_Allreduce
                  (Z.of_nat (publish_count ignorePublic S +
                             (if two then publish_count ignorePublic Tt else 0%nat)))] |}).
  set (finish := fun st : Ring =>
         set_publicIgnored ignorePublic
           (set_firstBuild false
              (set_seqNos (seqNo S) (seqNo T) (set_remoteIndices_ (lists st) r1)))).
  assert (Hrebuild :
    rebuild ignorePublic σ recv r w =
    (st <- ring (Z.to_nat (procs comm)) ignorePublic σ recv su 0 st0 ;;
     emit MPI_Barrier ;;; ret (finish st)) wA).
  { unfold su, st0, wA, finish, r1, ta, Tt.
    now apply (rebuild_first_build ignorePublic σ recv r comm a b S T two w wf). }
  assert (HTt : σ !! ta = Some Tt) by (unfold ta, Tt; now destruct two).
  destruct (hop0_forwards ignorePublic σ recv su st0 wA)
    as (st1 & w1 & t0 & Hhop & Htr1 & Hnot0 & Hready1 & Hpos1 & Hbuf1);
    try reflexivity; try assumption.
  assert (Hn : Z.to_nat (procs comm) = Datatypes.S (Z.to_nat (procs comm) - 1)) by lia.
  destruct (ring_forwards ignorePublic σ recv su (Z.to_nat (procs comm) - 1) 1 st1 w1
              (own_message ignorePublic two S Tt))
    as (st' & w' & TT & Hring & Htr & Hf); try assumption; [lia| |].
  { intros p Hp. apply Hmsgs. lia. }
  exists (finish st'), {| heap := heap w'; trace := trace w' ++ [MPI_Barrier] |},
    (map Delete (blocks_of (remoteIndices_ r)) ++
     [MPI_Allreduce (Z.of_nat (publish_count ignorePublic S +
                               (if two then publish_count ignorePublic Tt else 0%nat)))] ++
     ((if two then [MPI_Sendrecv (rank comm) (own_message ignorePublic true S Tt)] else [])
      ++ t0) ++ TT ++ [MPI_Barrier]),
    (forwarded recv (own_message ignorePublic two S Tt) 1 (Z.to_nat (procs comm) - 1)).
  split.
  { rewrite Hrebuild, Hn. simpl ring.
    rewrite bind_assoc, (bind_ok _ _ _ _ _ Hhop), (bind_ok _ _ _ _ _ Hring).
    reflexivity. }
  split.
  { simpl. rewrite Htr, Htr1. unfold wA. simpl. rewrite Htrf.
    rewrite <- !app_assoc. reflexivity. }
  assert (HT : (if two then publish_count ignorePublic Tt else 0%nat)
               = (if two then publish_count ignorePublic T else 0%nat))
    by (unfold Tt; now destruct two).
  assert (Hown_msg : own_message ignorePublic two S Tt = own_message ignorePublic two S T)
    by (unfold Tt, own_message; now destruct two).
  split.
  { rewrite !List.filter_app, filter_deletes, (filter_not_mpi t0 Hnot0), Hf.
    simpl. rewrite HT, app_nil_r. f_equal.
    unfold Tt. destruct two; reflexivity. }
  split; [apply forwarded_length|].
  intros k Hk. rewrite forwarded_length in Hk. rewrite forwarded_lookup by exact Hk.
  destruct k; [now rewrite Hown_msg|reflexivity].
Qed.

Lemma rebuild_forwards_the_messages_witness :
  exists r' w' events,
    rebuild false two_set_store (fun _ => example_two_set_message)
      (RemoteIndices_ctor 1 2 example_comm) empty_world = Ok r' w' /\
    trace w' = events /\
    List.filter is_mpi events =
      [MPI_Allreduce 7;
       MPI_Sendrecv 0 (own_message false true example_set example_target);
       MPI_Ssend 1 (own_message false true example_set example_target);
       MPI_Recv 1;
       MPI_Barrier].
Proof.
  destruct (rebuild_forwards_the_messages false two_set_store
              (fun _ => example_two_set_message) (RemoteIndices_ctor 1 2 example_comm)
              example_comm 1 2 example_set example_target empty_world)
    as (r' & w' & events & payloads & Hrun & Htr & Hf & Hlen & Hpay);
    try reflexivity.
  - apply owns_nil.
  - intros p _. exists 1, [example_pair 5], [example_pair 5].
    split; [reflexivity|]. rewrite bool_decide_true by discriminate. discriminate.
  - exists r', w', events. split; [exact Hrun|]. split; [exact Htr|].
    rewrite Hf. destruct payloads as [|p0 [|p1 payloads]]; try discriminate.
    specialize (Hpay 0%nat ltac:(simpl; lia)). injection Hpay as ->.
    reflexivity.
Defined.

(** ** The keys of the registry *)

Lemma yields_bind {A} (P : Ring -> Prop) (m : M A) (f : A -> M Ring) :
  (forall a, yields P (f a)) -> yields P (bind m f).
Proof.
  intros H w st' w' Hrun. apply bind_inv_ok in Hrun as (a & w1 & _ & Hrun).
  now apply (H a w1 st' w').
Qed.

Lemma yields_ret (P : Ring -> Prop) (st : Ring) : P st -> yields P (ret st).
Proof. intros H w st' w' [= <- _]. exact H. Qed.

Lemma process_message_lists σ su proc inb st :
  yields (fun st' => lists st' = lists st \/
            exists v, lists st' = StdMap.insert
                        (remoteProc (the_rank su) (the_procs su) proc) v (lists st))
    (process_message σ su proc inb st).
Proof.
  unfold process_message. cbv zeta.
  do 7 (apply yields_bind; intros ?).
  destruct a4, a5; try (apply yields_bind; intros ?); apply yields_ret; simpl; eauto.
Qed.

Lemma hop_lists ignorePublic σ recv su proc st :
  yields (fun st' => lists st' = lists st \/
            ((proc <> 0 \/ sendTwo su = true) /\
             exists v, lists st' = StdMap.insert
                         (remoteProc (the_rank su) (the_procs su) proc) v (lists st)))
    (hop ignorePublic σ recv su proc st).
Proof.
  unfold hop. cbv zeta.
  match goal with
  | |- context [if ?c then pack_own ?a ?b ?d ?e else _] =>
      assert (Hl : lists (if c then pack_own a b d e else st) = lists st)
        by (destruct c; [apply pack_own_lists|reflexivity]);
      generalize dependent (if c then pack_own a b d e else st)
  end.
  intros st1 Hl. rewrite <- Hl.
  destruct (proc =? 0) eqn:E0.
  - destruct (sendTwo su) eqn:Etwo.
    + apply yields_bind. intros _ w st' w' H.
      apply process_message_lists in H as [H|H]; [left; exact H|right; auto].
    + apply yields_ret. now left.
  - apply Z.eqb_neq in E0. apply yields_bind. intros _ w st' w' H.
    apply process_message_lists in H as [H|H]; [left; exact H|right; auto].
Qed.

Lemma StdMap_insert_Forall {V} (P : Z * V -> Prop) k v (m : list (Z * V)) :
  P (k, v) -> Forall P m -> Forall P (StdMap.insert k v m).
Proof.
  intros Hk Hm. destruct (StdMap_insert_cases k v m) as [->|(m1 & m2 & -> & ->)];
    [exact Hm|].
  apply Forall_app in Hm as [H1 H2]. apply Forall_app. split; [exact H1|].
  now constructor.
Qed.

Lemma StdMap_insert_wf {V} k (v : V) (m : list (Z * V)) :
  StdMap_wf m -> StdMap_wf (StdMap.insert k v m).
Proof.
  unfold StdMap_wf. induction m as [|[k' v'] m IH]; simpl; intros H.
  - repeat constructor.
  - apply StronglySorted_inv in H as [Hs Hall].
    destruct (Z.ltb_spec k k') as [Hlt|Hge]; simpl.
    + constructor; [now constructor|]. constructor; [exact Hlt|].
      eapply Forall_impl; [exact Hall|]. simpl. intros y Hy. lia.
    + destruct (Z.eqb_spec k k') as [->|Hne]; simpl; [now constructor|].
      constructor; [now apply IH|].
      apply Forall_fmap.
      apply (StdMap_insert_Forall (fun e => k' < fst e)); [simpl; lia|].
      rewrite Forall_forall in Hall. apply Forall_forall. intros e He.
      apply Hall, list_elem_of_fmap. eauto.
Qed.

Lemma filed_before_step su proc (m : RemoteIndexMap) v :
  0 <= proc -> (proc <> 0 \/ sendTwo su = true) ->
  filed_before su proc m ->
  filed_before su (proc + 1)
    (StdMap.insert (remoteProc (the_rank su) (the_procs su) proc) v m).
Proof.
  intros Hproc Hhop [Hwf Hall]. split; [now apply StdMap_insert_wf|].
  apply StdMap_insert_Forall.
  - exists proc. split; [|reflexivity].
    destruct (sendTwo su); [lia|]. destruct Hhop as [H|H]; [lia|discriminate].
  - eapply Forall_impl; [exact Hall|]. simpl.
    intros e (q & Hq & He). exists q. split; [lia|exact He].
Qed.

Lemma filed_before_mono su proc (m : RemoteIndexMap) :
  filed_before su proc m -> filed_before su (proc + 1) m.
Proof.
  intros [Hwf Hall]. split; [exact Hwf|].
  eapply Forall_impl; [exact Hall|]. simpl.
  intros e (q & Hq & He). exists q. split; [lia|exact He].
Qed.

Lemma ring_files_peers ignorePublic σ recv su n : forall proc st,
  0 <= proc -> filed_before su proc (lists st) ->
  yields (fun st' => filed_before su (proc + Z.of_nat n) (lists st'))
    (ring n ignorePublic σ recv su proc st).
Proof.
  induction n as [|n IH]; intros proc st Hproc Hinv; simpl ring.
  - apply yields_ret. now rewrite Z.add_0_r.
  - intros w st' w' Hrun. apply bind_inv_ok in Hrun as (st1 & w1 & Hhop & Hrun).
    replace (proc + Z.of_nat (Datatypes.S n)) with (proc + 1 + Z.of_nat n) by lia.
    apply (IH (proc + 1) st1 ltac:(lia)) in Hrun; [exact Hrun|].
    apply hop_lists in Hhop as [->|[Hhop [v ->]]].
    + now apply filed_before_mono.
    + now apply filed_before_step.
Qed.

Lemma remoteProc_range rank procs q :
  0 <= rank < procs -> 0 <= q < procs ->
  0 <= remoteProc rank procs q < procs /\
  (remoteProc rank procs q = rank <-> q = 0).
Proof.
  intros Hr Hq. unfold remoteProc. rewrite Z.rem_mod_nonneg by lia.
  destruct (Z_le_gt_dec q rank) as [Hle|Hgt].
  - replace (rank + procs - q) with (rank - q + 1 * procs) by lia.
    rewrite Z_mod_plus_full, Z.mod_small by lia. lia.
  - rewrite Z.mod_small by lia. lia.
Qed.

Lemma sorted_keys_bound (ks : list Z) : forall lo hi,
  StronglySorted Z.lt ks -> Forall (fun k => lo <= k < hi) ks ->
  Z.of_nat (length ks) <= Z.max 0 (hi - lo).
Proof.
  induction ks as [|k ks IH]; intros lo hi Hs Hall; simpl length; [lia|].
  apply StronglySorted_inv in Hs as [Hs Hk]. apply Forall_cons in Hall as [Hk0 Hall].
  specialize (IH (k + 1) hi Hs).
  assert (H : Forall (fun k0 => k + 1 <= k0 < hi) ks).
  { rewrite Forall_forall in *. intros y Hy. specialize (Hk y Hy). specialize (Hall y Hy). lia. }
  specialize (IH H). lia.
Qed.

(** X16.  After a first build the registry is keyed by ranks of the
    communicator: the keys are distinct ranks between 0 and [procs - 1],
    in ascending order, so that there are at most [procs] neighbours; and
    the own rank is a key only for a process whose source and target index
    sets are distinct objects. *)
Theorem rebuild_files_by_rank (ignorePublic : bool) (σ : Store) (recv : Z -> Buffer)
    (r : RemoteIndices) (comm : Comm) (a b : positive) (w : World)
    (r' : RemoteIndices) (w' : World) :
  source_ r = Some a -> target_ r = Some b -> comm_ r = Some comm ->
  firstBuild r = true ->
  0 <= rank comm < procs comm ->
  rebuild ignorePublic σ recv r w = Ok r' w' ->
  StdMap_wf (remoteIndices_ r') /\
  Forall (fun e => 0 <= fst e < procs comm /\ (fst e = rank comm -> a <> b))
    (remoteIndices_ r') /\
  neighbours r' <= procs comm.
Proof.
  intros Hs Ht Hcomm Hfirst Hrank H. unfold rebuild in H.
  rewrite Hfirst, bind_ret in H.
  apply bind_inv_ok in H as (r1 & w1 & Hfree & H).
  assert (Hr1 : r1 = set_firstBuild true (set_remoteIndices_ [] r)).
  { unfold free in Hfree. apply bind_inv_ok in Hfree as (u & w2 & _ & Hfree).
    now injection Hfree as <- _. }
  subst r1.
  apply bind_inv_ok in H as (r2 & w2 & Hbuild & H).
  apply bind_inv_ok in H as (s & w3 & _ & H).
  apply bind_inv_ok in H as (t & w4 & _ & H). injection H as <- _.
  simpl remoteIndices_. unfold neighbours. simpl remoteIndices_.
  unfold buildRemote in Hbuild. simpl in Hbuild. rewrite Hcomm, Hs, Ht in Hbuild.
  apply bind_inv_ok in Hbuild as (comm' & w5 & Hc & Hbuild). injection Hc as <- _.
  apply bind_inv_ok in Hbuild as (sa & w6 & _ & Hbuild).
  apply bind_inv_ok in Hbuild as (s' & w7 & _ & Hbuild).
  apply bind_inv_ok in Hbuild as (ta & w8 & _ & Hbuild).
  apply bind_inv_ok in Hbuild as (t' & w9 & _ & Hbuild).
  apply bind_inv_ok in Hbuild as (u & w10 & _ & Hbuild).
  apply bind_inv_ok in Hbuild as (st & w11 & Hring & Hbuild).
  apply bind_inv_ok in Hbuild as (u' & w12 & _ & Hbuild). injection Hbuild as <- _.
  simpl remoteIndices_.
  apply ring_files_peers in Hring; [|lia|split; [constructor|constructor]].
  destruct Hring as [Hwf Hall]. simpl in Hall.
  assert (Hkeys : Forall (fun e => 0 <= fst e < procs comm /\ (fst e = rank comm -> a <> b))
                    (lists st)).
  { eapply Forall_impl; [exact Hall|]. simpl. intros e (q & Hq & ->).
    assert (Hq' : 0 <= q < procs comm) by (destruct (bool_decide _); lia).
    destruct (remoteProc_range (rank comm) (procs comm) q Hrank Hq') as [Hrange Hiff].
    split; [exact Hrange|]. intros E. apply Hiff in E. subst q.
    destruct (bool_decide (Some a <> Some b)) eqn:Eb; [|lia].
    apply bool_decide_eq_true in Eb. congruence. }
  split; [exact Hwf|]. split; [exact Hkeys|].
  unfold StdMap.size.
  pose proof (sorted_keys_bound (map fst (lists st)) 0 (procs comm) Hwf) as Hb.
  rewrite length_map in Hb.
  assert (Z.of_nat (length (lists st)) <= Z.max 0 (procs comm - 0)); [|lia].
  apply Hb. apply Forall_fmap. eapply Forall_impl; [exact Hkeys|]. simpl. tauto.
Qed.

Lemma rebuild_files_by_rank_witness :
  exists r' w',
    rebuild false two_set_store (fun _ => example_two_set_message)
      (RemoteIndices_ctor 1 2 example_comm) empty_world = Ok r' w' /\
    StdMap_wf (remoteIndices_ r') /\
    Forall (fun e => 0 <= fst e < 2 /\ (fst e = 0 -> 1%positive <> 2%positive))
      (remoteIndices_ r') /\
    neighbours r' <= 2.
Proof.
  destruct (rebuild false two_set_store (fun _ => example_two_set_message)
              (RemoteIndices_ctor 1 2 example_comm) empty_world) as [r1 w1| |] eqn:E.
  - exists r1, w1. split; [reflexivity|].
    apply (rebuild_files_by_rank false two_set_store (fun _ => example_two_set_message)
             (RemoteIndices_ctor 1 2 example_comm) example_comm 1 2 empty_world r1 w1);
      try reflexivity; [simpl; lia|exact E].
  - vm_compute in E. discriminate.
  - vm_compute in E. discriminate.
Defined.

(** ** The state a rebuild leaves behind *)

Lemma buildRemote_fields ignorePublic σ recv r w r' w' :
  buildRemote ignorePublic σ recv r w = Ok r' w' ->
  source_ r' = source_ r /\ target_ r' = target_ r /\ comm_ r' = comm_ r /\
  firstBuild r' = firstBuild r /\ publicIgnored r' = publicIgnored r.
Proof.
  unfold buildRemote. intros H.
  apply bind_inv_ok in H as (comm & w1 & _ & H).
  apply bind_inv_ok in H as (sa & w2 & _ & H).
  apply bind_inv_ok in H as (s & w3 & _ & H).
  apply bind_inv_ok in H as (ta & w4 & _ & H).
  apply bind_inv_ok in H as (t & w5 & _ & H).
  apply bind_inv_ok in H as (u & w6 & _ & H).
  apply bind_inv_ok in H as (st & w7 & _ & H).
  apply bind_inv_ok in H as (u' & w8 & _ & H).
  injection H as <- _. simpl. auto.
Qed.

(** X17.  Every [rebuild<flag>()] that returns leaves the registry synced
    with the index sets as they are: the cached sequence numbers are the
    current ones, so that [isSynced()] is true; the flag is recorded as the
    one of the last build and the next build is not the first.  The index
    sets and the communicator of the registry are as before. *)
Theorem rebuild_leaves_the_registry_synced (flag : bool) (σ : Store)
    (recv : Z -> Buffer) (r : RemoteIndices) (w : World) (r' : RemoteIndices) (w' : World) :
  rebuild flag σ recv r w = Ok r' w' ->
  isSynced σ r' w' = Ok true w' /\
  (exists a b s t, source_ r' = Some a /\ target_ r' = Some b /\
     σ !! a = Some s /\ σ !! b = Some t /\
     sourceSeqNo_ r' = seqNo s /\ destSeqNo_ r' = seqNo t) /\
  publicIgnored r' = flag /\ firstBuild r' = false /\
  source_ r' = source_ r /\ target_ r' = target_ r /\ comm_ r' = comm_ r.
Proof.
  intros H.
  assert (Hsync : forall r0 w0 a b s t, source_ r0 = Some a -> target_ r0 = Some b ->
            σ !! a = Some s -> σ !! b = Some t ->
            sourceSeqNo_ r0 = seqNo s -> destSeqNo_ r0 = seqNo t ->
            isSynced σ r0 w0 = Ok true w0).
  { intros r0 w0 a b s t Hs Ht Ha Hb H1 H2. unfold isSynced.
    rewrite Hs, (bind_ok _ _ _ _ _ (deref_set_ok _ _ _ w0 Ha)), H1, Z.eqb_refl.
    rewrite Ht, (bind_ok _ _ _ _ _ (deref_set_ok _ _ _ w0 Hb)).
    unfold ret. now rewrite H2, Z.eqb_refl. }
  assert (Hrun : (r1 <- free r ;;
                  r1 <- buildRemote flag σ recv r1 ;;
                  s <- deref_set σ (source_ r1) ;;
                  t <- deref_set σ (target_ r1) ;;
                  ret (set_publicIgnored flag
                         (set_firstBuild false (set_seqNos (seqNo s) (seqNo t) r1)))) w
                 = Ok r' w' ->
          isSynced σ r' w' = Ok true w' /\
          (exists a b s t, source_ r' = Some a /\ target_ r' = Some b /\
             σ !! a = Some s /\ σ !! b = Some t /\
             sourceSeqNo_ r' = seqNo s /\ destSeqNo_ r' = seqNo t) /\
          publicIgnored r' = flag /\ firstBuild r' = false /\
          source_ r' = source_ r /\ target_ r' = target_ r /\ comm_ r' = comm_ r).
  { clear H. intros H.
    apply bind_inv_ok in H as (r1 & w1 & Hfree & H).
    assert (Hr1 : r1 = set_firstBuild true (set_remoteIndices_ [] r)).
    { unfold free in Hfree. apply bind_inv_ok in Hfree as (u & w2 & _ & Hfree).
      now injection Hfree as <- _. }
    apply bind_inv_ok in H as (r2 & w2 & Hbuild & H).
    apply buildRemote_fields in Hbuild as (Es & Et & Ec & _ & _).
    apply bind_inv_ok in H as (s & w3 & Hs & H).
    apply deref_set_inv in Hs as [-> (a & Ea & Ha)].
    apply bind_inv_ok in H as (t & w4 & Ht & H).
    apply deref_set_inv in Ht as [-> (b & Eb & Hb)].
    injection H as <- <-. simpl.
    split; [now apply (Hsync _ _ a b s t)|].
    split; [exists a, b, s, t; auto 10|].
    rewrite Es, Et, Ec, Hr1. simpl. auto 10. }
  unfold rebuild in H.
  destruct (firstBuild r) eqn:Hfirst; [rewrite bind_ret in H; auto|].
  destruct (eqb flag (publicIgnored r)) eqn:Hflag; simpl in H;
    [|rewrite bind_ret in H; auto].
  rewrite bind_assoc in H.
  apply bind_inv_ok in H as (b & w2 & Hs & H).
  pose proof (isSynced_pure _ _ _ _ _ Hs) as ->.
  rewrite bind_ret in H. destruct b; simpl in H; [|auto].
  injection H as <- <-.
  split; [exact Hs|]. split.
  - unfold isSynced in Hs.
    apply bind_inv_ok in Hs as (s & w3 & Hs' & Hs).
    apply deref_set_inv in Hs' as [-> (a & Ea & Ha)].
    destruct (Z.eqb_spec (sourceSeqNo_ r) (seqNo s)) as [E1|]; [|discriminate].
    apply bind_inv_ok in Hs as (t & w4 & Ht' & Hs).
    apply deref_set_inv in Ht' as [-> (b & Eb & Hb)].
    injection Hs as Hs. apply Z.eqb_eq in Hs.
    exists a, b, s, t. auto 10.
  - apply eqb_prop in Hflag. auto 10.
Qed.

Lemma rebuild_leaves_the_registry_synced_witness :
  exists r' w',
    rebuild true example_store (fun _ => example_message)
      (RemoteIndices_ctor 1 1 example_comm) empty_world = Ok r' w' /\
    isSynced example_store r' w' = Ok true w' /\
    publicIgnored r' = true /\ firstBuild r' = false.
Proof.
  destruct (rebuild true example_store (fun _ => example_message)
              (RemoteIndices_ctor 1 1 example_comm) empty_world) as [r1 w1| |] eqn:E.
  - exists r1, w1. split; [reflexivity|].
    destruct (rebuild_leaves_the_registry_synced true example_store
                (fun _ => example_message) (RemoteIndices_ctor 1 1 example_comm)
                empty_world r1 w1 E) as (H1 & _ & H2 & H3 & _).
    auto.
  - vm_compute in E. discriminate.
  - vm_compute in E. discriminate.
Defined.

(** ** Teardown twice *)

(** X18.  After [free()] nothing is left to delete: a second [free()], the
    destructor and [setIndexSets] then complete without a single [delete]
    and leave the world as it is. *)
Theorem free_twice_deletes_once (r : RemoteIndices) (w : World)
    (source destination : positive) (comm : Comm) :
  owns w (remoteIndices_ r) ->
  exists r' w',
    free r w = Ok r' w' /\
    free r' w' = Ok r' w' /\
    RemoteIndices_dtor r' w' = Ok r' w' /\
    (exists r'', setIndexSets source destination comm r' w' = Ok r'' w') /\
    owns w' (remoteIndices_ r').
Proof.
  intros Hown. destruct (free_lists_ok _ _ Hown) as (w' & Hrun & _).
  exists (set_firstBuild true (set_remoteIndices_ [] r)), w'.
  assert (Hfree : free r w = Ok (set_firstBuild true (set_remoteIndices_ [] r)) w').
  { unfold free. now rewrite (bind_ok _ _ _ _ _ Hrun). }
  split; [exact Hfree|]. split; [reflexivity|]. split; [reflexivity|].
  split; [eexists; reflexivity|apply owns_nil].
Qed.

Lemma free_twice_deletes_once_witness :
  exists r' w',
    free example_registry example_world = Ok r' w' /\
    free r' w' = Ok r' w' /\
    RemoteIndices_dtor r' w' = Ok r' w'.
Proof.
  destruct (free_twice_deletes_once example_registry example_world 1 1 example_comm)
    as (r' & w' & H1 & H2 & H3 & _).
  - split.
    + apply (bool_decide_unpack _). vm_compute. exact I.
    + assert (E : blocks_of (remoteIndices_ example_registry) = [1; 2; 3]%positive)
        by reflexivity.
      rewrite E. intros p Hp.
      repeat (apply elem_of_cons in Hp as [->|Hp]; [eexists; reflexivity|]).
      now apply elem_of_nil in Hp.
  - exists r', w'. auto.
Defined.

(** ** A registry without index sets *)

Lemma rebuild_needs_source flag σ recv r w r' w' :
  rebuild flag σ recv r w = Ok r' w' -> is_Some (source_ r).
Proof.
  unfold rebuild. intros H.
  apply bind_inv_ok in H as (needed & w1 & Hneeded & H).
  destruct needed.
  - apply bind_inv_ok in H as (r1 & w2 & Hfree & H).
    assert (Hr1 : source_ r1 = source_ r).
    { unfold free in Hfree. apply bind_inv_ok in Hfree as (u & w3 & _ & Hfree).
      now injection Hfree as <- _. }
    apply bind_inv_ok in H as (r2 & w3 & Hbuild & _).
    unfold buildRemote in Hbuild.
    apply bind_inv_ok in Hbuild as (comm & w4 & _ & Hbuild).
    apply bind_inv_ok in Hbuild as (sa & w5 & Hsa & _).
    rewrite Hr1 in Hsa. destruct (source_ r); [eauto|discriminate].
  - destruct (firstBuild r); [discriminate|].
    destruct (negb _); [discriminate|].
    apply bind_inv_ok in Hneeded as (b & w2 & Hb & _).
    unfold isSynced in Hb. apply bind_inv_ok in Hb as (s & w3 & Hs & _).
    apply deref_set_inv in Hs as [_ (a & -> & _)]. eauto.
Qed.

(** X19.  A registry whose source index set is not set, as the one the
    parameterless constructor makes, can be torn down but not used:
    [isSynced()] and [getModifier] dereference the null pointer, and no
    [rebuild] returns, while [free()] completes on the empty registry and
    [neighbours()] is 0. *)
Theorem registry_without_index_sets (flag mode send : bool) (process : Z) (σ : Store)
    (recv : Z -> Buffer) (r : RemoteIndices) (w : World) :
  source_ r = None ->
  isSynced σ r w = Undefined NullDereference /\
  getModifier mode send process σ r w = Undefined NullDereference /\
  (forall r' w', rebuild flag σ recv r w <> Ok r' w') /\
  source_ RemoteIndices_ctor_default = None /\
  rebuild flag σ recv RemoteIndices_ctor_default w = Undefined MPIError /\
  free RemoteIndices_ctor_default w = Ok RemoteIndices_ctor_default w /\
  neighbours RemoteIndices_ctor_default = 0.
Proof.
  intros Hs.
  assert (Hsync : isSynced σ r w = Undefined NullDereference)
    by (unfold isSynced; now rewrite Hs).
  split; [exact Hsync|].
  split; [unfold getModifier, getModifier_find; now rewrite Hs|].
  split; [|repeat split].
  intros r' w' H.
  apply rebuild_needs_source in H as [a Ha]. congruence.
Qed.

Lemma registry_without_index_sets_witness :
  isSynced example_store RemoteIndices_ctor_default empty_world = Undefined NullDereference /\
  getModifier false true 1 example_store RemoteIndices_ctor_default empty_world
    = Undefined NullDereference /\
  rebuild false example_store (fun _ => []) RemoteIndices_ctor_default empty_world
    = Undefined MPIError.
Proof.
  destruct (registry_without_index_sets false false true 1 example_store (fun _ => [])
              RemoteIndices_ctor_default empty_world eq_refl)
    as (H1 & H2 & _ & _ & H3 & _).
  auto.
Defined.

(** ** A build leaks no list *)

Lemma same_lists_refl w : same_lists w w.
Proof. reflexivity. Qed.

Lemma same_lists_trans w1 w2 w3 : same_lists w1 w2 -> same_lists w2 w3 -> same_lists w1 w3.
Proof. unfold same_lists. congruence. Qed.

Lemma same_lists_write w p (l : RemoteIndexList) :
  is_Some (heap w !! p) ->
  same_lists w {| heap := <[p := l]> (heap w); trace := trace w |}.
Proof.
  intros H. unfold same_lists. simpl. rewrite dom_insert_L.
  apply subseteq_union_1_L, singleton_subseteq_l, elem_of_dom. exact H.
Qed.

Lemma same_lists_live w w' p :
  same_lists w w' -> (is_Some (heap w' !! p) <-> is_Some (heap w !! p)).
Proof. unfold same_lists. intros H. now rewrite <- !elem_of_dom, H. Qed.

Lemma new_list_live (w : World) p :
  is_Some ((<[fresh (dom (heap w)) := []]> (heap w) : gmap positive RemoteIndexList) !! p)
  <-> p = fresh (dom (heap w)) \/ is_Some (heap w !! p).
Proof.
  destruct (decide (p = fresh (dom (heap w)))) as [->|Hne].
  - rewrite lookup_insert_eq. split; eauto.
  - rewrite lookup_insert_ne by auto. split; [auto|]. intros [H|H]; [contradiction|exact H].
Qed.

Lemma unpack_lists_live σ su st p_in receive noRemoteSource noRemoteDest
    twoIndexSets position x w w' :
  (if twoIndexSets =? 0 then
     if sendTwo su then
       send <- new_list ;;
       position <- unpackIndices_two σ send receive noRemoteSource
                     (sourcePairs st) (sourcePublish su)
                     (destPairs st) (destPublish su) p_in position ;;
       ret (send, position)
     else
       position <- unpackIndices σ receive noRemoteSource
                     (sourcePairs st) (sourcePublish su) p_in position ;;
       ret (receive, position)
   else
     position <- (if sendTwo su
                  then unpackIndices σ receive noRemoteSource
                         (destPairs st) (destPublish su) p_in position
                  else unpackIndices σ receive noRemoteSource
                         (sourcePairs st) (sourcePublish su) p_in position) ;;
     send <- new_list ;;
     position <- unpackIndices σ send noRemoteDest
                   (sourcePairs st) (sourcePublish su) p_in position ;;
     ret (send, position)) w = Ok x w' ->
  is_Some (heap w !! receive) ->
  (forall p, is_Some (heap w' !! p) <-> p = fst x \/ is_Some (heap w !! p)) /\
  (fst x = receive \/ heap w !! fst x = None) /\
  trace w' = trace w.
Proof.
  assert (Hunpack : forall remote n l e b pos w1 a w2,
            unpackIndices σ remote n l e b pos w1 = Ok a w2 ->
            same_lists w1 w2 /\ trace w2 = trace w1).
  { intros remote n l e b pos w1 a w2 H. split.
    - eapply (preserved_unpackIndices same_lists); try eassumption;
        first [ exact same_lists_refl | exact same_lists_trans | exact same_lists_write ].
    - eapply (preserved_unpackIndices (fun v v' => trace v' = trace v)); try eassumption;
        [reflexivity|intros; congruence|reflexivity]. }
  intros H Hrecv.
  destruct (twoIndexSets =? 0).
  - destruct (sendTwo su).
    + apply bind_inv_ok in H as (send & w1 & Hnew & H). injection Hnew as <- <-.
      apply bind_inv_ok in H as (pos & w2 & Hrun & H). injection H as <- <-. simpl.
      assert (Hsame : same_lists {| heap := <[fresh (dom (heap w)) := []]> (heap w);
                                    trace := trace w |} w2).
      { eapply (preserved_unpackIndices_two same_lists); try eassumption;
          first [ exact same_lists_refl | exact same_lists_trans | exact same_lists_write ]. }
      assert (Htr : trace w2 = trace w).
      { eapply (preserved_unpackIndices_two (fun v v' => trace v' = trace v)) in Hrun;
          [exact Hrun|reflexivity|intros; congruence|reflexivity]. }
      split; [|split; [right; apply new_list_fresh|exact Htr]].
      intros p. rewrite (same_lists_live _ _ p Hsame). simpl. apply new_list_live.
    + apply bind_inv_ok in H as (pos & w2 & Hrun & H). injection H as <- <-. simpl.
      apply Hunpack in Hrun as [Hsame Htr].
      split; [|split; [now left|exact Htr]].
      intros p. rewrite (same_lists_live _ _ p Hsame). split; [auto|].
      intros [->|H]; [exact Hrecv|exact H].
  - apply bind_inv_ok in H as (pos & w1 & Hrun1 & H).
    assert (H1 : same_lists w w1 /\ trace w1 = trace w)
      by (destruct (sendTwo su); now apply Hunpack in Hrun1).
    destruct H1 as [Hsame1 Htr1].
    apply bind_inv_ok in H as (send & w2 & Hnew & H). injection Hnew as <- <-.
    apply bind_inv_ok in H as (pos' & w3 & Hrun2 & H). injection H as <- <-. simpl.
    apply Hunpack in Hrun2 as [Hsame2 Htr2]. simpl in Htr2.
    assert (Ef : fresh (dom (heap w1)) = fresh (dom (heap w))) by now rewrite Hsame1.
    split; [|split; [right; rewrite Ef; apply new_list_fresh|congruence]].
    intros p. rewrite (same_lists_live _ _ p Hsame2). simpl.
    rewrite new_list_live, (same_lists_live _ _ p Hsame1). reflexivity.
Qed.

Lemma blocks_of_insert_new k a b (m : RemoteIndexMap) p :
  StdMap.find k m = None ->
  (p ∈ blocks_of (StdMap.insert k (a, b) m) <-> p = a \/ p = b \/ p ∈ blocks_of m).
Proof.
  intros Hfind.
  destruct (StdMap_insert_cases k (a, b) m) as [E|(m1 & m2 & Hm & ->)].
  - pose proof (StdMap_find_insert_self k (a, b) m) as [v Hv].
    rewrite E, Hfind in Hv. discriminate.
  - rewrite Hm, !blocks_of_app.
    change ((k, (a, b)) :: m2) with ([(k, (a, b))] ++ m2).
    rewrite (blocks_of_app [(k, (a, b))] m2), !elem_of_app.
    unfold blocks_of at 2. simpl.
    destruct (decide (a = b)) as [->|Hab]; simpl; rewrite ?elem_of_cons, elem_of_nil; tauto.
Qed.

Lemma remoteProc_inj rank procs q q' :
  0 <= rank < procs -> 0 <= q < procs -> 0 <= q' < procs ->
  remoteProc rank procs q = remoteProc rank procs q' -> q = q'.
Proof.
  intros Hr Hq Hq'. unfold remoteProc. rewrite !Z.rem_mod_nonneg by lia.
  assert (Hval : forall x, 0 <= x < procs ->
            (rank + procs - x) mod procs = if Z_le_gt_dec x rank then rank - x
                                          else rank + procs - x).
  { intros x Hx. destruct (Z_le_gt_dec x rank).
    - replace (rank + procs - x) with (rank - x + 1 * procs) by lia.
      rewrite Z_mod_plus_full, Z.mod_small by lia. reflexivity.
    - rewrite Z.mod_small by lia. reflexivity. }
  rewrite (Hval q Hq), (Hval q' Hq').
  destruct (Z_le_gt_dec q rank), (Z_le_gt_dec q' rank); lia.
Qed.

Lemma filed_before_absent su proc (m : RemoteIndexMap) :
  0 <= the_rank su < the_procs su -> 0 <= proc < the_procs su ->
  filed_before su proc m ->
  StdMap.find (remoteProc (the_rank su) (the_procs su) proc) m = None.
Proof.
  intros Hrank Hproc [_ Hall].
  destruct (StdMap.find _ m) as [v|] eqn:E; [|reflexivity]. exfalso.
  apply StdMap_find_elem in E. rewrite Forall_forall in Hall.
  destruct (Hall _ E) as (q & Hq & Hkey). simpl in Hkey.
  apply remoteProc_inj in Hkey; try lia.
  destruct (sendTwo su); lia.
Qed.

Lemma process_message_accounted D σ su proc inb st w st' w' :
  accounted D w (lists st) ->
  StdMap.find (remoteProc (the_rank su) (the_procs su) proc) (lists st) = None ->
  process_message σ su proc inb st w = Ok st' w' ->
  accounted D w' (lists st').
Proof.
  intros [Hacc Hdis] Hfind H. unfold process_message in H. cbv zeta in H.
  apply bind_inv_ok in H as (x1 & w1 & H1 & H).
  assert (w1 = w) as ->.
  { unfold MPI_Unpack_char in H1. destruct (_ !! _) as [[| |]|]; try discriminate.
    now injection H1. }
  apply bind_inv_ok in H as (x2 & w2 & H2 & H).
  assert (w2 = w) as ->.
  { unfold MPI_Unpack_int in H2. destruct (_ !! _) as [[| |]|]; try discriminate.
    now injection H2. }
  apply bind_inv_ok in H as (x3 & w3 & H3 & H).
  assert (w3 = w) as ->.
  { unfold MPI_Unpack_int in H3. destruct (_ !! _) as [[| |]|]; try discriminate.
    now injection H3. }
  apply bind_inv_ok in H as (receive & w4 & Hnew & H). injection Hnew as <- <-.
  set (receive := fresh (dom (heap w))) in *.
  set (w4 := {| heap := <[receive := []]> (heap w); trace := trace w |}) in *.
  assert (Hrecv : heap w !! receive = None) by apply new_list_fresh.
  apply bind_inv_ok in H as (x & w5 & Hunpack & H).
  apply unpack_lists_live in Hunpack as (Hlive5 & Hsend & _);
    [|simpl; rewrite lookup_insert_eq; eauto].
  assert (Hlive : forall p, is_Some (heap w5 !! p) <->
                    p = fst x \/ p = receive \/ is_Some (heap w !! p)).
  { intros p. rewrite Hlive5. simpl. unfold w4, receive. simpl.
    now rewrite new_list_live. }
  assert (Hsw : heap w !! fst x = None).
  { destruct Hsend as [->|Hs]; [exact Hrecv|].
    simpl in Hs. destruct (decide (fst x = receive)) as [->|Hne]; [exact Hrecv|].
    now rewrite lookup_insert_ne in Hs by auto. }
  assert (Hnot : forall p, is_Some (heap w !! p) -> p <> fst x /\ p <> receive).
  { intros p [l Hl]. split; intros ->; congruence. }
  apply bind_inv_ok in H as (r & w6 & Hr & H). apply read_list_inv in Hr as [-> _].
  apply bind_inv_ok in H as (s & w7 & Hs & H). apply read_list_inv in Hs as [-> _].
  assert (Hins : accounted D w5
            (StdMap.insert (remoteProc (the_rank su) (the_procs su) proc)
               (fst x, receive) (lists st))).
  { split.
    - intros p. rewrite Hlive, (blocks_of_insert_new _ _ _ _ p Hfind), Hacc. tauto.
    - intros p HD. rewrite (blocks_of_insert_new _ _ _ _ p Hfind).
      assert (Hp : is_Some (heap w !! p)) by (apply Hacc; now left).
      destruct (Hnot p Hp). specialize (Hdis p HD). tauto. }
  destruct r as [|r0 r]; [destruct s as [|s0 s]|];
    [|injection H as <- <-; exact Hins|injection H as <- <-; exact Hins].
  apply bind_inv_ok in H as (u & w8 & Hdel & H). injection H as <- <-. simpl.
  split; [|exact Hdis].
  intros p. rewrite <- Hacc.
  destruct (decide (fst x = receive)) as [E|E].
  - unfold delete_list in Hdel. destruct (heap w5 !! x.1); [|discriminate].
    injection Hdel as _ <-. simpl.
    destruct (decide (p = fst x)) as [->|Hne].
    + rewrite lookup_delete_eq, Hsw. split; intros [? ?]; discriminate.
    + rewrite lookup_delete_ne by auto. rewrite Hlive. rewrite <- E. tauto.
  - apply bind_inv_ok in Hdel as (u' & w9 & Hd1 & Hd2).
    unfold delete_list in Hd1. destruct (heap w5 !! x.1); [|discriminate].
    injection Hd1 as _ <-.
    unfold delete_list in Hd2. simpl in Hd2.
    destruct (delete x.1 (heap w5) !! receive); [|discriminate].
    injection Hd2 as _ <-. simpl.
    destruct (decide (p = receive)) as [->|Hne1].
    + rewrite lookup_delete_eq, Hrecv. split; intros [? ?]; discriminate.
    + rewrite lookup_delete_ne by auto.
      destruct (decide (p = fst x)) as [->|Hne2].
      * rewrite lookup_delete_eq, Hsw. split; intros [? ?]; discriminate.
      * rewrite lookup_delete_ne by auto. rewrite Hlive. tauto.
Qed.

Lemma hop_accounted D ignorePublic σ recv su proc st w st' w' :
  accounted D w (lists st) ->
  StdMap.find (remoteProc (the_rank su) (the_procs su) proc) (lists st) = None ->
  hop ignorePublic σ recv su proc st w = Ok st' w' ->
  accounted D w' (lists st').
Proof.
  intros Hacc Hfind H. unfold hop in H. cbv zeta in H.
  match type of H with
  | context [if ?c then pack_own ?a ?b ?d ?e else _] =>
      assert (Hl : lists (if c then pack_own a b d e else st) = lists st)
        by (destruct c; [apply pack_own_lists|reflexivity]);
      generalize dependent (if c then pack_own a b d e else st)
  end.
  intros st1 H Hl.
  assert (Hemit : forall e w1 u w2, emit e w1 = Ok u w2 -> accounted D w1 (lists st) ->
            accounted D w2 (lists st)).
  { intros e w1 u w2 [= _ <-] Ha. exact Ha. }
  destruct (proc =? 0).
  - destruct (sendTwo su).
    + apply bind_inv_ok in H as (u & w1 & He & H).
      eapply process_message_accounted in H; [exact H| |]; simpl; rewrite Hl; eauto.
    + injection H as <- <-. now rewrite Hl.
  - apply bind_inv_ok in H as (u & w1 & He & H).
    eapply process_message_accounted in H; [exact H| |]; simpl; rewrite Hl; [|exact Hfind].
    destruct (_ =? 0);
      apply bind_inv_ok in He as (u1 & w2 & He1 & He2); eauto.
Qed.

Lemma ring_accounted D ignorePublic σ recv su n : forall proc st w st' w',
  0 <= the_rank su < the_procs su ->
  0 <= proc -> proc + Z.of_nat n <= the_procs su ->
  filed_before su proc (lists st) ->
  accounted D w (lists st) ->
  ring n ignorePublic σ recv su proc st w = Ok st' w' ->
  accounted D w' (lists st').
Proof.
  induction n as [|n IH]; intros proc st w st' w' Hrank Hproc Hn Hfiled Hacc H;
    simpl in H.
  - now injection H as <- <-.
  - apply bind_inv_ok in H as (st1 & w1 & Hhop & H).
    assert (Hfind : StdMap.find (remoteProc (the_rank su) (the_procs su) proc) (lists st)
                    = None) by (apply filed_before_absent; [exact Hrank|lia|exact Hfiled]).
    apply (IH (proc + 1) st1 w1 st' w' Hrank ltac:(lia) ltac:(lia)); [| |exact H].
    + pose proof Hhop as Hhop'. apply hop_lists in Hhop' as [->|[Hh [v ->]]].
      * now apply filed_before_mono.
      * now apply filed_before_step.
    + now apply (hop_accounted D _ _ _ _ _ _ _ _ _ Hacc Hfind Hhop).
Qed.

(** X20.  A first build neither leaks a list nor frees one twice.  On a
    registry that owns its lists, on a rank of the communicator, every
    [rebuild] that returns leaves allocated exactly the lists that were
    allocated before and did not belong to the registry, together with the
    lists of the entries of the new registry; these are newly allocated,
    and the new registry owns them: every list that the build allocated
    and did not file it has deleted. *)
Theorem rebuild_leaks_no_list (ignorePublic : bool) (σ : Store) (recv : Z -> Buffer)
    (r : RemoteIndices) (comm : Comm) (a b : positive) (w : World)
    (r' : RemoteIndices) (w' : World) :
  source_ r = Some a -> target_ r = Some b -> comm_ r = Some comm ->
  firstBuild r = true ->
  0 <= rank comm < procs comm ->
  owns w (remoteIndices_ r) ->
  rebuild ignorePublic σ recv r w = Ok r' w' ->
  (forall p, is_Some (heap w' !! p) <->
     (is_Some (heap w !! p) /\ p ∉ blocks_of (remoteIndices_ r)) \/
     p ∈ blocks_of (remoteIndices_ r')) /\
  (forall p, p ∈ blocks_of (remoteIndices_ r') ->
     ~ (is_Some (heap w !! p) /\ p ∉ blocks_of (remoteIndices_ r))) /\
  owns w' (remoteIndices_ r').
Proof.
  intros Hs Ht Hcomm Hfirst Hrank Hown H.
  assert (Howns' : owns w' (remoteIndices_ r'))
    by (apply (proj2 (proj2 (proj2 owns_invariant)) _ _ _ _ _ _ _ Hown H)).
  destruct (free_lists_ok _ _ Hown) as (wf & Hfree & _ & Hheap).
  unfold rebuild in H. rewrite Hfirst, bind_ret in H.
  unfold free in H. rewrite bind_assoc, (bind_ok _ _ _ _ _ Hfree), bind_ret in H.
  apply bind_inv_ok in H as (r2 & w2 & Hbuild & H).
  apply bind_inv_ok in H as (s & w3 & Hs3 & H). apply deref_set_inv in Hs3 as [-> _].
  apply bind_inv_ok in H as (t & w4 & Ht4 & H). apply deref_set_inv in Ht4 as [-> _].
  injection H as <- <-. simpl remoteIndices_.
  unfold buildRemote in Hbuild. simpl in Hbuild. rewrite Hcomm, Hs, Ht in Hbuild.
  apply bind_inv_ok in Hbuild as (comm' & w5 & Hc & Hbuild). injection Hc as <- <-.
  apply bind_inv_ok in Hbuild as (sa & w6 & Hsa & Hbuild). injection Hsa as <- <-.
  apply bind_inv_ok in Hbuild as (s' & w7 & Hs' & Hbuild).
  apply deref_set_inv in Hs' as [-> _].
  apply bind_inv_ok in Hbuild as (ta & w8 & Hta & Hbuild).
  assert (w8 = wf) as -> by (destruct (bool_decide _); now injection Hta).
  apply bind_inv_ok in Hbuild as (t' & w9 & Ht' & Hbuild).
  assert (w9 = wf) as ->.
  { destruct (bool_decide _); [|now injection Ht'].
    now apply deref_set_inv in Ht' as [-> _]. }
  apply bind_inv_ok in Hbuild as (u & w10 & Hu & Hbuild). injection Hu as _ <-.
  apply bind_inv_ok in Hbuild as (st & w11 & Hring & Hbuild).
  apply bind_inv_ok in Hbuild as (u' & w12 & Hu' & Hbuild). injection Hu' as _ <-.
  injection Hbuild as <- <-. simpl.
  apply (ring_accounted (fun p => is_Some (heap wf !! p))) in Hring.
  - destruct Hring as [Hacc Hdis].
    assert (HD : forall p, is_Some (heap wf !! p) <->
                   is_Some (heap w !! p) /\ p ∉ blocks_of (remoteIndices_ r)).
    { intros p. rewrite Hheap. destruct (decide (p ∈ blocks_of (remoteIndices_ r))).
      - split; [intros [? ?]; discriminate|tauto].
      - tauto. }
    split; [|split; [|exact Howns']].
    + intros p. rewrite Hacc, HD. reflexivity.
    + intros p Hp HDp. apply HD in HDp. now apply (Hdis p).
  - simpl. exact Hrank.
  - lia.
  - simpl. lia.
  - split; [constructor|constructor].
  - split; simpl.
    + intros p. rewrite elem_of_nil. tauto.
    + intros p _. apply not_elem_of_nil.
Qed.

Lemma rebuild_leaks_no_list_witness :
  exists r' w',
    rebuild false two_set_store (fun _ => example_two_set_message)
      (RemoteIndices_ctor 1 2 example_comm) empty_world = Ok r' w' /\
    (forall p, is_Some (heap w' !! p) <-> p ∈ blocks_of (remoteIndices_ r')) /\
    owns w' (remoteIndices_ r').
Proof.
  destruct (rebuild false two_set_store (fun _ => example_two_set_message)
              (RemoteIndices_ctor 1 2 example_comm) empty_world) as [r1 w1| |] eqn:E.
  - exists r1, w1. split; [reflexivity|].
    destruct (rebuild_leaks_no_list false two_set_store (fun _ => example_two_set_message)
                (RemoteIndices_ctor 1 2 example_comm) example_comm 1 2 empty_world r1 w1)
      as (Hlive & _ & Hown); try reflexivity; [simpl; lia|apply owns_nil|exact E|].
    split; [|exact Hown].
    intros p. rewrite Hlive. simpl. rewrite lookup_empty. split.
    + intros [[[? ?] _]|H]; [discriminate|exact H].
    + auto.
  - vm_compute in E. discriminate.
  - vm_compute in E. discriminate.
Defined.

(** ** What a build files *)




Section ExactMessage.
Variable σ : Store.
Variable su : Setup.
Variable st : Ring.
Variable inb : Z.
Variable c : Z.
Variable Rs Rt : list IndexPair.
Variable Ls Lt : list IndexPair.
Hypothesis Hbuf : buffer st inb = message c Rs Rt.
Hypothesis Hc : if sendTwo su then c <> 0 else (c = 0 -> Rt = []).
Hypothesis HLs : Forall2 (fun p x => pair_at σ p = Some x) (sourcePairs st) Ls.
Hypothesis HLt : Forall2 (fun p x => pair_at σ p = Some x) (destPairs st) Lt.
Hypothesis Hsn : sourcePublish su = length (sourcePairs st).
Hypothesis Hdn : sendTwo su = true -> destPublish su = length (destPairs st).
Hypothesis HsLs : strictly_ascending Ls.
Hypothesis HsLt : strictly_ascending Lt.
Hypothesis HsRs : strictly_ascending Rs.
Hypothesis HsRt : strictly_ascending Rt.

End ExactMessage.







